(** * AdvancedVector/vector.h : RawMemory<T> and Vector<T>

    A shallow embedding of the two class templates of [vector.h] and the
    properties of the container that follow from the code.

    - [size_t] is a [nat] kept below [2^64]: every [size_t] operation of the
      source that can wrap is written with [wrap].
    - The free store is a finite map from block addresses to blocks; a block
      is a list of slots, a slot is [None] (raw memory) or [Some x] (a live
      object of the element type).
    - A [T*] is a block address (or null) together with a slot offset.
    - [Vector] objects live in a store indexed by variable, so that the
      identity tests [this != &rhs] of the source can be written down.
    - A call either returns, throws, or has undefined behaviour
      ([Ret], [Throw], [Undef]).  The state paired with [Undef] is only
      where the evaluation stopped: nothing is stated about the program
      after undefined behaviour.
    - Destructors of the element type do not throw; constructor arguments
      are values held outside the storage of the vector they are given to. *)

From stdpp Require Import base numbers option list gmap.

Set Default Proof Using "Type".

(* ================================================================== *)
(** ** size_t *)

Definition wrap (n : nat) : nat := N.to_nat (N.of_nat n mod 2 ^ 64)%N.

Definition size_add (a b : nat) : nat := wrap (a + b).
Definition size_mul (a b : nat) : nat := wrap (a * b).
Definition size_sub (a b : nat) : nat :=
  N.to_nat ((N.of_nat a + 2 ^ 64 - N.of_nat b mod 2 ^ 64) mod 2 ^ 64)%N.

Definition is_size_t (n : nat) : Prop := (N.of_nat n < 2 ^ 64)%N.

(* ================================================================== *)
(** ** Calls that return, throw or go wrong *)

Inductive exn := bad_alloc | element_exn.

Inductive outcome (A : Type) :=
| Ret (a : A)
| Throw (e : exn)
| Undef.
Arguments Ret {A} a.
Arguments Throw {A} e.
Arguments Undef {A}.

Definition ST (S A : Type) : Type := S → outcome A * S.

Global Instance ST_ret {S} : MRet (ST S) := λ A a s, (Ret a, s).
Global Instance ST_bind {S} : MBind (ST S) := λ A B f m s,
  match m s with
  | (Ret a, s') => f a s'
  | (Throw e, s') => (Throw e, s')
  | (Undef, s') => (Undef, s')
  end.

Definition throw {S A} (e : exn) : ST S A := λ s, (Throw e, s).
Definition undef {S A} : ST S A := λ s, (Undef, s).

(** [assert(c)] of <cassert>: a failed assertion stops the program. *)
Definition assert {S} (c : bool) : ST S unit := if c then mret () else undef.

(** Stack unwinding: when [m] throws, [cleanup] runs (the destructors of the
    locals in scope, or a [catch (...)] block that rethrows) and the
    exception propagates. *)
Definition on_unwind {S A} (m : ST S A) (cleanup : ST S unit) : ST S A := λ s,
  match m s with
  | (Throw e, s') =>
      match cleanup s' with
      | (Ret _, s'') => (Throw e, s'')
      | (Throw e', s'') => (Undef, s'')
      | (Undef, s'') => (Undef, s'')
      end
  | r => r
  end.

(* ================================================================== *)
(** ** The element type and the platform *)

(** What the templates use of [T]: its constructors and assignments, each of
    which may throw, the state a move leaves in its source, the two type
    traits tested by [if constexpr], and [sizeof(T)].  A copy that returns
    yields an object equal to its source; a move that returns yields the
    source's value and leaves [moved_from] behind.  The default constructor
    takes no argument: what it does depends on the rest of the program, and
    [value_init i] is what it does for the [i]-th element of a bulk
    construction, so that it can throw at any element. *)
Class Element (T : Type) := {
  Args : Type;
  construct_from : Args → option T;
  value_init : nat → option T;
  copy_ctor_throws : T → bool;
  move_ctor_throws : T → bool;
  copy_assign_throws : T → bool;
  move_assign_throws : T → bool;
  moved_from : T → T;
  is_nothrow_move_constructible : bool;
  is_copy_constructible : bool;
  sizeof_T : nat;
  nothrow_move_constructible_sound :
    is_nothrow_move_constructible = true → ∀ x, move_ctor_throws x = false;
  sizeof_T_pos : 0 < sizeof_T
}.

(** [operator new] grants a request of at most [max_bytes] bytes and throws
    [std::bad_alloc] otherwise; no object is larger than [PTRDIFF_MAX]. *)
Class Allocator := {
  max_bytes : nat;
  max_bytes_ptrdiff : (N.of_nat max_bytes < 2 ^ 63)%N
}.

(** The ways the source constructs a new element from [Args&&... args]. *)
Inductive init (T : Type) `{Element T} :=
| CopyOf (x : T)        (* T(const T&), the argument outside this storage *)
| MoveOf (x : T)        (* T(T&&) *)
| FromArgs (a : Args).  (* T(args...) *)
Arguments CopyOf {T _} x.
Arguments MoveOf {T _} x.
Arguments FromArgs {T _} a.

Definition construct `{Element T} (i : init T) : option T :=
  match i with
  | CopyOf x => if copy_ctor_throws x then None else Some x
  | MoveOf x => if move_ctor_throws x then None else Some x
  | FromArgs a => construct_from a
  end.

(* ================================================================== *)
(** ** Raw memory *)

Abbreviation addr := positive.
Definition ptr : Type := option addr * nat.

Definition ptr_add (p : ptr) (k : nat) : ptr := (p.1, p.2 + k).
Infix "+ₚ" := ptr_add (at level 50, left associativity).

(** The free store: the allocated blocks by address. *)
Abbreviation heap T := (gmap addr (list (option T))).

Section Memory.
Context {T : Type} `{!Element T} `{!Allocator}.

(** [p - k]: leaving the block at its front is undefined. *)
Definition ptr_sub (p : ptr) (k : nat) : ST (heap T) ptr :=
  if k <=? p.2 then mret (p.1, p.2 - k) else undef.

(** [last - first] for two pointers into one array. *)
Definition ptr_diff (last first : ptr) : ST (heap T) nat :=
  if bool_decide (last.1 = first.1) && (first.2 <=? last.2)
  then mret (last.2 - first.2) else undef.

Definition slot (p : ptr) : ST (heap T) (option T) := λ h,
  match p.1 with
  | None => (Undef, h)
  | Some a =>
      match h !! a with
      | None => (Undef, h)
      | Some blk =>
          match blk !! p.2 with
          | None => (Undef, h)
          | Some s => (Ret s, h)
          end
      end
  end.

Definition set_slot (p : ptr) (s : option T) : ST (heap T) unit := λ h,
  match p.1 with
  | None => (Undef, h)
  | Some a =>
      match h !! a with
      | None => (Undef, h)
      | Some blk =>
          if p.2 <? length blk then (Ret (), <[a := <[p.2 := s]> blk]> h)
          else (Undef, h)
      end
  end.

(** Reading the object at [p]: it has to be alive. *)
Definition load (p : ptr) : ST (heap T) T :=
  s ← slot p; match s with Some x => mret x | None => undef end.

(** Overwriting the live object at [p] (the effect of an assignment). *)
Definition store (p : ptr) (x : T) : ST (heap T) unit :=
  _ ← load p; set_slot p (Some x).

(** [new (p) T(...)] once the constructor has produced [x]. *)
Definition emplace_at (p : ptr) (x : T) : ST (heap T) unit :=
  set_slot p (Some x).

(** [p->~T()]. *)
Definition destroy_at (p : ptr) : ST (heap T) unit :=
  _ ← load p; set_slot p None.

(** [new (p) T(args...)]. *)
Definition construct_at (p : ptr) (i : init T) : ST (heap T) unit :=
  match construct i with
  | Some x => emplace_at p x
  | None => throw element_exn
  end.

(** [new (p) T()] for the [i]-th element of a bulk construction. *)
Definition value_construct_at (p : ptr) (i : nat) : ST (heap T) unit :=
  match value_init i with
  | Some x => emplace_at p x
  | None => throw element_exn
  end.

(** Placement copy construction at [p] from the object at [q]. *)
Definition copy_construct_at (p q : ptr) : ST (heap T) unit :=
  x ← load q;
  if copy_ctor_throws x then throw element_exn else emplace_at p x.

(** Placement move construction at [p] from the object at [q]. *)
Definition move_construct_at (p q : ptr) : ST (heap T) unit :=
  x ← load q;
  if move_ctor_throws x then throw element_exn
  else _ ← emplace_at p x; store q (moved_from x).

(** Copy assignment of the object at [q] to the object at [p]. *)
Definition copy_assign (p q : ptr) : ST (heap T) unit :=
  x ← load q;
  if copy_assign_throws x then throw element_exn else store p x.

(** Move assignment of the object at [q] to the object at [p]. *)
Definition move_assign (p q : ptr) : ST (heap T) unit :=
  x ← load q;
  if move_assign_throws x then throw element_exn
  else _ ← store p x; store q (moved_from x).

(** *** <memory> and <algorithm> *)

Fixpoint destroy_n (p : ptr) (n : nat) : ST (heap T) unit :=
  match n with
  | 0 => mret ()
  | S k => _ ← destroy_at p; destroy_n (p +ₚ 1) k
  end.

(** The common loop of the [std::uninitialized_*_n] family: construct slot by
    slot; if a constructor throws, destroy what was built and rethrow. *)
Fixpoint uninitialized_loop (ctor : nat → ST (heap T) unit) (d_first : ptr)
    (i n : nat) : ST (heap T) unit :=
  match n with
  | 0 => mret ()
  | S k =>
      _ ← on_unwind (ctor i) (destroy_n d_first i);
      uninitialized_loop ctor d_first (S i) k
  end.

Definition uninitialized_value_construct_n (first : ptr) (n : nat) : ST (heap T) unit :=
  uninitialized_loop (λ i, value_construct_at (first +ₚ i) i) first 0 n.

Definition uninitialized_copy_n (first : ptr) (n : nat) (d_first : ptr) : ST (heap T) unit :=
  uninitialized_loop (λ i, copy_construct_at (d_first +ₚ i) (first +ₚ i)) d_first 0 n.

Definition uninitialized_move_n (first : ptr) (n : nat) (d_first : ptr) : ST (heap T) unit :=
  uninitialized_loop (λ i, move_construct_at (d_first +ₚ i) (first +ₚ i)) d_first 0 n.

Definition uninitialized_copy (first last d_first : ptr) : ST (heap T) unit :=
  n ← ptr_diff last first; uninitialized_copy_n first n d_first.

Fixpoint copy_loop (first d_first : ptr) (n : nat) : ST (heap T) unit :=
  match n with
  | 0 => mret ()
  | S k => _ ← copy_assign d_first first; copy_loop (first +ₚ 1) (d_first +ₚ 1) k
  end.

(** [std::copy(first, last, d_first)]. *)
Definition std_copy (first last d_first : ptr) : ST (heap T) unit :=
  n ← ptr_diff last first; copy_loop first d_first n.

Fixpoint move_loop (first d_first : ptr) (n : nat) : ST (heap T) unit :=
  match n with
  | 0 => mret ()
  | S k => _ ← move_assign d_first first; move_loop (first +ₚ 1) (d_first +ₚ 1) k
  end.

(** [std::move(first, last, d_first)]. *)
Definition std_move (first last d_first : ptr) : ST (heap T) unit :=
  n ← ptr_diff last first; move_loop first d_first n.

Fixpoint move_backward_loop (last d_last : ptr) (n : nat) : ST (heap T) unit :=
  match n with
  | 0 => mret ()
  | S k =>
      last' ← ptr_sub last 1;
      d_last' ← ptr_sub d_last 1;
      _ ← move_assign d_last' last';
      move_backward_loop last' d_last' k
  end.

(** [std::move_backward(first, last, d_last)]. *)
Definition move_backward (first last d_last : ptr) : ST (heap T) unit :=
  n ← ptr_diff last first; move_backward_loop last d_last n.

(** [std::uninitialized_move_n] over [const T*]: [std::move] of a [const T&]
    is a [const T&&], which selects the copy constructor. *)
Definition uninitialized_move_n_const (first : ptr) (n : nat) (d_first : ptr) : ST (heap T) unit :=
  uninitialized_loop (λ i, copy_construct_at (d_first +ₚ i) (first +ₚ i)) d_first 0 n.

(* ================================================================== *)
(** ** RawMemory<T> *)

Record RawMemory := { buffer_ : option addr; capacity_ : nat }.

(** [operator new(bytes)]: a fresh block with room for [bytes / sizeof(T)]
    elements, or [std::bad_alloc]. *)
Definition operator_new (bytes : nat) : ST (heap T) addr := λ h,
  if bytes <=? max_bytes then
    let a := fresh (dom h) in
    (Ret a, <[a := replicate (bytes / sizeof_T) None]> h)
  else (Throw bad_alloc, h).

(** [operator delete(buf)]: nothing for the null pointer; the block has to
    be allocated otherwise. *)
Definition operator_delete (buf : option addr) : ST (heap T) unit := λ h,
  match buf with
  | None => (Ret (), h)
  | Some a =>
      match h !! a with
      | Some _ => (Ret (), delete a h)
      | None => (Undef, h)
      end
  end.

Definition Allocate (n : nat) : ST (heap T) (option addr) :=
  if bool_decide (n ≠ 0) then a ← operator_new (size_mul n sizeof_T); mret (Some a)
  else mret None.

Definition Deallocate (buf : option addr) : ST (heap T) unit := operator_delete buf.

(** [RawMemory() = default]. *)
Definition RawMemory_default : RawMemory := {| buffer_ := None; capacity_ := 0 |}.

(** [RawMemory(RawMemory&& other)]: the new object and what is left of
    [other]. *)
Definition RawMemory_move_ctor (other : RawMemory) : RawMemory * RawMemory :=
  ({| buffer_ := buffer_ other; capacity_ := capacity_ other |},
   {| buffer_ := None; capacity_ := 0 |}).

(** [operator=(RawMemory&& rhs)] for [this != &rhs] (the two callers pass a
    distinct object): the new [*this] and what is left of [rhs].  The heap is
    not an argument: the body calls neither [Deallocate] nor a destructor. *)
Definition RawMemory_move_assign (this rhs : RawMemory) : RawMemory * RawMemory :=
  ({| buffer_ := buffer_ rhs; capacity_ := capacity_ rhs |},
   {| buffer_ := None; capacity_ := 0 |}).

(** [explicit RawMemory(size_t capacity)]. *)
Definition RawMemory_ctor (capacity : nat) : ST (heap T) RawMemory :=
  buf ← Allocate capacity; mret {| buffer_ := buf; capacity_ := capacity |}.

(** [~RawMemory()]. *)
Definition RawMemory_dtor (this : RawMemory) : ST (heap T) unit :=
  Deallocate (buffer_ this).

(** [operator+(size_t offset)]. *)
Definition RawMemory_plus (this : RawMemory) (offset : nat) : ST (heap T) ptr :=
  _ ← assert (offset <=? capacity_ this); mret (buffer_ this, offset).

(** [operator[](size_t index)]: the reference is the slot's address. *)
Definition RawMemory_index (this : RawMemory) (index : nat) : ST (heap T) ptr :=
  _ ← assert (index <? capacity_ this); mret (buffer_ this, index).

Definition RawMemory_Swap (this other : RawMemory) : RawMemory * RawMemory :=
  ({| buffer_ := buffer_ other; capacity_ := capacity_ other |},
   {| buffer_ := buffer_ this; capacity_ := capacity_ this |}).

Definition GetAddress (this : RawMemory) : ptr := (buffer_ this, 0).
Definition Capacity (this : RawMemory) : nat := capacity_ this.

(* ================================================================== *)
(** ** Vector<T> *)

Record Vector := { size_ : nat; data_ : RawMemory }.

Definition var := nat.

Record world := { mem : heap T; objs : gmap var Vector }.

Definition lift {A} (m : ST (heap T) A) : ST world A := λ w,
  let (r, h) := m (mem w) in (r, {| mem := h; objs := objs w |}).

(** The object named [x]; using a name that holds no object is undefined. *)
Definition get_vec (x : var) : ST world Vector := λ w,
  match objs w !! x with
  | Some v => (Ret v, w)
  | None => (Undef, w)
  end.

Definition put_vec (x : var) (v : Vector) : ST world unit := λ w,
  (Ret (), {| mem := mem w; objs := <[x := v]> (objs w) |}).

(** A constructor finished: the new object gets the name [x], which has to
    be free. *)
Definition new_vec (x : var) (v : Vector) : ST world unit := λ w,
  match objs w !! x with
  | Some _ => (Undef, w)
  | None => (Ret (), {| mem := mem w; objs := <[x := v]> (objs w) |})
  end.

Definition del_vec (x : var) : ST world unit := λ w,
  (Ret (), {| mem := mem w; objs := delete x (objs w) |}).

(** The condition of every [if constexpr] of the source. *)
Definition use_move : bool :=
  is_nothrow_move_constructible || negb is_copy_constructible.

Definition begin_ (v : Vector) : ptr := GetAddress (data_ v).
Definition end_ (v : Vector) : ST (heap T) ptr := RawMemory_plus (data_ v) (size_ v).
Definition cbegin (v : Vector) : ptr := GetAddress (data_ v).
Definition cend (v : Vector) : ST (heap T) ptr := RawMemory_plus (data_ v) (size_ v).

Definition Size (v : Vector) : nat := size_ v.
Definition Vector_Capacity (v : Vector) : nat := Capacity (data_ v).

(** [Vector() = default]. *)
Definition Vector_default : Vector := {| size_ := 0; data_ := RawMemory_default |}.

(** [explicit Vector(size_t size)]. *)
Definition Vector_sized (size : nat) : ST (heap T) Vector :=
  data ← RawMemory_ctor size;
  _ ← on_unwind (uninitialized_value_construct_n (GetAddress data) size)
                (RawMemory_dtor data);
  mret {| size_ := size; data_ := data |}.

(** [Vector(const Vector& other)]. *)
Definition Vector_copy_ctor (other : Vector) : ST (heap T) Vector :=
  data ← RawMemory_ctor (Size other);
  let size := size_ other in
  _ ← on_unwind
        (if use_move
         then uninitialized_move_n_const (GetAddress (data_ other)) size (GetAddress data)
         else uninitialized_copy_n (GetAddress (data_ other)) size (GetAddress data))
        (RawMemory_dtor data);
  mret {| size_ := size; data_ := data |}.

(** The body of [~Vector()]. *)
Definition Vector_dtor_body (v : Vector) : ST (heap T) unit :=
  destroy_n (GetAddress (data_ v)) (size_ v).

(** The destruction of a vector: the body of [~Vector()], followed by the
    destructor of the member [data_]. *)
Definition Vector_dtor (v : Vector) : ST (heap T) unit :=
  _ ← Vector_dtor_body v;
  RawMemory_dtor (data_ v).

(** [Swap(Vector& other)] on the two objects' values. *)
Definition swap_vectors (this other : Vector) : Vector * Vector :=
  let '(d, od) := RawMemory_Swap (data_ this) (data_ other) in
  ({| size_ := size_ other; data_ := d |}, {| size_ := size_ this; data_ := od |}).

(** *** Methods

    A method runs on the object named [this]; a reference parameter is the
    name of the object it refers to. *)

(** [Vector(size_t size)] for a new object [this]. *)
Definition Vector_new_sized (this : var) (size : nat) : ST world unit :=
  v ← lift (Vector_sized size); new_vec this v.

(** [Vector(const Vector& other)] for a new object [this]. *)
Definition Vector_new_copy (this other : var) : ST world unit :=
  o ← get_vec other;
  v ← lift (Vector_copy_ctor o);
  new_vec this v.

(** [Vector(Vector&& other)] for a new object [this]. *)
Definition Vector_new_move (this other : var) : ST world unit :=
  o ← get_vec other;
  let '(data, odata) := RawMemory_move_assign RawMemory_default (data_ o) in
  _ ← new_vec this {| size_ := size_ o; data_ := data |};
  put_vec other {| size_ := 0; data_ := odata |}.

(** The destructor of the object [this], whose lifetime ends. *)
Definition Vector_delete (this : var) : ST world unit :=
  v ← get_vec this;
  _ ← lift (Vector_dtor v);
  del_vec this.

(** [Swap(Vector& other)]. *)
Definition Swap (this other : var) : ST world unit :=
  v ← get_vec this;
  o ← get_vec other;
  let '(v', o') := swap_vectors v o in
  _ ← put_vec this v';
  put_vec other o'.

(** [Reserve(size_t new_capacity)]. *)
Definition Reserve (this : var) (new_capacity : nat) : ST world unit :=
  v ← get_vec this;
  if new_capacity <=? Capacity (data_ v) then mret ()
  else
    new_data ← lift (RawMemory_ctor new_capacity);
    _ ← on_unwind
          (lift (if use_move
                 then uninitialized_move_n (GetAddress (data_ v)) (size_ v) (GetAddress new_data)
                 else uninitialized_copy_n (GetAddress (data_ v)) (size_ v) (GetAddress new_data)))
          (lift (RawMemory_dtor new_data));
    _ ← lift (destroy_n (GetAddress (data_ v)) (size_ v));
    let '(data, new_data') := RawMemory_Swap (data_ v) new_data in
    _ ← put_vec this {| size_ := size_ v; data_ := data |};
    lift (RawMemory_dtor new_data').

(** [operator=(const Vector& rhs)]. *)
Definition Vector_copy_assign (this rhs : var) : ST world unit :=
  v ← get_vec this;
  r ← get_vec rhs;
  _ ← (if bool_decide (this ≠ rhs) then
         if Capacity (data_ v) <? size_ r then
           rhs_copy ← lift (Vector_copy_ctor r);
           let '(v', rhs_copy') := swap_vectors v rhs_copy in
           _ ← put_vec this v';
           lift (Vector_dtor rhs_copy')
         else
           let min_of_copy := min (size_ v) (size_ r) in
           _ ← lift (std_copy (GetAddress (data_ r))
                              (GetAddress (data_ r) +ₚ min_of_copy)
                              (GetAddress (data_ v)));
           if size_ r <? size_ v then
             lift (destroy_n (GetAddress (data_ v) +ₚ size_ r)
                             (size_sub (size_ v) (size_ r)))
           else
             first ← lift (RawMemory_plus (data_ r) (size_ v));
             last ← lift (RawMemory_plus (data_ r) (size_ r));
             d_first ← lift (RawMemory_plus (data_ v) (size_ v));
             lift (uninitialized_copy first last d_first)
       else mret ());
  v ← get_vec this;
  r ← get_vec rhs;
  put_vec this {| size_ := size_ r; data_ := data_ v |}.

(** [operator=(Vector&& rhs)]. *)
Definition Vector_move_assign (this rhs : var) : ST world unit :=
  v ← get_vec this;
  r ← get_vec rhs;
  if bool_decide (this ≠ rhs) then
    let '(data, rdata) := RawMemory_move_assign (data_ v) (data_ r) in
    _ ← put_vec this {| size_ := size_ r; data_ := data |};
    put_vec rhs {| size_ := 0; data_ := rdata |}
  else mret ().

(** [Resize(size_t new_size)]. *)
Definition Resize (this : var) (new_size : nat) : ST world unit :=
  v ← get_vec this;
  if bool_decide (new_size ≠ size_ v) then
    if new_size <? size_ v then
      _ ← lift (destroy_n (GetAddress (data_ v) +ₚ new_size)
                          (size_sub (size_ v) new_size));
      put_vec this {| size_ := new_size; data_ := data_ v |}
    else if size_ v <? new_size then
      _ ← (if Capacity (data_ v) <? new_size then Reserve this new_size else mret ());
      v ← get_vec this;
      _ ← lift (uninitialized_value_construct_n (GetAddress (data_ v) +ₚ size_ v)
                                                (size_sub new_size (size_ v)));
      put_vec this {| size_ := new_size; data_ := data_ v |}
    else mret ()
  else mret ().

(** [PopBack()]. *)
Definition PopBack (this : var) : ST world unit :=
  v ← get_vec this;
  p ← lift (ptr_sub (GetAddress (data_ v) +ₚ size_ v) 1);
  _ ← lift (destroy_n p 1);
  put_vec this {| size_ := size_sub (size_ v) 1; data_ := data_ v |}.

(** [EmplaceBack(Args&&... args)]; the reference returned is the address of
    the new element. *)
Definition EmplaceBack (this : var) (args : init T) : ST world ptr :=
  v ← get_vec this;
  _ ← (if size_ v <? Capacity (data_ v) then
         p ← lift (RawMemory_plus (data_ v) (size_ v));
         lift (construct_at p args)
       else
         let new_capacity :=
           if size_ v =? 0 then 1 else size_mul (Capacity (data_ v)) 2 in
         new_data ← lift (RawMemory_ctor new_capacity);
         _ ← on_unwind
               (p ← lift (RawMemory_plus new_data (size_ v));
                _ ← lift (construct_at p args);
                lift (if use_move
                      then uninitialized_move_n (GetAddress (data_ v)) (size_ v) (GetAddress new_data)
                      else uninitialized_copy_n (GetAddress (data_ v)) (size_ v) (GetAddress new_data)))
               (lift (RawMemory_dtor new_data));
         let '(data, new_data') := RawMemory_Swap (data_ v) new_data in
         _ ← put_vec this {| size_ := size_ v; data_ := data |};
         _ ← lift (destroy_n (GetAddress new_data') (size_ v));
         lift (RawMemory_dtor new_data'));
  v ← get_vec this;
  _ ← put_vec this {| size_ := size_add (size_ v) 1; data_ := data_ v |};
  v ← get_vec this;
  lift (RawMemory_index (data_ v) (size_sub (size_ v) 1)).

(** [PushBack(const T& value)] and [PushBack(T&& value)]. *)
Definition PushBack (this : var) (value : T) : ST world unit :=
  _ ← EmplaceBack this (CopyOf value); mret ().

Definition PushBack_move (this : var) (value : T) : ST world unit :=
  _ ← EmplaceBack this (MoveOf value); mret ().

(** [EmplaceWithoutRealloc(size_t dist, Args&&... args)]; the local
    [copy_obj] lives on the stack. *)
Definition EmplaceWithoutRealloc (this : var) (dist : nat) (args : init T) : ST world unit :=
  v ← get_vec this;
  match construct args with
  | None => throw element_exn
  | Some copy_obj =>
      e ← lift (end_ v);
      back ← lift (RawMemory_index (data_ v) (size_sub (size_ v) 1));
      _ ← lift (move_construct_at e back);
      last ← lift (ptr_sub e 1);
      _ ← lift (move_backward (begin_ v +ₚ dist) last e);
      p ← lift (RawMemory_index (data_ v) dist);
      if move_assign_throws copy_obj then throw element_exn
      else lift (store p copy_obj)
  end.

(** [EmplaceWithRealloc(size_t dist, Args&&... args)]. *)
Definition EmplaceWithRealloc (this : var) (dist : nat) (args : init T) : ST world unit :=
  v ← get_vec this;
  let size := if size_ v =? 0 then 1 else size_mul (size_ v) 2 in
  new_data ← lift (RawMemory_ctor size);
  _ ← on_unwind
        (p ← lift (RawMemory_plus new_data dist);
         _ ← lift (construct_at p args);
         _ ← lift (if use_move
                   then uninitialized_move_n (GetAddress (data_ v)) dist (GetAddress new_data)
                   else uninitialized_copy_n (GetAddress (data_ v)) dist (GetAddress new_data));
         lift (if use_move
               then uninitialized_move_n (GetAddress (data_ v) +ₚ dist)
                      (size_sub (size_ v) dist) (GetAddress new_data +ₚ dist +ₚ 1)
               else uninitialized_copy_n (GetAddress (data_ v) +ₚ dist)
                      (size_sub (size_ v) dist) (GetAddress new_data +ₚ dist +ₚ 1)))
        (lift (RawMemory_dtor new_data));
  let '(data, new_data') := RawMemory_Swap (data_ v) new_data in
  _ ← put_vec this {| size_ := size_ v; data_ := data |};
  _ ← lift (destroy_n (GetAddress new_data') (size_ v));
  lift (RawMemory_dtor new_data').

(** [Emplace(const_iterator pos, Args&&... args)]. *)
Definition Emplace (this : var) (pos : ptr) (args : init T) : ST world ptr :=
  v ← get_vec this;
  e ← lift (end_ v);
  if bool_decide (pos = e) then EmplaceBack this args
  else
    dist ← lift (ptr_diff pos (cbegin v));
    _ ← (if size_ v <? Capacity (data_ v)
         then EmplaceWithoutRealloc this dist args
         else EmplaceWithRealloc this dist args);
    v ← get_vec this;
    _ ← put_vec this {| size_ := size_add (size_ v) 1; data_ := data_ v |};
    v ← get_vec this;
    mret (begin_ v +ₚ dist).

(** [Erase(const_iterator pos)]. *)
Definition Erase (this : var) (pos : ptr) : ST world ptr :=
  v ← get_vec this;
  dist ← lift (ptr_diff pos (cbegin v));
  e ← lift (end_ v);
  _ ← lift (std_move (begin_ v +ₚ dist +ₚ 1) e (begin_ v +ₚ dist));
  back ← lift (RawMemory_index (data_ v) (size_sub (size_ v) 1));
  _ ← lift (destroy_at back);
  _ ← put_vec this {| size_ := size_sub (size_ v) 1; data_ := data_ v |};
  v ← get_vec this;
  mret (begin_ v +ₚ dist).

(** [Insert(const_iterator pos, const T& value)] and
    [Insert(const_iterator pos, T&& value)]. *)
Definition Insert (this : var) (pos : ptr) (value : T) : ST world ptr :=
  Emplace this pos (CopyOf value).

Definition Insert_move (this : var) (pos : ptr) (value : T) : ST world ptr :=
  Emplace this pos (MoveOf value).

(** [operator[](size_t index)]. *)
Definition Vector_index (v : Vector) (index : nat) : ST (heap T) ptr :=
  _ ← assert (index <? size_ v); RawMemory_index (data_ v) index.

(** [static void Destroy(T* buf)]. *)
Definition Destroy (buf : ptr) : ST (heap T) unit := destroy_at buf.

(** [static void DestroyN(T* buf, size_t n)]: the loop at [i], with [k]
    rounds to go until [i == n]. *)
Fixpoint DestroyN_from (buf : ptr) (i k : nat) : ST (heap T) unit :=
  match k with
  | 0 => mret ()
  | S k' => _ ← Destroy (buf +ₚ i); DestroyN_from buf (S i) k'
  end.

Definition DestroyN (buf : ptr) (n : nat) : ST (heap T) unit := DestroyN_from buf 0 n.

(** [static void CopyConstruct(T* buf, const T& elem)]. *)
Definition CopyConstruct (buf : ptr) (elem : T) : ST (heap T) unit :=
  construct_at buf (CopyOf elem).

End Memory.

Arguments world T : clear implicits.

(* ================================================================== *)
(** * What is stated about the code *)

(** [wp m s Q E]: if [m] returns [a] from [s] in state [s'] then [Q a s'];
    if it throws [e] in state [s'] then [E e s'].  Nothing is asked of a
    call that goes wrong. *)
Definition wp {S A} (m : ST S A) (s : S) (Q : A → S → Prop) (E : exn → S → Prop) : Prop :=
  match m s with
  | (Ret a, s') => Q a s'
  | (Throw e, s') => E e s'
  | (Undef, _) => True
  end.

(** The call has undefined behaviour: the source says nothing of what
    happens then, and no state after it is spoken of. *)
Definition goes_wrong {S A} (m : ST S A) (s : S) : Prop := (m s).1 = Undef.

(** [m] returns or goes wrong, but does not throw. *)
Definition never_throws {S A} (m : ST S A) : Prop :=
  ∀ s, wp m s (λ _ _, True) (λ _ _, False).

Section Vocabulary.
Context {T : Type} `{!Element T} `{!Allocator}.

(** [v] owns a block of [capacity] slots whose first [size] slots hold the
    live elements [l], the rest being raw memory; the null pointer goes with
    capacity zero. *)
Definition represents (h : heap T) (v : Vector) (l : list T) : Prop :=
  size_ v = length l ∧
  length l ≤ capacity_ (data_ v) ∧
  capacity_ (data_ v) * sizeof_T ≤ max_bytes ∧
  match buffer_ (data_ v) with
  | None => capacity_ (data_ v) = 0
  | Some a =>
      0 < capacity_ (data_ v) ∧
      h !! a = Some ((Some <$> l) ++ replicate (capacity_ (data_ v) - length l) None)
  end.

(** Relocating the elements [xs] into a new block does not throw. *)
Definition transfer_ok (xs : list T) : Prop :=
  Forall (λ x, (if use_move then move_ctor_throws x else copy_ctor_throws x) = false) xs.

(** Shifting the elements [xs] by move assignment does not throw. *)
Definition shift_ok (xs : list T) : Prop :=
  Forall (λ x, move_assign_throws x = false) xs.

(** No copy, move or move assignment of [y] throws. *)
Definition nothrow (y : T) : Prop :=
  copy_ctor_throws y = false ∧ move_ctor_throws y = false ∧
  move_assign_throws y = false.

(** The capacity [EmplaceBack] grows a full block of [capacity] slots to. *)
Definition grown (capacity : nat) : nat := Nat.max 1 (capacity * 2).

(** The capacity after [n] more appends to a vector of [size] elements and
    [capacity] slots, by the rule of [EmplaceBack]. *)
Fixpoint capacity_from (size capacity n : nat) : nat :=
  match n with
  | 0 => capacity
  | S k => capacity_from (S size)
             (if size <? capacity then capacity else grown capacity) k
  end.

(** The capacity after [n] appends to an empty vector. *)
Definition capacity_after (n : nat) : nat := capacity_from 0 0 n.

(** [n] appends in a row, each with its own constructor arguments. *)
Fixpoint append_all (this : var) (argss : list (init T)) : ST (world T) unit :=
  match argss with
  | [] => mret ()
  | args :: rest => _ ← EmplaceBack this args; append_all this rest
  end.

(** One append to a vector: either overload of [PushBack], or
    [EmplaceBack]. *)
Inductive append :=
| ByPushBack (value : T)          (* PushBack(const T& value) *)
| ByPushBackMove (value : T)      (* PushBack(T&& value) *)
| ByEmplaceBack (args : init T).  (* EmplaceBack(args...) *)

Definition run_append (this : var) (a : append) : ST (world T) unit :=
  match a with
  | ByPushBack value => PushBack this value
  | ByPushBackMove value => PushBack_move this value
  | ByEmplaceBack args => _ ← EmplaceBack this args; mret ()
  end.

(** What the new element of an append is constructed from: a copy of the
    argument, a move of it, or the arguments themselves. *)
Definition append_args (a : append) : init T :=
  match a with
  | ByPushBack value => CopyOf value
  | ByPushBackMove value => MoveOf value
  | ByEmplaceBack args => args
  end.

(** Appends in a row, by any of the three functions. *)
Fixpoint appends (this : var) (apps : list append) : ST (world T) unit :=
  match apps with
  | [] => mret ()
  | a :: rest => _ ← run_append this a; appends this rest
  end.

(** One insertion at a position: either overload of [Insert], or
    [Emplace]. *)
Inductive insertion :=
| ByInsert (value : T)        (* Insert(pos, const T& value) *)
| ByInsertMove (value : T)    (* Insert(pos, T&& value) *)
| ByEmplace (args : init T).  (* Emplace(pos, args...) *)

Definition run_insertion (this : var) (pos : ptr) (ins : insertion) : ST (world T) ptr :=
  match ins with
  | ByInsert value => Insert this pos value
  | ByInsertMove value => Insert_move this pos value
  | ByEmplace args => Emplace this pos args
  end.

Definition insertion_args (ins : insertion) : init T :=
  match ins with
  | ByInsert value => CopyOf value
  | ByInsertMove value => MoveOf value
  | ByEmplace args => args
  end.

(** [m] relates the heap it ends in to the heap it started from, whether it
    returns or throws. *)
Definition keeps {A} (R : heap T → heap T → Prop) (m : ST (heap T) A) : Prop :=
  ∀ h, wp m h (λ _ h', R h h') (λ _ h', R h h').

(** The pointers through which [R] allows a write. *)
Definition writable (R : heap T → heap T → Prop) (p : ptr) : Prop :=
  ∀ s, keeps R (set_slot p s).

(** Writing a slot never changes the length of a block. *)
Definition same_shape (h h' : heap T) : Prop :=
  ∀ c, length <$> (h' !! c) = length <$> (h !! c).

(** Only the block at [b] may differ. *)
Definition only_at (b : option addr) (h h' : heap T) : Prop :=
  ∀ c, Some c ≠ b → h' !! c = h !! c.

(** The [n] slots from [p] on lie inside an allocated block. *)
Definition in_block (h : heap T) (p : ptr) (n : nat) : Prop :=
  ∃ b blk, p.1 = Some b ∧ h !! b = Some blk ∧ p.2 + n ≤ length blk.

(** The heap without the block of [v]: the memory the vector does not own. *)
Definition others (h : heap T) (v : Vector) : heap T :=
  match buffer_ (data_ v) with
  | Some a => delete a h
  | None => h
  end.

End Vocabulary.

Arguments append T {_}.
Arguments insertion T {_}.

(* ================================================================== *)
(** ** Programs over vectors: every public call, in any order *)

Section Calls.
Context {T : Type} `{!Element T} `{!Allocator}.

(** The public operations of [Vector<T>] that can change a vector; the
    accessors ([Size], [Capacity], [operator[]], [begin], [end]) change
    nothing. *)
Inductive call :=
| NewDefault (this : var)
| NewSized (this : var) (size : nat)
| NewCopy (this other : var)
| NewMove (this other : var)
| Delete (this : var)
| CopyAssign (this rhs : var)
| MoveAssign (this rhs : var)
| CallSwap (this other : var)
| CallReserve (this : var) (new_capacity : nat)
| CallResize (this : var) (new_size : nat)
| CallPushBack (this : var) (value : T)
| CallPushBackMove (this : var) (value : T)
| CallPopBack (this : var)
| CallEmplaceBack (this : var) (args : init T)
| CallEmplace (this : var) (pos : ptr) (args : init T)
| CallInsert (this : var) (pos : ptr) (value : T)
| CallInsertMove (this : var) (pos : ptr) (value : T)
| CallErase (this : var) (pos : ptr)
| CallEmplaceWithoutRealloc (this : var) (dist : nat) (args : init T)
| CallEmplaceWithRealloc (this : var) (dist : nat) (args : init T).

Definition run_call (c : call) : ST (world T) unit :=
  match c with
  | NewDefault this => new_vec this Vector_default
  | NewSized this size => Vector_new_sized this size
  | NewCopy this other => Vector_new_copy this other
  | NewMove this other => Vector_new_move this other
  | Delete this => Vector_delete this
  | CopyAssign this rhs => Vector_copy_assign this rhs
  | MoveAssign this rhs => Vector_move_assign this rhs
  | CallSwap this other => Swap this other
  | CallReserve this new_capacity => Reserve this new_capacity
  | CallResize this new_size => Resize this new_size
  | CallPushBack this value => PushBack this value
  | CallPushBackMove this value => PushBack_move this value
  | CallPopBack this => PopBack this
  | CallEmplaceBack this args => _ ← EmplaceBack this args; mret ()
  | CallEmplace this pos args => _ ← Emplace this pos args; mret ()
  | CallInsert this pos value => _ ← Insert this pos value; mret ()
  | CallInsertMove this pos value => _ ← Insert_move this pos value; mret ()
  | CallErase this pos => _ ← Erase this pos; mret ()
  | CallEmplaceWithoutRealloc this dist args => EmplaceWithoutRealloc this dist args
  | CallEmplaceWithRealloc this dist args => EmplaceWithRealloc this dist args
  end.

(** The [size_t] arguments of a call are [size_t] values. *)
Definition well_typed (c : call) : Prop :=
  match c with
  | NewSized _ n | CallReserve _ n | CallResize _ n => is_size_t n
  | _ => True
  end.

(** The states a program can be in: it starts with no object and an empty
    heap, and goes on after each call that returned or threw. *)
Inductive reachable : world T → Prop :=
| reachable_start : reachable {| mem := ∅; objs := ∅ |}
| reachable_return w c w' :
    reachable w → well_typed c → run_call c w = (Ret (), w') → reachable w'
| reachable_catch w c e w' :
    reachable w → well_typed c → run_call c w = (Throw e, w') → reachable w'.

(** The invariant of a vector's two fields. *)
Definition fields_ok (v : Vector) : Prop :=
  size_ v ≤ capacity_ (data_ v) ∧ is_size_t (capacity_ (data_ v)).

Definition all_ok (o : gmap var Vector) : Prop :=
  ∀ x v, o !! x = Some v → fields_ok v.

End Calls.

Arguments call T {_}.

Section FieldInvariant.
Context {T : Type} `{!Element T} `{!Allocator}.

(** Every vector of the state satisfies the field invariant, after a return
    as after a throw. *)
Definition preserves_fields {A} (m : ST (world T) A) : Prop :=
  ∀ w, all_ok (objs w) →
       wp m w (λ _ w', all_ok (objs w')) (λ _ w', all_ok (objs w')).

End FieldInvariant.

(* ================================================================== *)
(** ** Element types and states to run the code on *)

(** [Vector<int>]: nothing throws, a move leaves the source as it is. *)
Definition int_element : Element nat := {|
  Args := nat;
  construct_from := Some;
  value_init := λ _, Some 0;
  copy_ctor_throws := λ _, false;
  move_ctor_throws := λ _, false;
  copy_assign_throws := λ _, false;
  move_assign_throws := λ _, false;
  moved_from := λ x, x;
  is_nothrow_move_constructible := true;
  is_copy_constructible := true;
  sizeof_T := 4;
  nothrow_move_constructible_sound := λ _ _, eq_refl;
  sizeof_T_pos := Nat.lt_0_succ 3
|}.

(** A copyable type whose copy constructor throws on the value 13 and whose
    move constructor is not [noexcept]: relocation copies. *)
Definition throwing_copy_element : Element nat := {|
  Args := nat;
  construct_from := Some;
  value_init := λ _, Some 0;
  copy_ctor_throws := λ x, x =? 13;
  move_ctor_throws := λ _, false;
  copy_assign_throws := λ _, false;
  move_assign_throws := λ _, false;
  moved_from := λ _, 0;
  is_nothrow_move_constructible := false;
  is_copy_constructible := true;
  sizeof_T := 4;
  nothrow_move_constructible_sound := λ H, False_ind _ (Bool.diff_false_true H);
  sizeof_T_pos := Nat.lt_0_succ 3
|}.

(** A move-only type whose move constructor throws on the value 13:
    relocation moves, and a move leaves 0 behind. *)
Definition throwing_move_only_element : Element nat := {|
  Args := nat;
  construct_from := Some;
  value_init := λ _, Some 0;
  copy_ctor_throws := λ _, false;
  move_ctor_throws := λ x, x =? 13;
  copy_assign_throws := λ _, false;
  move_assign_throws := λ _, false;
  moved_from := λ _, 0;
  is_nothrow_move_constructible := false;
  is_copy_constructible := false;
  sizeof_T := 4;
  nothrow_move_constructible_sound := λ H, False_ind _ (Bool.diff_false_true H);
  sizeof_T_pos := Nat.lt_0_succ 3
|}.

(** A heap that grants requests of up to 4096 bytes. *)
Definition small_heap : Allocator := {|
  max_bytes := 4096;
  max_bytes_ptrdiff := eq_refl
|}.

(** A vector object over the block at [a]. *)
Definition vec (size : nat) (a : addr) (capacity : nat) : Vector :=
  {| size_ := size; data_ := {| buffer_ := Some a; capacity_ := capacity |} |}.

(** The object 0 holds [1; 2] in a block of two slots. *)
Definition full_1_2 : world nat :=
  {| mem := {[ 1%positive := [Some 1; Some 2] ]};
     objs := {[ 0 := vec 2 1%positive 2 ]} |}.

(** The object 0 holds [7; 13] in a block of two slots. *)
Definition full_7_13 : world nat :=
  {| mem := {[ 1%positive := [Some 7; Some 13] ]};
     objs := {[ 0 := vec 2 1%positive 2 ]} |}.

(** The object 0 holds [1; 2; 4; 5] in a block of eight slots. *)
Definition roomy_1_2_4_5 : world nat :=
  {| mem := {[ 1%positive := [Some 1; Some 2; Some 4; Some 5; None; None; None; None] ]};
     objs := {[ 0 := vec 4 1%positive 8 ]} |}.

(** The object 0 holds [1; 2], the object 1 holds [3]. *)
Definition two_vectors : world nat :=
  {| mem := {[ 1%positive := [Some 1; Some 2]; 2%positive := [Some 3] ]};
     objs := {[ 0 := vec 2 1%positive 2; 1 := vec 1 2%positive 1 ]} |}.

(** [two_vectors] after [objs 0 = std::move(objs 1)]: the heap is the same. *)
Definition after_move_assign : world nat :=
  {| mem := {[ 1%positive := [Some 1; Some 2]; 2%positive := [Some 3] ]};
     objs := {[ 0 := vec 1 2%positive 1; 1 := Vector_default ]} |}.

(** [full_7_13] with the first element moved from. *)
Definition moved_out_7_13 : world nat :=
  {| mem := {[ 1%positive := [Some 0; Some 13] ]};
     objs := {[ 0 := vec 2 1%positive 2 ]} |}.

(** The object 0 after [PushBack(1); PushBack(2); PushBack(3)] on a
    default-constructed vector. *)
Definition pushed_1_2_3 : world nat :=
  {| mem := {[ 3%positive := [Some 1; Some 2; Some 3; None] ]};
     objs := {[ 0 := vec 3 3%positive 4 ]} |}.

(** No object yet but the default-constructed vector 0. *)
Definition fresh_vector : world nat :=
  {| mem := ∅; objs := {[ 0 := Vector_default ]} |}.

(** A type whose default constructor returns twice and then throws. *)
Definition throwing_default_element : Element nat := {|
  Args := nat;
  construct_from := Some;
  value_init := λ i, if i <? 2 then Some 0 else None;
  copy_ctor_throws := λ _, false;
  move_ctor_throws := λ _, false;
  copy_assign_throws := λ _, false;
  move_assign_throws := λ _, false;
  moved_from := λ x, x;
  is_nothrow_move_constructible := true;
  is_copy_constructible := true;
  sizeof_T := 4;
  nothrow_move_constructible_sound := λ _ _, eq_refl;
  sizeof_T_pos := Nat.lt_0_succ 3
|}.

(** The object 0 is empty, the object 1 holds [7; 13]. *)
Definition empty_and_7_13 : world nat :=
  {| mem := {[ 1%positive := [Some 7; Some 13] ]};
     objs := {[ 0 := Vector_default; 1 := vec 2 1%positive 2 ]} |}.

(** A count of elements whose size in bytes, for a type of four bytes, is
    [2^64]. *)
Definition too_many : nat := N.to_nat (2 ^ 62).

(* ================================================================== *)
(** * Properties *)

(** ** size_t arithmetic *)

Lemma wrap_id n : is_size_t n → wrap n = n.
Proof.
  unfold is_size_t, wrap. intros Hn.
  rewrite N.mod_small by done. apply Nat2N.id.
Qed.

Lemma wrap_le n : wrap n ≤ n.
Proof.
  unfold wrap.
  assert (N.of_nat n mod 2 ^ 64 ≤ N.of_nat n)%N by (apply N.Div0.mod_le).
  lia.
Qed.

Lemma wrap_size_t n : is_size_t (wrap n).
Proof.
  unfold is_size_t, wrap. rewrite N2Nat.id. by apply N.mod_lt.
Qed.

Lemma is_size_t_le n m : n ≤ m → is_size_t m → is_size_t n.
Proof. unfold is_size_t. lia. Qed.

Lemma size_sub_le a b : b ≤ a → is_size_t a → size_sub a b = a - b.
Proof.
  unfold is_size_t, size_sub. intros Hle Ha.
  rewrite (N.mod_small (N.of_nat b)) by lia.
  replace (N.of_nat a + 2 ^ 64 - N.of_nat b)%N
    with (N.of_nat (a - b) + 1 * 2 ^ 64)%N by lia.
  rewrite N.Div0.mod_add, N.mod_small by lia. apply Nat2N.id.
Qed.

Lemma size_add_id a b : is_size_t (a + b) → size_add a b = a + b.
Proof. apply wrap_id. Qed.

Lemma size_mul_id a b : is_size_t (a * b) → size_mul a b = a * b.
Proof. apply wrap_id. Qed.

(** ** Running the monad *)

Section Run.
Context {S : Type}.

Lemma bind_run {A B} (m : ST S A) (f : A → ST S B) s a s' :
  m s = (Ret a, s') → (m ≫= f) s = f a s'.
Proof. unfold mbind, ST_bind. by intros ->. Qed.

Lemma bind_throw {A B} (m : ST S A) (f : A → ST S B) s e s' :
  m s = (Throw e, s') → (m ≫= f) s = (Throw e, s').
Proof. unfold mbind, ST_bind. by intros ->. Qed.

Lemma bind_assoc {A B C} (m : ST S A) (f : A → ST S B) (g : B → ST S C) s :
  ((m ≫= f) ≫= g) s = (m ≫= (λ a, f a ≫= g)) s.
Proof. unfold mbind, ST_bind. by destruct (m s) as [[a|e|] s1]. Qed.

Lemma on_unwind_run {A} (m : ST S A) c s a s' :
  m s = (Ret a, s') → on_unwind m c s = (Ret a, s').
Proof. unfold on_unwind. by intros ->. Qed.

Lemma on_unwind_throw {A} (m : ST S A) c s e s' s'' :
  m s = (Throw e, s') → c s' = (Ret (), s'') → on_unwind m c s = (Throw e, s'').
Proof. unfold on_unwind. by intros -> ->. Qed.

End Run.

(** ** The heap primitives on an allocated block *)

Lemma insert_middle {A} (l1 l2 : list A) (x y : A) i :
  i = length l1 → <[i := y]> (l1 ++ x :: l2) = l1 ++ y :: l2.
Proof.
  intros ->. rewrite insert_app_r_alt by lia. by rewrite Nat.sub_diag.
Qed.

Lemma lookup_middle {A} (l1 l2 : list A) (x : A) i :
  i = length l1 → (l1 ++ x :: l2) !! i = Some x.
Proof. intros ->. apply list_lookup_middle. done. Qed.

Lemma length_middle {A} (l1 l2 : list A) (x : A) i :
  i = length l1 → i < length (l1 ++ x :: l2).
Proof. intros ->. rewrite length_app. simpl. lia. Qed.

Section Heap.
Context {T : Type} `{!Element T} `{!Allocator}.
Implicit Types (h : heap T) (blk : list (option T)) (a b : addr) (x y : T).

Lemma insert2_collapse h a b (A' B' A1 B1 : list (option T)) :
  a ≠ b →
  <[a := A']> (<[b := B']> (<[a := A1]> (<[b := B1]> h)))
  = <[a := A']> (<[b := B']> h).
Proof.
  intros Hab. apply map_eq. intros c.
  rewrite !lookup_insert. repeat case_decide; congruence.
Qed.

Lemma slot_run h a blk i s :
  h !! a = Some blk → blk !! i = Some s → slot (Some a, i) h = (Ret s, h).
Proof. unfold slot. simpl. by intros -> ->. Qed.

Lemma set_slot_run h a blk i s :
  h !! a = Some blk → i < length blk →
  set_slot (Some a, i) s h = (Ret (), <[a := <[i := s]> blk]> h).
Proof.
  unfold set_slot. simpl. intros -> Hi.
  by destruct (Nat.ltb_spec i (length blk)); [|lia].
Qed.

Lemma load_run h a blk i x :
  h !! a = Some blk → blk !! i = Some (Some x) → load (Some a, i) h = (Ret x, h).
Proof.
  intros Ha Hi. unfold load. by erewrite bind_run by (by eapply slot_run).
Qed.

Lemma emplace_at_run h a blk i x :
  h !! a = Some blk → i < length blk →
  emplace_at (Some a, i) x h = (Ret (), <[a := <[i := Some x]> blk]> h).
Proof. apply set_slot_run. Qed.

Lemma store_run h a blk i x y :
  h !! a = Some blk → blk !! i = Some (Some x) →
  store (Some a, i) y h = (Ret (), <[a := <[i := Some y]> blk]> h).
Proof.
  intros Ha Hi. unfold store. erewrite bind_run by (by eapply load_run).
  eapply set_slot_run; [done|]. by eapply lookup_lt_Some.
Qed.

Lemma destroy_at_run h a blk i x :
  h !! a = Some blk → blk !! i = Some (Some x) →
  destroy_at (Some a, i) h = (Ret (), <[a := <[i := None]> blk]> h).
Proof.
  intros Ha Hi. unfold destroy_at. erewrite bind_run by (by eapply load_run).
  eapply set_slot_run; [done|]. by eapply lookup_lt_Some.
Qed.

(** Construction in one block from an object of another block. *)
Lemma copy_construct_at_run h a b (A B : list (option T)) i j x :
  h !! a = Some A → A !! j = Some (Some x) →
  h !! b = Some B → i < length B →
  copy_ctor_throws x = false →
  copy_construct_at (Some b, i) (Some a, j) h
  = (Ret (), <[b := <[i := Some x]> B]> h).
Proof.
  intros Ha Hj Hb Hi Hx. unfold copy_construct_at.
  erewrite bind_run by (by eapply load_run). rewrite Hx.
  by eapply emplace_at_run.
Qed.

Lemma move_construct_at_run h a b (A B : list (option T)) i j x :
  a ≠ b →
  h !! a = Some A → A !! j = Some (Some x) →
  h !! b = Some B → i < length B →
  move_ctor_throws x = false →
  move_construct_at (Some b, i) (Some a, j) h
  = (Ret (), <[a := <[j := Some (moved_from x)]> A]> (<[b := <[i := Some x]> B]> h)).
Proof.
  intros Hab Ha Hj Hb Hi Hx. unfold move_construct_at.
  erewrite bind_run by (by eapply load_run). rewrite Hx.
  erewrite bind_run by (by eapply emplace_at_run).
  eapply store_run; [|done]. by rewrite lookup_insert_ne.
Qed.

(** Construction and assignment inside one block. *)
Lemma move_construct_at_same h a blk i j x :
  h !! a = Some blk → blk !! j = Some (Some x) → i < length blk → i ≠ j →
  move_ctor_throws x = false →
  move_construct_at (Some a, i) (Some a, j) h
  = (Ret (), <[a := <[j := Some (moved_from x)]> (<[i := Some x]> blk)]> h).
Proof.
  intros Ha Hj Hi Hij Hx. unfold move_construct_at.
  erewrite bind_run by (by eapply load_run). rewrite Hx.
  erewrite bind_run by (by eapply emplace_at_run).
  erewrite store_run; [|apply lookup_insert_eq|by rewrite list_lookup_insert_ne].
  by rewrite insert_insert_eq.
Qed.

Lemma move_assign_same h a blk i j x y :
  h !! a = Some blk → blk !! j = Some (Some x) → blk !! i = Some (Some y) →
  i ≠ j → move_assign_throws x = false →
  move_assign (Some a, i) (Some a, j) h
  = (Ret (), <[a := <[j := Some (moved_from x)]> (<[i := Some x]> blk)]> h).
Proof.
  intros Ha Hj Hi Hij Hx. unfold move_assign.
  erewrite bind_run by (by eapply load_run). rewrite Hx.
  erewrite bind_run by (by eapply store_run).
  erewrite store_run; [|apply lookup_insert_eq|by rewrite list_lookup_insert_ne].
  by rewrite insert_insert_eq.
Qed.

End Heap.

(** ** The library loops on allocated blocks *)

Section Loops.
Context {T : Type} `{!Element T} `{!Allocator}.
Implicit Types (h : heap T) (a b : addr) (x y z : T) (xs : list T).
Implicit Types (pre post us : list (option T)).

Lemma ptr_sub_run h (p : ptr) k :
  k ≤ p.2 → ptr_sub p k h = (Ret (p.1, p.2 - k), h).
Proof.
  intros Hk. unfold ptr_sub. by destruct (Nat.leb_spec k (p.2)); [|lia].
Qed.

Lemma ptr_diff_run h (last first : ptr) :
  last.1 = first.1 → first.2 ≤ last.2 →
  ptr_diff last first h = (Ret (last.2 - first.2), h).
Proof.
  intros Hb Hle. unfold ptr_diff. rewrite bool_decide_eq_true_2 by done.
  by destruct (Nat.leb_spec (first.2) (last.2)); [|lia].
Qed.

Lemma destroy_n_run xs : ∀ h a pre post i,
  h !! a = Some (pre ++ (Some <$> xs) ++ post) → i = length pre →
  destroy_n (Some a, i) (length xs) h
  = (Ret (), <[a := pre ++ replicate (length xs) None ++ post]> h).
Proof.
  induction xs as [|x xs IH]; intros h a pre post i Ha ->.
  - simpl in *. by rewrite insert_id.
  - cbn [length destroy_n].
    erewrite bind_run; last first.
    { eapply destroy_at_run; [done|]. by apply lookup_middle. }
    cbn [fmap list_fmap app]. rewrite insert_middle by done.
    unfold ptr_add; cbn [fst snd].
    erewrite (IH _ a (pre ++ [None]) post).
    + rewrite insert_insert_eq. by rewrite <- app_assoc.
    + rewrite lookup_insert_eq. by rewrite <- app_assoc.
    + rewrite length_app. simpl. done.
Qed.

Lemma destroy_n_live xs h a pre post i n :
  h !! a = Some (pre ++ (Some <$> xs) ++ post) → i = length pre → n = length xs →
  destroy_n (Some a, i) n h
  = (Ret (), <[a := pre ++ replicate n None ++ post]> h).
Proof. intros Ha -> ->. by apply destroy_n_run. Qed.

Lemma uninitialized_loop_step (ctor : nat → ST (heap T) unit) d i n h h1 :
  ctor i h = (Ret (), h1) →
  uninitialized_loop ctor d i (S n) h = uninitialized_loop ctor d (S i) n h1.
Proof.
  intros Hc. cbn [uninitialized_loop].
  by erewrite bind_run by (by apply on_unwind_run).
Qed.

Lemma uninitialized_move_loop_run xs : ∀ h a b pre post pre' us post' i0 j0 i,
  a ≠ b →
  h !! a = Some (pre ++ (Some <$> xs) ++ post) → length pre = i0 + i →
  h !! b = Some (pre' ++ us ++ post') → length pre' = j0 + i →
  length us = length xs →
  Forall (λ x, move_ctor_throws x = false) xs →
  uninitialized_loop
    (λ k, move_construct_at ((Some b, j0) +ₚ k) ((Some a, i0) +ₚ k))
    (Some b, j0) i (length xs) h
  = (Ret (), <[a := pre ++ (Some ∘ moved_from <$> xs) ++ post]>
               (<[b := pre' ++ (Some <$> xs) ++ post']> h)).
Proof.
  induction xs as [|x xs IH];
    intros h a b pre post pre' us post' i0 j0 i Hab Ha Hi Hb Hj Hus Hxs.
  - destruct us; [|done]. simpl in *. by rewrite !insert_id; [| |rewrite insert_id].
  - destruct us as [|u us]; [done|]. simpl in Hus.
    apply Forall_cons in Hxs as [Hx Hxs].
    cbn [length]. erewrite uninitialized_loop_step; last first.
    { unfold ptr_add; simpl. eapply move_construct_at_run; try done.
      - apply lookup_middle. lia.
      - apply length_middle. lia. }
    cbn [fmap list_fmap app]. rewrite !insert_middle by lia.
    erewrite (IH _ a b (pre ++ [Some (moved_from x)]) post
                 (pre' ++ [Some x]) us post'); try done.
    + rewrite insert2_collapse by done. by rewrite <- !app_assoc.
    + rewrite lookup_insert_eq. by rewrite <- app_assoc.
    + rewrite length_app. simpl. lia.
    + rewrite lookup_insert_ne by done. rewrite lookup_insert_eq.
      by rewrite <- app_assoc.
    + rewrite length_app. simpl. lia.
    + lia.
Qed.

Lemma uninitialized_copy_loop_run xs : ∀ h a b pre post pre' us post' i0 j0 i,
  a ≠ b →
  h !! a = Some (pre ++ (Some <$> xs) ++ post) → length pre = i0 + i →
  h !! b = Some (pre' ++ us ++ post') → length pre' = j0 + i →
  length us = length xs →
  Forall (λ x, copy_ctor_throws x = false) xs →
  uninitialized_loop
    (λ k, copy_construct_at ((Some b, j0) +ₚ k) ((Some a, i0) +ₚ k))
    (Some b, j0) i (length xs) h
  = (Ret (), <[b := pre' ++ (Some <$> xs) ++ post']> h).
Proof.
  induction xs as [|x xs IH];
    intros h a b pre post pre' us post' i0 j0 i Hab Ha Hi Hb Hj Hus Hxs.
  - destruct us; [|done]. simpl in *. by rewrite insert_id.
  - destruct us as [|u us]; [done|]. simpl in Hus.
    apply Forall_cons in Hxs as [Hx Hxs].
    cbn [length]. erewrite uninitialized_loop_step; last first.
    { unfold ptr_add; simpl. eapply copy_construct_at_run; try done.
      - apply lookup_middle. lia.
      - apply length_middle. lia. }
    cbn [fmap list_fmap app]. rewrite !insert_middle by lia.
    erewrite (IH _ a b (pre ++ [Some x]) post
                 (pre' ++ [Some x]) us post'); try done.
    + rewrite insert_insert_eq. by rewrite <- !app_assoc.
    + rewrite lookup_insert_ne by done. rewrite Ha.
      by rewrite <- app_assoc.
    + rewrite length_app. simpl. lia.
    + rewrite lookup_insert_eq. by rewrite <- app_assoc.
    + rewrite length_app. simpl. lia.
    + lia.
Qed.

(** A bulk construction that has gone through its first [n] rounds goes on
    with the others. *)
Lemma uninitialized_loop_app (ctor : nat → ST (heap T) unit) d n : ∀ i m h h1,
  uninitialized_loop ctor d i n h = (Ret (), h1) →
  uninitialized_loop ctor d i (n + m) h = uninitialized_loop ctor d (i + n) m h1.
Proof.
  induction n as [|n IH]; intros i m h h1 Hrun.
  - injection Hrun as <-. by rewrite Nat.add_0_r.
  - cbn [uninitialized_loop Nat.add] in *. unfold mbind, ST_bind in *.
    destruct (on_unwind (ctor i) (destroy_n d i) h) as [[[]|e|] h2]; [|done|done].
    rewrite (IH (S i) m h2 h1 Hrun). f_equal. lia.
Qed.

(** A bulk move in which the move constructor throws at the element [y]:
    the elements constructed in the target are destroyed, the elements
    moved from stay as the moves left them. *)
Lemma uninitialized_move_n_throws h a b l1 y l2 (post post' : list (option T)) :
  a ≠ b →
  h !! a = Some ((Some <$> l1) ++ Some y :: (Some <$> l2) ++ post) →
  h !! b = Some (replicate (length l1) None ++ post') →
  Forall (λ z, move_ctor_throws z = false) l1 → move_ctor_throws y = true →
  uninitialized_move_n (Some a, 0) (length l1 + S (length l2)) (Some b, 0) h
  = (Throw element_exn,
     <[a := (Some <$> (moved_from <$> l1)) ++ Some y :: (Some <$> l2) ++ post]> h).
Proof.
  intros Hab Ha Hb Hl1 Hy. unfold uninitialized_move_n.
  erewrite uninitialized_loop_app; last first.
  { apply (uninitialized_move_loop_run l1 h a b [] (Some y :: (Some <$> l2) ++ post)
             [] (replicate (length l1) None) post' 0 0 0); try done.
    by rewrite length_replicate. }
  cbn [uninitialized_loop app Nat.add].
  erewrite bind_throw; last first.
  { eapply on_unwind_throw.
    - unfold move_construct_at, ptr_add. cbn [fst snd Nat.add].
      erewrite bind_run; last first.
      { eapply load_run; [apply lookup_insert_eq|].
        apply lookup_middle. by rewrite length_fmap. }
      by rewrite Hy.
    - apply (destroy_n_live l1 _ b [] post' 0 (length l1)); [|done|done].
      rewrite lookup_insert_ne by done. apply lookup_insert_eq. }
  f_equal. apply map_eq. intros c. cbn [app].
  rewrite list_fmap_compose.
  destruct (decide (c = b)) as [->|Hcb].
  - rewrite lookup_insert_eq, lookup_insert_ne by done. by rewrite Hb.
  - rewrite lookup_insert_ne by done.
    destruct (decide (c = a)) as [->|Hca].
    + by rewrite !lookup_insert_eq.
    + by rewrite !lookup_insert_ne by done.
Qed.

(** A bulk copy in which the copy constructor throws at the element [y]:
    the copies made are destroyed, and nothing has changed. *)
Lemma uninitialized_copy_n_throws h a b l1 y l2 (post post' : list (option T)) :
  a ≠ b →
  h !! a = Some ((Some <$> l1) ++ Some y :: (Some <$> l2) ++ post) →
  h !! b = Some (replicate (length l1) None ++ post') →
  Forall (λ z, copy_ctor_throws z = false) l1 → copy_ctor_throws y = true →
  uninitialized_copy_n (Some a, 0) (length l1 + S (length l2)) (Some b, 0) h
  = (Throw element_exn, h).
Proof.
  intros Hab Ha Hb Hl1 Hy. unfold uninitialized_copy_n.
  erewrite uninitialized_loop_app; last first.
  { apply (uninitialized_copy_loop_run l1 h a b [] (Some y :: (Some <$> l2) ++ post)
             [] (replicate (length l1) None) post' 0 0 0); try done.
    by rewrite length_replicate. }
  cbn [uninitialized_loop app Nat.add].
  erewrite bind_throw; last first.
  { eapply on_unwind_throw.
    - unfold copy_construct_at, ptr_add. cbn [fst snd Nat.add].
      erewrite bind_run; last first.
      { eapply load_run; [by rewrite lookup_insert_ne|].
        apply lookup_middle. by rewrite length_fmap. }
      by rewrite Hy.
    - apply (destroy_n_live l1 _ b [] post' 0 (length l1)); [|done|done].
      apply lookup_insert_eq. }
  f_equal. cbn [app]. rewrite insert_insert_eq. by apply insert_id.
Qed.

(** [std::move] of a range one slot to the left, inside one block. *)
Lemma move_loop_run xs : ∀ h a pre y post d,
  h !! a = Some (pre ++ Some y :: (Some <$> xs) ++ post) → d = length pre →
  Forall (λ x, move_assign_throws x = false) xs →
  ∃ z, move_loop (Some a, S d) (Some a, d) (length xs) h
       = (Ret (), <[a := pre ++ (Some <$> xs) ++ Some z :: post]> h).
Proof.
  induction xs as [|x xs IH]; intros h a pre y post d Ha -> Hxs.
  - exists y. simpl in *. by rewrite insert_id.
  - apply Forall_cons in Hxs as [Hx Hxs].
    cbn [length move_loop].
    erewrite bind_run; last first.
    { eapply (move_assign_same _ _ _ _ _ x y); [done| | |lia|done].
      - replace (Some y :: (Some <$> x :: xs) ++ post)
          with ([Some y] ++ Some x :: (Some <$> xs) ++ post) by done.
        rewrite app_assoc. apply lookup_middle. rewrite length_app. simpl. lia.
      - by apply lookup_middle. }
    rewrite insert_middle by done.
    replace (pre ++ Some x :: (Some <$> x :: xs) ++ post)
      with ((pre ++ [Some x]) ++ Some x :: (Some <$> xs) ++ post)
      by (by rewrite <- app_assoc).
    rewrite insert_middle by (rewrite length_app; simpl; lia).
    unfold ptr_add; cbn [fst snd].
    destruct (IH (<[a := (pre ++ [Some x]) ++ Some (moved_from x) :: (Some <$> xs) ++ post]> h)
                 a (pre ++ [Some x]) (moved_from x) post (length pre + 1))
      as [z Hz].
    + by rewrite lookup_insert_eq.
    + rewrite length_app. simpl. lia.
    + done.
    + exists z. replace (S (length pre) + 1) with (S (length pre + 1)) by lia.
      rewrite Hz. rewrite insert_insert_eq. by rewrite <- !app_assoc.
Qed.

(** [std::move_backward] of a range one slot to the right, inside one
    block. *)
Lemma move_backward_loop_run xs : ∀ h a pre y post e,
  h !! a = Some (pre ++ (Some <$> xs) ++ Some y :: post) →
  e = length pre + length xs →
  Forall (λ x, move_assign_throws x = false) xs →
  ∃ z, move_backward_loop (Some a, e) (Some a, S e) (length xs) h
       = (Ret (), <[a := pre ++ Some z :: (Some <$> xs) ++ post]> h).
Proof.
  induction xs as [|x xs IH] using rev_ind; intros h a pre y post e Ha -> Hxs.
  - exists y. simpl in *. by rewrite insert_id.
  - apply Forall_app in Hxs as [Hxs Hx]. apply Forall_inv in Hx.
    rewrite length_app. cbn [length]. rewrite (Nat.add_comm (length xs) 1).
    cbn [Nat.add move_backward_loop].
    rewrite fmap_app in Ha. cbn [fmap list_fmap] in Ha.
    rewrite <- app_assoc in Ha. cbn [app] in Ha.
    erewrite bind_run by (apply ptr_sub_run; simpl; lia).
    erewrite bind_run by (apply ptr_sub_run; simpl; lia).
    cbn [fst snd].
    replace (length pre + S (length xs) - 1) with (length pre + length xs) by lia.
    replace (S (length pre + S (length xs)) - 1)
      with (S (length pre + length xs)) by lia.
    assert (Hlen : length pre + length xs = length (pre ++ (Some <$> xs))).
    { by rewrite length_app, length_fmap. }
    erewrite bind_run; last first.
    { eapply (move_assign_same _ _ _ _ _ x y); [done| | |lia|done].
      - rewrite app_assoc. by apply lookup_middle.
      - replace (pre ++ (Some <$> xs) ++ Some x :: Some y :: post)
          with ((pre ++ (Some <$> xs) ++ [Some x]) ++ Some y :: post)
          by (by rewrite <- !app_assoc).
        apply lookup_middle. rewrite !length_app, length_fmap. simpl. lia. }
    replace (pre ++ (Some <$> xs) ++ Some x :: Some y :: post)
      with ((pre ++ (Some <$> xs) ++ [Some x]) ++ Some y :: post)
      by (by rewrite <- !app_assoc).
    rewrite insert_middle by (rewrite !length_app, length_fmap; simpl; lia).
    replace ((pre ++ (Some <$> xs) ++ [Some x]) ++ Some x :: post)
      with ((pre ++ (Some <$> xs)) ++ Some x :: Some x :: post)
      by (by rewrite <- !app_assoc).
    rewrite insert_middle by done.
    destruct (IH (<[a := (pre ++ (Some <$> xs)) ++ Some (moved_from x) :: Some x :: post]> h)
                 a pre (moved_from x) (Some x :: post) (length pre + length xs))
      as [z Hz].
    + rewrite lookup_insert_eq. by rewrite <- app_assoc.
    + done.
    + done.
    + exists z. rewrite Hz. rewrite insert_insert_eq.
      rewrite fmap_app. by rewrite <- !app_assoc.
Qed.

End Loops.

(** ** Allocation, transfer, and the abstract contents of a vector *)

Section Contents.
Context {T : Type} `{!Element T} `{!Allocator}.
Implicit Types (h : heap T) (w : world T) (a b : addr) (x y z : T).
Implicit Types (l xs : list T) (v : Vector).

Lemma max_bytes_size_t : is_size_t max_bytes.
Proof. pose proof max_bytes_ptrdiff. unfold is_size_t. lia. Qed.

Lemma bytes_size_t n : n * sizeof_T ≤ max_bytes → is_size_t (n * sizeof_T).
Proof. intros Hn. eapply is_size_t_le; [done|]. apply max_bytes_size_t. Qed.

(** Twice a capacity that was granted is still a [size_t]. *)
Lemma double_size_t n : n * sizeof_T ≤ max_bytes → is_size_t (n * 2).
Proof.
  intros Hn. pose proof max_bytes_ptrdiff. pose proof sizeof_T_pos.
  unfold is_size_t. nia.
Qed.

Lemma slots_size_t n : n * sizeof_T ≤ max_bytes → is_size_t n.
Proof.
  intros Hn. eapply is_size_t_le; [|by apply bytes_size_t].
  pose proof sizeof_T_pos. nia.
Qed.

Lemma fresh_None h : h !! fresh (dom h) = None.
Proof. apply not_elem_of_dom, is_fresh. Qed.

Lemma fresh_ne h a blk : h !! a = Some blk → a ≠ fresh (dom h).
Proof. intros Ha ->. by rewrite fresh_None in Ha. Qed.

Lemma RawMemory_ctor_run h n :
  0 < n → n * sizeof_T ≤ max_bytes →
  RawMemory_ctor n h
  = (Ret {| buffer_ := Some (fresh (dom h)); capacity_ := n |},
     <[fresh (dom h) := replicate n None]> h).
Proof.
  intros Hn Hb. unfold RawMemory_ctor, Allocate.
  rewrite bool_decide_eq_true_2 by lia.
  rewrite size_mul_id by (by apply bytes_size_t).
  assert (Hnew : operator_new (n * sizeof_T) h
                 = (Ret (fresh (dom h)), <[fresh (dom h) := replicate n None]> h)).
  { unfold operator_new.
    destruct (Nat.leb_spec (n * sizeof_T) max_bytes); [|lia].
    rewrite Nat.div_mul; [done|]. pose proof sizeof_T_pos. lia. }
  erewrite bind_run by (erewrite bind_run by exact Hnew; reflexivity).
  done.
Qed.

Lemma RawMemory_dtor_run h a blk c :
  h !! a = Some blk →
  RawMemory_dtor {| buffer_ := Some a; capacity_ := c |} h = (Ret (), delete a h).
Proof. unfold RawMemory_dtor, Deallocate, operator_delete. simpl. by intros ->. Qed.

Lemma RawMemory_plus_run h (r : RawMemory) offset :
  offset ≤ capacity_ r → RawMemory_plus r offset h = (Ret (buffer_ r, offset), h).
Proof.
  intros Ho. unfold RawMemory_plus.
  by destruct (Nat.leb_spec offset (capacity_ r)); [|lia].
Qed.

Lemma RawMemory_index_run h (r : RawMemory) index :
  index < capacity_ r → RawMemory_index r index h = (Ret (buffer_ r, index), h).
Proof.
  intros Ho. unfold RawMemory_index.
  by destruct (Nat.ltb_spec index (capacity_ r)); [|lia].
Qed.

Lemma lift_run_at {A} (m : ST (heap T) A) h o r h' :
  m h = (r, h') →
  lift m {| mem := h; objs := o |} = (r, {| mem := h'; objs := o |}).
Proof. unfold lift. simpl. by intros ->. Qed.

Lemma get_vec_at h (o : gmap var Vector) (this : var) v :
  o !! this = Some v →
  get_vec this {| mem := h; objs := o |} = (Ret v, {| mem := h; objs := o |}).
Proof. unfold get_vec. simpl. by intros ->. Qed.

(** The bulk transfer of every [if constexpr] of the source, from a block
    into another one: the target receives the elements, the source keeps
    live objects (the originals, or what the moves left). *)
Lemma transfer_run h a b xs (pre post pre' us post' : list (option T)) i j :
  a ≠ b →
  h !! a = Some (pre ++ (Some <$> xs) ++ post) → i = length pre →
  h !! b = Some (pre' ++ us ++ post') → j = length pre' →
  length us = length xs →
  transfer_ok xs →
  ∃ ys, length ys = length xs ∧
    (if use_move
     then uninitialized_move_n (Some a, i) (length xs) (Some b, j)
     else uninitialized_copy_n (Some a, i) (length xs) (Some b, j)) h
    = (Ret (), <[b := pre' ++ (Some <$> xs) ++ post']>
                 (<[a := pre ++ (Some <$> ys) ++ post]> h)).
Proof.
  intros Hab Ha -> Hb -> Hus Hok. unfold transfer_ok in Hok.
  destruct use_move.
  - exists (moved_from <$> xs). split; [by rewrite length_fmap|].
    unfold uninitialized_move_n.
    erewrite uninitialized_move_loop_run; try done; try lia.
    rewrite insert_insert_ne by done. by rewrite <- list_fmap_compose.
  - exists xs. split; [done|].
    unfold uninitialized_copy_n.
    erewrite uninitialized_copy_loop_run; try done; try lia.
    by rewrite (insert_id h a).
Qed.

Lemma transfer_nothing h (p q : ptr) :
  (if use_move then uninitialized_move_n p 0 q else uninitialized_copy_n p 0 q) h
  = (Ret (), h).
Proof. by destruct use_move. Qed.

End Contents.

(** ** The methods on a well-formed vector *)

(** One call of a sequence: [step tac] runs the next call, [tac] proving
    that it returns; [lstep] does so for a call on the heap. *)
Ltac step tac :=
  rewrite ?bind_assoc; erewrite bind_run; [ | solve [tac] ]; cbn [mem objs].
Ltac lstep tac :=
  rewrite ?bind_assoc; erewrite bind_run; [ | apply lift_run_at; solve [tac] ];
  cbn [mem objs].
Ltac lift_last tac := erewrite lift_run_at; [ | solve [tac] ].
Ltac get_this := step ltac:(apply get_vec_at; first [eassumption | apply lookup_insert_eq]).
Ltac put_this := step ltac:(reflexivity).

Section Methods.
Context {T : Type} `{!Element T} `{!Allocator}.
Implicit Types (h : heap T) (w : world T) (a b : addr) (x y z : T).
Implicit Types (l xs : list T) (v : Vector) (this : var).

Lemma replicate_S_sub {A} (n k : nat) (u : A) :
  k < n → replicate (n - k) u = u :: replicate (n - S k) u.
Proof. intros Hk. by replace (n - k) with (S (n - S k)) by lia. Qed.

Lemma EmplaceBack_run w this v l args x :
  objs w !! this = Some v → represents (mem w) v l →
  construct args = Some x →
  (length l = capacity_ (data_ v) →
   transfer_ok l ∧ grown (capacity_ (data_ v)) * sizeof_T ≤ max_bytes) →
  ∃ w' v',
    EmplaceBack this args w = (Ret (begin_ v' +ₚ length l), w') ∧
    objs w' = <[this := v']> (objs w) ∧
    represents (mem w') v' (l ++ [x]) ∧
    capacity_ (data_ v')
    = (if length l <? capacity_ (data_ v) then capacity_ (data_ v)
       else grown (capacity_ (data_ v))).
Proof.
  intros Hv (Hsz & Hle & Hbytes & Hblk) Hx Hfull.
  destruct v as [sz [buf cap]], w as [h o].
  cbn [size_ data_ capacity_ buffer_ mem objs] in *. subst sz.
  unfold EmplaceBack. get_this.
  cbn [size_ data_ capacity_ buffer_ Capacity].
  destruct (Nat.ltb_spec (length l) cap) as [Hlt|Hge].
  - (* room left: construct in place *)
    destruct buf as [a|]; [|lia]. destruct Hblk as [_ Ha].
    rewrite (replicate_S_sub cap (length l)) in Ha by done.
    erewrite bind_run; last first.
    { lstep ltac:(apply RawMemory_plus_run; simpl; lia).
      apply lift_run_at. unfold construct_at. rewrite Hx.
      eapply emplace_at_run; [done|]. apply length_middle. by rewrite length_fmap. }
    cbn [mem objs buffer_]. rewrite insert_middle by (by rewrite length_fmap).
    get_this.
    put_this.
    get_this.
    cbn [size_ data_].
    assert (Hst : is_size_t (length l + 1)).
    { eapply is_size_t_le; [|by apply (slots_size_t cap)]. lia. }
    rewrite size_add_id by done.
    rewrite size_sub_le by (done || lia).
    lift_last ltac:(apply RawMemory_index_run; simpl; lia).
    replace (length l + 1 - 1) with (length l) by lia.
    eexists _, {| size_ := length l + 1;
                  data_ := {| buffer_ := Some a; capacity_ := cap |} |}.
    split; [|split; [|split]].
    + reflexivity.
    + cbn [objs]. by rewrite ?insert_insert_eq.
    + unfold represents. cbn [mem size_ data_ capacity_ buffer_].
      rewrite length_app. simpl. repeat split; try lia.
      rewrite lookup_insert_eq. f_equal.
      rewrite fmap_app. rewrite <- app_assoc. simpl.
      by replace (cap - (length l + 1)) with (cap - S (length l)) by lia.
    + done.
  - (* full: relocate *)
    assert (Hcap : length l = cap) by lia. subst cap.
    destruct (Hfull eq_refl) as [Hok Hgrown]. clear Hfull Hle Hge.
    assert (Hnew : (if length l =? 0 then 1 else size_mul (length l) 2)
                   = grown (length l)).
    { unfold grown. destruct (Nat.eqb_spec (length l) 0) as [->|]; [done|].
      rewrite size_mul_id; [lia|].
      eapply is_size_t_le; [|by apply (slots_size_t (grown (length l)))].
      unfold grown. lia. }
    rewrite Hnew.
    assert (Hpos : 0 < grown (length l)) by (unfold grown; lia).
    assert (Hlt : length l < grown (length l)) by (unfold grown; lia).
    lstep ltac:(by apply RawMemory_ctor_run).
    set (b := fresh (dom h)).
    set (h1 := <[b := replicate (grown (length l)) None]> h).
    assert (Hb1 : ∃ k, replicate (grown (length l)) (@None T)
                       = replicate (length l) None ++ None :: replicate k None
                       ∧ k = grown (length l) - S (length l)).
    { eexists. split; [|done].
      replace (grown (length l)) with (length l + S (grown (length l) - S (length l)))
        at 1 by lia.
      by rewrite replicate_add. }
    destruct Hb1 as (k & Hrep & Hk).
    (* the new element, then the old ones *)
    assert (Hbody : ∃ h3,
      (p ← lift (RawMemory_plus {| buffer_ := Some b; capacity_ := grown (length l) |} (length l));
       _ ← lift (construct_at p args);
       lift (if use_move
             then uninitialized_move_n (GetAddress {| buffer_ := buf; capacity_ := length l |})
                    (length l) (GetAddress {| buffer_ := Some b; capacity_ := grown (length l) |})
             else uninitialized_copy_n (GetAddress {| buffer_ := buf; capacity_ := length l |})
                    (length l) (GetAddress {| buffer_ := Some b; capacity_ := grown (length l) |})))
        {| mem := h1; objs := o |}
      = (Ret (), {| mem := h3; objs := o |})
      ∧ h3 !! b = Some ((Some <$> l ++ [x]) ++ replicate k None)
      ∧ match buf with
        | None => True
        | Some a => a ≠ b ∧ ∃ ys, length ys = length l ∧ h3 !! a = Some (Some <$> ys)
        end).
    { lstep ltac:(apply RawMemory_plus_run; simpl; lia). cbn [buffer_].
      erewrite bind_run; last first.
      { apply lift_run_at. unfold construct_at. rewrite Hx.
        eapply emplace_at_run; [apply lookup_insert_eq|].
        rewrite length_replicate. simpl. lia. }
      cbn [mem objs]. subst h1. rewrite insert_insert_eq. rewrite Hrep.
      rewrite insert_middle by (by rewrite length_replicate).
      unfold GetAddress. cbn [buffer_].
      destruct buf as [a|].
      - destruct Hblk as [_ Ha]. rewrite Nat.sub_diag in Ha. simpl in Ha.
        assert (Hab : a ≠ b) by (by eapply fresh_ne).
        destruct (transfer_run
                    (<[b := replicate (length l) None ++ Some x :: replicate k None]> h)
                    a b l [] [] [] (replicate (length l) None)
                    (Some x :: replicate k None) 0 0) as (ys & Hys & Hrun);
          try done.
        + rewrite lookup_insert_ne by done. by rewrite app_nil_r in Ha |- *.
        + apply lookup_insert_eq.
        + by rewrite length_replicate.
        + eexists. split; [by apply lift_run_at|]. cbn [app].
          split; [|split; [done|exists ys; split; [done|]]].
          * rewrite lookup_insert_eq. by rewrite fmap_app, <- app_assoc.
          * rewrite lookup_insert_ne by done. rewrite lookup_insert_eq.
            by rewrite app_nil_r.
      - destruct l; [|simpl in *; lia]. simpl.
        eexists. split; [apply lift_run_at; apply transfer_nothing|].
        split; [|done]. by rewrite lookup_insert_eq. }
    destruct Hbody as (h3 & Hbody & Hb3 & Hold).
    step ltac:(apply on_unwind_run; exact Hbody).
    cbn [RawMemory_Swap buffer_ capacity_].
    put_this.
    assert (Hrelease : ∃ h5,
      (_ ← lift (destroy_n (GetAddress {| buffer_ := buf; capacity_ := length l |}) (length l));
       lift (RawMemory_dtor {| buffer_ := buf; capacity_ := length l |}))
        {| mem := h3;
           objs := <[this := {| size_ := length l;
                                data_ := {| buffer_ := Some b; capacity_ := grown (length l) |} |}]>
                     (o) |}
      = (Ret (), {| mem := h5;
                    objs := <[this := {| size_ := length l;
                                         data_ := {| buffer_ := Some b; capacity_ := grown (length l) |} |}]>
                              (o) |})
      ∧ h5 !! b = Some ((Some <$> l ++ [x]) ++ replicate k None)).
    { unfold GetAddress. cbn [buffer_]. destruct buf as [a|].
      - destruct Hold as (Hab & ys & Hys & Ha3).
        lstep ltac:(eapply (destroy_n_live ys _ a [] []);
                    [by rewrite app_nil_r|done|done]).
        lift_last ltac:(eapply RawMemory_dtor_run; apply lookup_insert_eq).
        eexists. split; [done|].
        rewrite lookup_delete_ne by done. by rewrite lookup_insert_ne.
      - destruct l; [|simpl in *; lia]. simpl.
        eexists. split; [reflexivity|done]. }
    destruct Hrelease as (h5 & Hrelease & Hb5).
    erewrite bind_run by exact Hrelease.
    get_this.
    put_this.
    get_this.
    cbn [size_ data_].
    assert (Hst : is_size_t (length l + 1)).
    { eapply is_size_t_le; [|by apply (slots_size_t (grown (length l)))]. lia. }
    rewrite size_add_id by done.
    rewrite size_sub_le by (done || lia).
    lift_last ltac:(apply RawMemory_index_run; simpl; lia).
    replace (length l + 1 - 1) with (length l) by lia.
    eexists _, {| size_ := length l + 1;
                  data_ := {| buffer_ := Some b; capacity_ := grown (length l) |} |}.
    split; [|split; [|split]].
    + reflexivity.
    + cbn [objs]. by rewrite ?insert_insert_eq.
    + unfold represents. cbn [mem size_ data_ capacity_ buffer_].
      rewrite length_app. simpl. repeat split; try lia.
      rewrite Hb5. f_equal. f_equal. f_equal. lia.
    + done.
Qed.

Lemma Reserve_keep w this v n :
  objs w !! this = Some v → n ≤ capacity_ (data_ v) →
  Reserve this n w = (Ret (), w).
Proof.
  intros Hv Hn. destruct w as [h o]. unfold Reserve. get_this.
  unfold Capacity. by destruct (Nat.leb_spec n (capacity_ (data_ v))); [|lia].
Qed.

Lemma Reserve_grow w this v l n :
  objs w !! this = Some v → represents (mem w) v l →
  capacity_ (data_ v) < n → n * sizeof_T ≤ max_bytes → transfer_ok l →
  ∃ w' v',
    Reserve this n w = (Ret (), w') ∧
    objs w' = <[this := v']> (objs w) ∧
    represents (mem w') v' l ∧
    capacity_ (data_ v') = n.
Proof.
  intros Hv (Hsz & Hle & Hbytes & Hblk) Hn Hnb Hok.
  destruct v as [sz [buf cap]], w as [h o].
  cbn [size_ data_ capacity_ buffer_ mem objs] in *. subst sz.
  unfold Reserve. get_this.
  cbn [size_ data_ capacity_ buffer_ Capacity].
  destruct (Nat.leb_spec n cap); [lia|].
  lstep ltac:(apply RawMemory_ctor_run; (done || lia)).
  set (b := fresh (dom h)).
  unfold GetAddress. cbn [buffer_].
  assert (Hraw : replicate n (@None T)
                 = replicate (length l) None ++ replicate (n - length l) None).
  { rewrite <- replicate_add. f_equal. lia. }
  rewrite Hraw.
  destruct buf as [a|].
  - destruct Hblk as [_ Ha].
    assert (Hab : a ≠ b) by (by eapply fresh_ne).
    destruct (transfer_run
                (<[b := replicate (length l) None ++ replicate (n - length l) None]> h)
                a b l [] (replicate (cap - length l) None)
                [] (replicate (length l) None) (replicate (n - length l) None) 0 0)
      as (ys & Hys & Hrun); try done.
    { by rewrite lookup_insert_ne. }
    { apply lookup_insert_eq. }
    { by rewrite length_replicate. }
    step ltac:(apply on_unwind_run; apply lift_run_at; exact Hrun).
    lstep ltac:(eapply (destroy_n_live ys _ a []);
                [rewrite lookup_insert_ne by done; apply lookup_insert_eq|done|done]).
    cbn [RawMemory_Swap buffer_ capacity_]. put_this.
    lift_last ltac:(eapply RawMemory_dtor_run; apply lookup_insert_eq).
    eexists _, {| size_ := length l;
                  data_ := {| buffer_ := Some b; capacity_ := n |} |}.
    split; [reflexivity|]. split; [done|]. split; [|done].
    unfold represents. cbn [mem size_ data_ capacity_ buffer_].
    repeat split; try lia.
    rewrite lookup_delete_ne by done. rewrite lookup_insert_ne by done.
    by rewrite lookup_insert_eq.
  - destruct l; [|simpl in *; lia]. simpl.
    step ltac:(apply on_unwind_run; apply lift_run_at; apply transfer_nothing).
    lstep ltac:(reflexivity).
    cbn [RawMemory_Swap buffer_ capacity_]. put_this.
    lift_last ltac:(reflexivity).
    eexists _, {| size_ := 0;
                  data_ := {| buffer_ := Some b; capacity_ := n |} |}.
    split; [reflexivity|]. split; [done|]. split; [|done].
    unfold represents. cbn [mem size_ data_ capacity_ buffer_].
    simpl. repeat split; try lia.
    rewrite lookup_insert_eq. by rewrite Nat.sub_0_r.
Qed.

Lemma PopBack_run w this v l x :
  objs w !! this = Some v → represents (mem w) v (l ++ [x]) →
  ∃ w' v',
    PopBack this w = (Ret (), w') ∧
    objs w' = <[this := v']> (objs w) ∧
    represents (mem w') v' l ∧
    data_ v' = data_ v ∧
    others (mem w') v' = others (mem w) v.
Proof.
  intros Hv (Hsz & Hle & Hbytes & Hblk).
  destruct v as [sz [buf cap]], w as [h o].
  cbn [size_ data_ capacity_ buffer_ mem objs] in *. subst sz.
  rewrite length_app in *. cbn [length] in *.
  destruct buf as [a|]; [|lia]. destruct Hblk as [_ Ha].
  rewrite fmap_app, <- app_assoc in Ha. cbn [fmap list_fmap app] in Ha.
  unfold PopBack. get_this.
  cbn [size_ data_ capacity_ buffer_ GetAddress].
  lstep ltac:(apply ptr_sub_run; simpl; lia).
  unfold GetAddress, ptr_add. cbn [fst snd buffer_].
  replace (0 + (length l + 1) - 1) with (length l) by lia.
  lstep ltac:(eapply (destroy_n_live [x] _ a (Some <$> l));
              [exact Ha|by rewrite length_fmap|done]).
  assert (Hst : is_size_t (length l + 1)).
  { eapply is_size_t_le; [|by apply (slots_size_t cap)]. lia. }
  rewrite size_sub_le by (done || lia).
  eexists _, {| size_ := length l + 1 - 1;
                data_ := {| buffer_ := Some a; capacity_ := cap |} |}.
  split; [reflexivity|]. split; [done|]. split; [|split; [done|]].
  - unfold represents. cbn [mem size_ data_ capacity_ buffer_].
    repeat split; try lia.
    rewrite lookup_insert_eq. f_equal. f_equal. simpl.
    rewrite (replicate_S_sub cap (length l)) by lia. do 2 f_equal. lia.
  - unfold others. cbn [mem data_ buffer_]. apply delete_insert_eq.
Qed.

Lemma Erase_run w this v l1 y l2 :
  objs w !! this = Some v → represents (mem w) v (l1 ++ y :: l2) →
  shift_ok l2 →
  ∃ w' v',
    Erase this (begin_ v +ₚ length l1) w = (Ret (begin_ v' +ₚ length l1), w') ∧
    objs w' = <[this := v']> (objs w) ∧
    represents (mem w') v' (l1 ++ l2) ∧
    data_ v' = data_ v ∧
    others (mem w') v' = others (mem w) v.
Proof.
  intros Hv (Hsz & Hle & Hbytes & Hblk) Hok.
  destruct v as [sz [buf cap]], w as [h o].
  cbn [size_ data_ capacity_ buffer_ mem objs] in *. subst sz.
  rewrite length_app in *. cbn [length] in *.
  destruct buf as [a|]; [|lia]. destruct Hblk as [_ Ha].
  rewrite fmap_app, <- app_assoc in Ha. cbn [fmap list_fmap app] in Ha.
  rewrite app_comm_cons in Ha.
  unfold Erase, begin_, cbegin, end_, GetAddress, ptr_add.
  cbn [size_ data_ capacity_ buffer_ fst snd].
  get_this. cbn [size_ data_ capacity_ buffer_ fst snd].
  lstep ltac:(apply ptr_diff_run; simpl; (done || lia)).
  cbn [fst snd]. replace (0 + length l1 - 0) with (length l1) by lia.
  lstep ltac:(apply RawMemory_plus_run; simpl; lia).
  cbn [buffer_].
  destruct (move_loop_run l2 h a (Some <$> l1) y
              (replicate (cap - (length l1 + S (length l2))) None) (length l1))
    as [z Hz]; [by rewrite <- app_comm_cons in Ha|by rewrite length_fmap|done|].
  erewrite bind_run; last first.
  { apply lift_run_at. unfold std_move.
    erewrite bind_run by (apply ptr_diff_run; simpl; (done || lia)).
    cbn [fst snd].
    replace (length l1 + S (length l2) - (0 + length l1 + 1)) with (length l2) by lia.
    replace (0 + length l1 + 1) with (S (length l1)) by lia.
    replace (0 + length l1) with (length l1) by lia.
    exact Hz. }
  assert (Hst : is_size_t (length l1 + S (length l2))).
  { eapply is_size_t_le; [|by apply (slots_size_t cap)]. lia. }
  rewrite size_sub_le by (done || lia).
  lstep ltac:(apply RawMemory_index_run; simpl; lia).
  cbn [buffer_].
  rewrite (app_assoc (Some <$> l1)).
  lstep ltac:(eapply (destroy_at_run _ a _ _ z);
              [apply lookup_insert_eq|
               apply lookup_middle; rewrite length_app, !length_fmap; lia]).
  rewrite insert_insert_eq.
  rewrite insert_middle by (rewrite length_app, !length_fmap; lia).
  put_this. get_this.
  eexists _, {| size_ := length l1 + S (length l2) - 1;
                data_ := {| buffer_ := Some a; capacity_ := cap |} |}.
  split; [|split; [|split; [|split]]].
  - reflexivity.
  - cbn [objs]. done.
  - unfold represents. cbn [mem size_ data_ capacity_ buffer_].
    rewrite length_app. repeat split; try lia.
    rewrite lookup_insert_eq. f_equal. rewrite fmap_app. f_equal.
    rewrite (replicate_S_sub cap (length l1 + length l2)) by lia.
    do 2 f_equal. lia.
  - done.
  - unfold others. cbn [mem data_ buffer_]. apply delete_insert_eq.
Qed.

(** [Emplace] before the end with room left: the tail moves one slot to the
    right inside the block. *)
Lemma Emplace_in_place w this v l1 l2 lst args x :
  objs w !! this = Some v → represents (mem w) v (l1 ++ l2 ++ [lst]) →
  length (l1 ++ l2 ++ [lst]) < capacity_ (data_ v) →
  construct args = Some x →
  move_ctor_throws lst = false → shift_ok l2 → move_assign_throws x = false →
  ∃ w' v',
    Emplace this (begin_ v +ₚ length l1) args w
    = (Ret (begin_ v' +ₚ length l1), w') ∧
    objs w' = <[this := v']> (objs w) ∧
    represents (mem w') v' (l1 ++ x :: l2 ++ [lst]) ∧
    capacity_ (data_ v') = capacity_ (data_ v).
Proof.
  intros Hv (Hsz & Hle & Hbytes & Hblk) Hroom Hx Hlst Hok Hxa.
  destruct v as [sz [buf cap]], w as [h o].
  cbn [size_ data_ capacity_ buffer_ mem objs] in *. subst sz.
  rewrite !length_app in *. cbn [length] in *.
  set (n1 := length l1) in *. set (n2 := length l2) in *.
  destruct buf as [a|]; [|lia]. destruct Hblk as [_ Ha].
  rewrite !fmap_app, <- !app_assoc in Ha. cbn [fmap list_fmap app] in Ha.
  rewrite (replicate_S_sub cap (n1 + (n2 + 1))) in Ha by lia.
  set (R := replicate (cap - S (n1 + (n2 + 1))) None) in *.
  assert (Hst : is_size_t (n1 + (n2 + 1) + 1)).
  { eapply is_size_t_le; [|by apply (slots_size_t cap)]. lia. }
  assert (Hst' : is_size_t (n1 + (n2 + 1))) by (eapply is_size_t_le; [|done]; lia).
  unfold Emplace, begin_, cbegin, end_, GetAddress, ptr_add.
  cbn [size_ data_ capacity_ buffer_ fst snd].
  get_this. cbn [size_ data_ capacity_ buffer_ fst snd].
  lstep ltac:(apply RawMemory_plus_run; simpl; lia). cbn [buffer_].
  rewrite bool_decide_eq_false_2 by (intros [=]; lia).
  lstep ltac:(apply ptr_diff_run; simpl; (done || lia)).
  cbn [fst snd]. replace (0 + n1 - 0) with n1 by lia.
  unfold Capacity. cbn [capacity_].
  destruct (Nat.ltb_spec (n1 + (n2 + 1)) cap); [|lia].
  (* the body of EmplaceWithoutRealloc *)
  assert (Hbody :
    EmplaceWithoutRealloc this n1 args {| mem := h; objs := o |}
    = (Ret (), {| mem := <[a := (Some <$> l1) ++ Some x :: (Some <$> l2)
                                 ++ Some lst :: R]> h;
                  objs := o |})).
  { unfold EmplaceWithoutRealloc, begin_, end_, GetAddress, ptr_add.
    get_this. rewrite Hx. cbn [size_ data_ capacity_ buffer_ fst snd].
    lstep ltac:(apply RawMemory_plus_run; simpl; lia). cbn [buffer_].
    rewrite size_sub_le by (done || lia).
    lstep ltac:(apply RawMemory_index_run; simpl; lia). cbn [buffer_].
    assert (Hlen : n1 + n2 = length ((Some <$> l1) ++ (Some <$> l2))).
    { by rewrite length_app, !length_fmap. }
    erewrite bind_run; last first.
    { apply lift_run_at.
      eapply (move_construct_at_same _ a _ _ _ lst); [exact Ha| | |lia|done].
      - rewrite app_assoc. apply lookup_middle. lia.
      - rewrite !length_app, !length_fmap. cbn [length]. fold n1 n2. lia. }
    cbn [mem objs].
    replace ((Some <$> l1) ++ (Some <$> l2) ++ Some lst :: None :: R)
      with ((((Some <$> l1) ++ (Some <$> l2)) ++ [Some lst]) ++ None :: R)
      by (by rewrite <- !app_assoc).
    rewrite insert_middle by (rewrite length_app; simpl; lia).
    rewrite <- (app_assoc _ [Some lst]). cbn [app].
    rewrite insert_middle by lia.
    rewrite <- app_assoc.
    lstep ltac:(apply ptr_sub_run; simpl; lia). cbn [fst snd].
    destruct (move_backward_loop_run l2
                (<[a := (Some <$> l1) ++ (Some <$> l2)
                        ++ Some (moved_from lst) :: Some lst :: R]> h)
                a (Some <$> l1) (moved_from lst) (Some lst :: R) (n1 + n2))
      as [z Hz]; [apply lookup_insert_eq|by rewrite length_fmap|done|].
    erewrite bind_run; last first.
    { apply lift_run_at. unfold move_backward.
      erewrite bind_run by (apply ptr_diff_run; simpl; (done || lia)).
      cbn [fst snd].
      replace (n1 + (n2 + 1) - 1 - (0 + n1)) with n2 by lia.
      replace (n1 + (n2 + 1) - 1) with (n1 + n2) by lia.
      replace (n1 + (n2 + 1)) with (S (n1 + n2)) by lia.
      exact Hz. }
    rewrite insert_insert_eq.
    lstep ltac:(apply RawMemory_index_run; simpl; lia). cbn [buffer_].
    rewrite Hxa.
    lift_last ltac:(eapply (store_run _ a _ _ z);
                    [apply lookup_insert_eq|apply lookup_middle; by rewrite length_fmap]).
    rewrite insert_insert_eq.
    by rewrite insert_middle by (by rewrite length_fmap). }
  step ltac:(exact Hbody).
  get_this. put_this. get_this.
  cbn [size_ data_ capacity_ buffer_].
  rewrite size_add_id by done.
  eexists _, {| size_ := n1 + (n2 + 1) + 1;
                data_ := {| buffer_ := Some a; capacity_ := cap |} |}.
  split; [|split; [|split]].
  - reflexivity.
  - cbn [objs]. done.
  - unfold represents. cbn [mem size_ data_ capacity_ buffer_].
    rewrite !length_app. cbn [length]. rewrite !length_app. cbn [length].
    fold n1 n2. repeat split; try lia.
    rewrite lookup_insert_eq. f_equal.
    rewrite !fmap_app. cbn [fmap list_fmap]. rewrite !fmap_app.
    rewrite <- !app_assoc. cbn [fmap list_fmap app].
    rewrite <- ?app_assoc. cbn [app].
    by replace (cap - (n1 + S (n2 + 1))) with (cap - S (n1 + (n2 + 1))) by lia.
  - done.
Qed.

(** [Emplace] before the end of a full vector: a new block receives the new
    element, the prefix and the suffix. *)
Lemma Emplace_realloc w this v l1 l2 args x :
  objs w !! this = Some v → represents (mem w) v (l1 ++ l2) →
  l2 ≠ [] → length (l1 ++ l2) = capacity_ (data_ v) →
  construct args = Some x → transfer_ok (l1 ++ l2) →
  grown (capacity_ (data_ v)) * sizeof_T ≤ max_bytes →
  ∃ w' v',
    Emplace this (begin_ v +ₚ length l1) args w
    = (Ret (begin_ v' +ₚ length l1), w') ∧
    objs w' = <[this := v']> (objs w) ∧
    represents (mem w') v' (l1 ++ x :: l2) ∧
    capacity_ (data_ v') = grown (capacity_ (data_ v)).
Proof.
  intros Hv (Hsz & Hle & Hbytes & Hblk) Hl2 Hfull Hx Hok Hgrown.
  destruct v as [sz [buf cap]], w as [h o].
  cbn [size_ data_ capacity_ buffer_ mem objs] in *. subst sz.
  rewrite !length_app in *.
  set (n1 := length l1) in *. set (n2 := length l2) in *.
  assert (Hn2 : 0 < n2) by (subst n2; destruct l2; [done|simpl; lia]).
  subst cap. unfold grown in *.
  replace (Nat.max 1 ((n1 + n2) * 2)) with ((n1 + n2) * 2) in * by lia.
  set (N := (n1 + n2) * 2) in *.
  assert (HN : N = (n1 + n2) * 2) by done.
  apply Forall_app in Hok as [Hok1 Hok2].
  destruct buf as [a|]; [|lia]. destruct Hblk as [_ Ha].
  rewrite Nat.sub_diag, fmap_app, <- app_assoc in Ha. cbn [replicate] in Ha.
  assert (HstN : is_size_t N) by (by apply slots_size_t).
  assert (Hst : is_size_t (n1 + n2 + 1)) by (eapply is_size_t_le; [|done]; lia).
  assert (Hst' : is_size_t (n1 + n2)) by (eapply is_size_t_le; [|done]; lia).
  unfold Emplace, begin_, cbegin, end_, GetAddress, ptr_add.
  cbn [size_ data_ capacity_ buffer_ fst snd].
  get_this. cbn [size_ data_ capacity_ buffer_ fst snd].
  lstep ltac:(apply RawMemory_plus_run; simpl; lia). cbn [buffer_].
  rewrite bool_decide_eq_false_2 by (intros [=]; lia).
  lstep ltac:(apply ptr_diff_run; simpl; (done || lia)).
  cbn [fst snd]. replace (0 + n1 - 0) with n1 by lia.
  unfold Capacity. cbn [capacity_].
  destruct (Nat.ltb_spec (n1 + n2) (n1 + n2)); [lia|].
  set (b := fresh (dom h)).
  assert (Hab : a ≠ b) by (by eapply fresh_ne).
  assert (Hbody : ∃ ys,
    length ys = n1 + n2 ∧
    EmplaceWithRealloc this n1 args {| mem := h; objs := o |}
    = (Ret (),
       {| mem := delete a
                   (<[a := replicate (n1 + n2) None]>
                      (<[b := (Some <$> l1 ++ x :: l2) ++ replicate (N - S (n1 + n2)) None]>
                         (<[a := Some <$> ys]> h)));
          objs := <[this := {| size_ := n1 + n2;
                               data_ := {| buffer_ := Some b; capacity_ := N |} |}]> o |})).
  { unfold EmplaceWithRealloc, GetAddress, ptr_add.
    get_this. cbn [size_ data_ capacity_ buffer_ fst snd].
    destruct (Nat.eqb_spec (n1 + n2) 0); [lia|].
    rewrite size_mul_id by done. fold N.
    lstep ltac:(apply RawMemory_ctor_run; lia). fold b.
    assert (Hraw : replicate N (@None T)
                   = replicate n1 None ++ None :: replicate n2 None
                       ++ replicate (N - S (n1 + n2)) None).
    { replace N with (n1 + S (n2 + (N - S (n1 + n2)))) at 1 by lia.
      rewrite replicate_add. cbn [replicate]. by rewrite replicate_add. }
    rewrite Hraw. rewrite size_sub_le by (done || lia).
    replace (n1 + n2 - n1) with n2 by lia.
    destruct (transfer_run
                (<[b := replicate n1 None ++ Some x :: replicate n2 None
                        ++ replicate (N - S (n1 + n2)) None]> h)
                a b l1 [] ((Some <$> l2) ++ [])
                [] (replicate n1 None)
                (Some x :: replicate n2 None ++ replicate (N - S (n1 + n2)) None) 0 0)
      as (ys1 & Hys1 & Hrun1); try done.
    { by rewrite lookup_insert_ne. }
    { apply lookup_insert_eq. }
    { by rewrite length_replicate. }
    cbn [app] in Hrun1.
    destruct (transfer_run
                (<[b := (Some <$> l1) ++ Some x :: replicate n2 None
                        ++ replicate (N - S (n1 + n2)) None]>
                   (<[a := (Some <$> ys1) ++ (Some <$> l2) ++ []]>
                      (<[b := replicate n1 None ++ Some x :: replicate n2 None
                              ++ replicate (N - S (n1 + n2)) None]> h)))
                a b l2 (Some <$> ys1) []
                ((Some <$> l1) ++ [Some x]) (replicate n2 None)
                (replicate (N - S (n1 + n2)) None) (0 + n1) (0 + n1 + 1))
      as (ys2 & Hys2 & Hrun2); try done.
    { rewrite lookup_insert_ne by done. apply lookup_insert_eq. }
    { rewrite length_fmap. lia. }
    { rewrite lookup_insert_eq. by rewrite <- app_assoc. }
    { rewrite length_app, length_fmap. simpl. fold n1. lia. }
    { by rewrite length_replicate. }
    erewrite bind_run; last first.
    { apply on_unwind_run.
      lstep ltac:(apply RawMemory_plus_run; simpl; lia). cbn [buffer_].
      erewrite bind_run; last first.
      { apply lift_run_at. unfold construct_at. rewrite Hx.
        eapply emplace_at_run; [apply lookup_insert_eq|].
        apply length_middle. by rewrite length_replicate. }
      cbn [mem objs]. rewrite insert_insert_eq.
      rewrite insert_middle by (by rewrite length_replicate).
      lstep ltac:(exact Hrun1).
      apply lift_run_at. exact Hrun2. }
    cbn [RawMemory_Swap buffer_ capacity_ mem objs]. put_this.
    lstep ltac:(eapply (destroy_n_live (ys1 ++ ys2) _ a [] []);
                [rewrite lookup_insert_ne by done; rewrite lookup_insert_eq;
                 by rewrite fmap_app, !app_nil_r
                |done|rewrite length_app; lia]).
    lift_last ltac:(eapply RawMemory_dtor_run; apply lookup_insert_eq).
    exists (ys1 ++ ys2). split; [rewrite length_app; lia|].
    do 2 f_equal. cbn [app]. rewrite !app_nil_r.
    apply map_eq. intros c.
    rewrite !lookup_delete, !lookup_insert.
    repeat case_decide; subst; try done.
    rewrite fmap_app. cbn [fmap list_fmap]. by rewrite <- !app_assoc. }
  destruct Hbody as (ys & Hys & Hbody).
  step ltac:(exact Hbody).
  get_this. put_this. get_this.
  cbn [size_ data_ capacity_ buffer_].
  rewrite size_add_id by done.
  eexists _, {| size_ := n1 + n2 + 1;
                data_ := {| buffer_ := Some b; capacity_ := N |} |}.
  split; [|split; [|split]].
  - reflexivity.
  - cbn [objs]. by rewrite insert_insert_eq.
  - unfold represents. cbn [mem size_ data_ capacity_ buffer_].
    rewrite !length_app. cbn [length]. fold n1 n2.
    repeat split; try lia.
    rewrite lookup_delete_ne by done. rewrite lookup_insert_ne by done.
    rewrite lookup_insert_eq. do 3 f_equal. lia.
  - done.
Qed.

End Methods.

(* ================================================================== *)
(** ** Whatever a call does: postconditions for returning and throwing *)

Section WP.
Context {S : Type}.
Implicit Types (s : S) (E : exn → S → Prop).

Lemma wp_ret {A} (a : A) s (Q : A → S → Prop) E : Q a s → wp (mret a) s Q E.
Proof. done. Qed.

Lemma wp_throw {A} e s (Q : A → S → Prop) E : E e s → wp (throw e) s Q E.
Proof. done. Qed.

Lemma wp_undef {A} s (Q : A → S → Prop) E : wp undef s Q E.
Proof. done. Qed.

Lemma wp_bind {A B} (m : ST S A) (f : A → ST S B) s (Q : B → S → Prop) E :
  wp m s (λ a s1, wp (f a) s1 Q E) E → wp (m ≫= f) s Q E.
Proof.
  unfold wp, mbind, ST_bind. by destruct (m s) as [[a|e|] s1].
Qed.

Lemma wp_mono {A} (m : ST S A) s (Q Q' : A → S → Prop) E E' :
  wp m s Q E → (∀ a s', Q a s' → Q' a s') → (∀ e s', E e s' → E' e s') →
  wp m s Q' E'.
Proof.
  unfold wp. destruct (m s) as [[a|e|] s1]; auto.
Qed.

Lemma wp_on_unwind {A} (m : ST S A) (c : ST S unit) s (Q : A → S → Prop) E :
  wp m s Q (λ e s1, wp c s1 (λ _ s2, E e s2) (λ _ _, True)) →
  wp (on_unwind m c) s Q E.
Proof.
  unfold wp, on_unwind. destruct (m s) as [[a|e|] s1]; [done| |done].
  by destruct (c s1) as [[[]|e'|] s2].
Qed.

Lemma wp_run {A} (m : ST S A) s (Q : A → S → Prop) E r s' :
  wp m s Q E → m s = (r, s') →
  match r with Ret a => Q a s' | Throw e => E e s' | Undef => True end.
Proof. unfold wp. intros Hwp Heq. by rewrite Heq in Hwp. Qed.

Lemma wp_conj {A} (m : ST S A) s (Q Q' : A → S → Prop) E E' :
  wp m s Q E → wp m s Q' E' →
  wp m s (λ a s', Q a s' ∧ Q' a s') (λ e s', E e s' ∧ E' e s').
Proof. unfold wp. by destruct (m s) as [[a|e|] s1]. Qed.

End WP.

(** ** What the heap code can change *)

Section Keeps.
Context {T : Type} `{!Element T} `{!Allocator}.
Implicit Types (h : heap T) (p q : ptr) (x : T).

Section Relation.
Variable R : heap T → heap T → Prop.
Hypothesis R_refl : ∀ h, R h h.
Hypothesis R_trans : ∀ h1 h2 h3, R h1 h2 → R h2 h3 → R h1 h3.

Lemma keeps_ret {A} (a : A) : keeps R (mret a).
Proof using R_refl. intros h. by apply wp_ret. Qed.

Lemma keeps_throw {A} e : keeps R (throw e : ST (heap T) A).
Proof using R_refl. intros h. by apply wp_throw. Qed.

Lemma keeps_undef {A} : keeps R (undef : ST (heap T) A).
Proof. intros h. apply wp_undef. Qed.

Lemma keeps_bind {A B} (m : ST (heap T) A) (f : A → ST (heap T) B) :
  keeps R m → (∀ a, keeps R (f a)) → keeps R (m ≫= f).
Proof using R_trans.
  intros Hm Hf h. apply wp_bind. eapply wp_mono; [apply Hm| |done].
  intros a h1 H1. cbn beta in *.
  eapply wp_mono; [apply Hf| |]; cbn beta; intros; eapply R_trans; eauto.
Qed.

Lemma keeps_on_unwind {A} (m : ST (heap T) A) c :
  keeps R m → keeps R c → keeps R (on_unwind m c).
Proof using R_trans.
  intros Hm Hc h. apply wp_on_unwind. eapply wp_mono; [apply Hm|done|].
  intros e h1 H1. cbn beta in *.
  eapply wp_mono; [apply Hc| |]; cbn beta; intros; [eapply R_trans; eauto|done].
Qed.

Lemma keeps_slot p : keeps R (slot p).
Proof using R_refl.
  intros h. unfold wp, slot. destruct (p.1); [|done].
  destruct (h !! _); [|done]. by destruct (_ !! _).
Qed.

Lemma keeps_load p : keeps R (load p).
Proof using R_refl R_trans.
  apply keeps_bind; [apply keeps_slot|]. intros [x|]; [apply keeps_ret|apply keeps_undef].
Qed.

Lemma keeps_store p x : writable R p → keeps R (store p x).
Proof using R_refl R_trans.
  intros Hp. apply keeps_bind; [apply keeps_load|]. intros _. apply Hp.
Qed.

Lemma keeps_emplace_at p x : writable R p → keeps R (emplace_at p x).
Proof. intros Hp. apply Hp. Qed.

Lemma keeps_value_construct_at p i : writable R p → keeps R (value_construct_at p i).
Proof using R_refl.
  intros Hp. unfold value_construct_at.
  destruct (value_init i); [by apply keeps_emplace_at|apply keeps_throw].
Qed.

Lemma keeps_destroy_at p : writable R p → keeps R (destroy_at p).
Proof using R_refl R_trans.
  intros Hp. apply keeps_bind; [apply keeps_load|]. intros _. apply Hp.
Qed.

Lemma keeps_copy_construct_at p q : writable R p → keeps R (copy_construct_at p q).
Proof using R_refl R_trans.
  intros Hp. apply keeps_bind; [apply keeps_load|]. intros x.
  destruct (copy_ctor_throws x); [apply keeps_throw|by apply keeps_emplace_at].
Qed.

Lemma keeps_move_construct_at p q :
  writable R p → writable R q → keeps R (move_construct_at p q).
Proof using R_refl R_trans.
  intros Hp Hq. apply keeps_bind; [apply keeps_load|]. intros x.
  destruct (move_ctor_throws x); [apply keeps_throw|].
  apply keeps_bind; [by apply keeps_emplace_at|]. intros _. by apply keeps_store.
Qed.

Lemma keeps_destroy_n n : ∀ p, (∀ k, writable R (p +ₚ k)) → keeps R (destroy_n p n).
Proof using R_refl R_trans.
  induction n as [|n IH]; intros p Hp; [apply keeps_ret|].
  cbn [destroy_n]. apply keeps_bind.
  - apply keeps_destroy_at. specialize (Hp 0).
    unfold ptr_add in Hp. rewrite Nat.add_0_r in Hp. by destruct p.
  - intros _. apply IH. intros k. specialize (Hp (1 + k)).
    unfold ptr_add in *. simpl in *. by rewrite <- Nat.add_assoc.
Qed.

Lemma keeps_uninitialized_loop (ctor : nat → ST (heap T) unit) d n : ∀ i,
  (∀ k, keeps R (ctor k)) → (∀ k, writable R (d +ₚ k)) →
  keeps R (uninitialized_loop ctor d i n).
Proof using R_refl R_trans.
  induction n as [|n IH]; intros i Hc Hd; [apply keeps_ret|].
  cbn [uninitialized_loop]. apply keeps_bind.
  - apply keeps_on_unwind; [apply Hc|by apply keeps_destroy_n].
  - intros _. by apply IH.
Qed.

End Relation.

Lemma same_shape_refl h : same_shape h h.
Proof. done. Qed.

Lemma same_shape_trans h1 h2 h3 :
  same_shape h1 h2 → same_shape h2 h3 → same_shape h1 h3.
Proof. intros H12 H23 c. by rewrite H23. Qed.

Lemma only_at_refl b h : only_at b h h.
Proof. done. Qed.

Lemma only_at_trans b h1 h2 h3 : only_at b h1 h2 → only_at b h2 h3 → only_at b h1 h3.
Proof. intros H12 H23 c Hc. rewrite H23 by done. by apply H12. Qed.

Lemma writable_same_shape p : writable (T:=T) same_shape p.
Proof.
  intros s h. unfold wp, set_slot. destruct (p.1) as [a|]; [|done].
  destruct (h !! a) as [blk|] eqn:Ha; [|done].
  destruct (_ <? _); [|done]. intros c.
  destruct (decide (c = a)) as [->|].
  - rewrite lookup_insert_eq, Ha. simpl. by rewrite length_insert.
  - by rewrite lookup_insert_ne.
Qed.

Lemma writable_only_at b p : p.1 = b → writable (T:=T) (only_at b) p.
Proof.
  intros <- s h. unfold wp, set_slot. destruct (p.1) as [a|]; [|done].
  destruct (h !! a) as [blk|] eqn:Ha; [|done].
  destruct (_ <? _); [|done]. intros c Hc.
  rewrite lookup_insert_ne; [done|congruence].
Qed.

End Keeps.

(** ** Calls that cannot throw *)

Section NeverThrows.
Context {S : Type}.

Lemma wp_never_throws {A} (m : ST S A) s E :
  never_throws m → wp m s (λ _ _, True) E.
Proof. intros Hm. eapply wp_mono; [apply Hm|done|done]. Qed.

Lemma never_throws_assert c : never_throws (assert c : ST S unit).
Proof. by destruct c. Qed.

Lemma never_throws_bind {A B} (m : ST S A) (f : A → ST S B) :
  never_throws m → (∀ a, never_throws (f a)) → never_throws (m ≫= f).
Proof.
  intros Hm Hf s. apply wp_bind. eapply wp_mono; [apply Hm| |done].
  intros a s1 _. apply Hf.
Qed.

Lemma never_throws_on_unwind {A} (m : ST S A) c :
  never_throws m → never_throws (on_unwind m c).
Proof.
  intros Hm s. apply wp_on_unwind. eapply wp_mono; [apply Hm|done|done].
Qed.

End NeverThrows.

Section HeapNeverThrows.
Context {T : Type} `{!Element T} `{!Allocator}.
Implicit Types (h : heap T) (p q : ptr) (x : T).

Lemma never_throws_slot p : never_throws (slot (T:=T) p).
Proof.
  intros h. unfold wp, slot. destruct (p.1); [|done].
  destruct (h !! _); [|done]. by destruct (_ !! _).
Qed.

Lemma never_throws_set_slot p (s : option T) : never_throws (set_slot p s).
Proof.
  intros h. unfold wp, set_slot. destruct (p.1); [|done].
  destruct (h !! _); [|done]. by destruct (_ <? _).
Qed.

Lemma never_throws_load p : never_throws (load (T:=T) p).
Proof.
  apply never_throws_bind; [apply never_throws_slot|].
  by intros [x|].
Qed.

Lemma never_throws_store p x : never_throws (store p x).
Proof.
  apply never_throws_bind; [apply never_throws_load|].
  intros _. apply never_throws_set_slot.
Qed.

Lemma never_throws_destroy_at p : never_throws (destroy_at (T:=T) p).
Proof.
  apply never_throws_bind; [apply never_throws_load|].
  intros _. apply never_throws_set_slot.
Qed.

Lemma never_throws_destroy_n n : ∀ p, never_throws (destroy_n (T:=T) p n).
Proof.
  induction n as [|n IH]; intros p; [done|].
  apply never_throws_bind; [apply never_throws_destroy_at|]. intros _. apply IH.
Qed.

Lemma never_throws_move_construct_at p q :
  (∀ x, move_ctor_throws x = false) → never_throws (move_construct_at p q).
Proof.
  intros Hno. apply never_throws_bind; [apply never_throws_load|]. intros x.
  rewrite Hno. apply never_throws_bind; [apply never_throws_set_slot|].
  intros _. apply never_throws_store.
Qed.

Lemma never_throws_uninitialized_loop (ctor : nat → ST (heap T) unit) d n : ∀ i,
  (∀ k, never_throws (ctor k)) → never_throws (uninitialized_loop ctor d i n).
Proof.
  induction n as [|n IH]; intros i Hc; [done|].
  apply never_throws_bind; [by apply never_throws_on_unwind|].
  intros _. by apply IH.
Qed.

(** With a [noexcept] move constructor the bulk move cannot fail. *)
Lemma never_throws_uninitialized_move_n first n d :
  is_nothrow_move_constructible = true →
  never_throws (uninitialized_move_n first n d).
Proof.
  intros Hno. apply never_throws_uninitialized_loop. intros k.
  apply never_throws_move_construct_at.
  by apply nothrow_move_constructible_sound.
Qed.

Lemma never_throws_RawMemory_plus r k : never_throws (RawMemory_plus (T:=T) r k).
Proof. apply never_throws_bind; [apply never_throws_assert|done]. Qed.

Lemma never_throws_RawMemory_index r k : never_throws (RawMemory_index (T:=T) r k).
Proof. apply never_throws_bind; [apply never_throws_assert|done]. Qed.

Lemma never_throws_RawMemory_dtor r : never_throws (RawMemory_dtor (T:=T) r).
Proof.
  intros h. unfold wp, RawMemory_dtor, Deallocate, operator_delete.
  destruct (buffer_ r); [|done]. by destruct (h !! _).
Qed.

Lemma never_throws_lift {A} (m : ST (heap T) A) :
  never_throws m → never_throws (lift m).
Proof.
  intros Hm w. specialize (Hm (mem w)). unfold wp, lift in *.
  by destruct (m (mem w)) as [[a|e|] h'].
Qed.

Lemma never_throws_get_vec this : never_throws (get_vec (T:=T) this).
Proof. intros w. unfold wp, get_vec. by destruct (objs w !! this). Qed.

Lemma never_throws_put_vec this v : never_throws (put_vec (T:=T) this v).
Proof. done. Qed.

(** Rules for the calls on the world. *)
Lemma wp_lift {A} (m : ST (heap T) A) (w : world T) Q E :
  wp m (mem w) (λ a h', Q a {| mem := h'; objs := objs w |})
               (λ e h', E e {| mem := h'; objs := objs w |}) →
  wp (lift m) w Q E.
Proof. unfold wp, lift. by destruct (m (mem w)) as [[a|e|] h']. Qed.

Lemma wp_get_vec this (w : world T) Q E :
  (∀ v, objs w !! this = Some v → Q v w) → wp (get_vec this) w Q E.
Proof.
  intros HQ. unfold wp, get_vec. destruct (objs w !! this); [by apply HQ|done].
Qed.

Lemma wp_put_vec this v (w : world T) (Q : unit → world T → Prop) E :
  Q () {| mem := mem w; objs := <[this := v]> (objs w) |} →
  wp (put_vec this v) w Q E.
Proof. done. Qed.

End HeapNeverThrows.

(** ** Allocation, release and construction, whatever the heap *)

Section Blocks.
Context {T : Type} `{!Element T} `{!Allocator}.
Implicit Types (h : heap T) (p q : ptr) (x : T).

(** [RawMemory(capacity)]: the block is fresh and no longer than asked for;
    nothing else changes; [std::bad_alloc] leaves the heap as it was. *)
Lemma wp_RawMemory_ctor n h :
  wp (RawMemory_ctor n) h
    (λ nd h1, capacity_ nd = n ∧ only_at (buffer_ nd) h h1 ∧
              (buffer_ nd = None → h1 = h) ∧
              (∀ b, buffer_ nd = Some b →
                    h !! b = None ∧ ∃ blk, h1 !! b = Some blk ∧ length blk ≤ n))
    (λ _ h', h' = h).
Proof.
  unfold wp, RawMemory_ctor, Allocate, mbind, ST_bind, operator_new.
  case_bool_decide; [|by repeat split].
  destruct (_ <=? _); [|done]. cbn.
  split; [done|]. split; [|split; [done|]].
  - intros c Hc. rewrite lookup_insert_ne; [done|congruence].
  - intros b [= <-]. split; [apply fresh_None|].
    eexists. split; [apply lookup_insert_eq|].
    rewrite length_replicate. unfold size_mul.
    pose proof (wrap_le (n * sizeof_T)). pose proof sizeof_T_pos.
    apply Nat.Div0.div_le_upper_bound. lia.
Qed.

(** Giving back a block that was fresh restores the heap. *)
Lemma wp_RawMemory_dtor_fresh (nd : RawMemory) h h2 :
  only_at (buffer_ nd) h h2 →
  (∀ b, buffer_ nd = Some b → h !! b = None) →
  wp (RawMemory_dtor nd) h2 (λ _ h3, h3 = h) (λ _ _, True).
Proof.
  intros Honly Hfresh. unfold wp, RawMemory_dtor, Deallocate, operator_delete.
  destruct (buffer_ nd) as [b|].
  - destruct (h2 !! b) eqn:Hb; [|done]. apply map_eq. intros c.
    destruct (decide (c = b)) as [->|].
    + rewrite lookup_delete_eq. symmetry. by apply Hfresh.
    + rewrite lookup_delete_ne by done. apply Honly. congruence.
  - apply map_eq. intros c. by apply Honly.
Qed.

(** A placement construction whose constructor throws touches nothing; one
    that returns wrote a slot of an allocated block. *)
Lemma wp_construct_at p i h :
  wp (construct_at p i) h
    (λ _ h', only_at (p.1) h h' ∧ same_shape h h' ∧
             ∃ b blk, p.1 = Some b ∧ h !! b = Some blk ∧ p.2 < length blk)
    (λ _ h', h' = h).
Proof.
  unfold construct_at. destruct (construct i) as [x|]; [|done].
  unfold wp, emplace_at, set_slot. destruct (p.1) as [b|] eqn:Hp; [|done].
  destruct (h !! b) as [blk|] eqn:Hb; [|done].
  destruct (Nat.ltb_spec (p.2) (length blk)); [|done].
  split; [|split].
  - intros c Hc. rewrite lookup_insert_ne; [done|congruence].
  - intros c. destruct (decide (c = b)) as [->|].
    + rewrite lookup_insert_eq, Hb. simpl. by rewrite length_insert.
    + by rewrite lookup_insert_ne.
  - eauto.
Qed.

(** The bulk transfer into the block at [b], for an element type that is
    nothrow-move-constructible or copy-constructible: if it throws, only the
    target block was written. *)
Lemma wp_transfer_throw first n (b : option addr) h :
  is_nothrow_move_constructible = true ∨ is_copy_constructible = true →
  wp (if use_move then uninitialized_move_n first n (b, 0)
      else uninitialized_copy_n first n (b, 0)) h
     (λ _ _, True) (λ _ h', only_at b h h').
Proof.
  intros Hty. unfold use_move.
  destruct is_nothrow_move_constructible eqn:Hno; cbn [orb].
  - by apply wp_never_throws, never_throws_uninitialized_move_n.
  - destruct Hty as [|Hcopy]; [done|]. rewrite Hcopy. cbn [negb].
    eapply wp_mono; [|done|by intros e h' Hh'; exact Hh'].
    apply (keeps_uninitialized_loop (only_at b));
      [apply only_at_refl|apply only_at_trans| |].
    + intros k. apply keeps_copy_construct_at;
        [apply only_at_refl|apply only_at_trans|by apply writable_only_at].
    + intros k. by apply writable_only_at.
Qed.

End Blocks.

(** ** EmplaceBack when something throws *)

Section StrongGuarantee.
Context {T : Type} `{!Element T} `{!Allocator}.
Implicit Types (h : heap T) (w : world T) (this : var).

Lemma world_eta w h : h = mem w → {| mem := h; objs := objs w |} = w.
Proof. intros ->. by destruct w. Qed.

(** Whatever the state, an [EmplaceBack] that throws leaves it as it was,
    for an element type that is nothrow-move-constructible or
    copy-constructible. *)
Lemma wp_RawMemory_plus (r : RawMemory) k h :
  wp (RawMemory_plus r k) h
     (λ p h', h' = h ∧ p = (buffer_ r, k) ∧ k ≤ capacity_ r) (λ _ _, False).
Proof.
  unfold wp, RawMemory_plus, mbind, ST_bind, assert.
  destruct (Nat.leb_spec k (capacity_ r)); [|done]. by cbn.
Qed.

(** Whatever the state, an [EmplaceBack] that throws leaves it as it was,
    for an element type that is nothrow-move-constructible or
    copy-constructible. *)
Lemma EmplaceBack_throw_unchanged w this args :
  is_nothrow_move_constructible = true ∨ is_copy_constructible = true →
  wp (EmplaceBack this args) w (λ _ _, True) (λ _ w', w' = w).
Proof.
  intros Hty. unfold EmplaceBack.
  apply wp_bind, wp_get_vec. intros v Hv.
  apply wp_bind.
  eapply wp_mono with (Q := λ _ _, True) (E := λ _ w', w' = w); [|
    intros _ w1 _; apply wp_never_throws;
    apply never_throws_bind; [apply never_throws_get_vec|]; intros v1;
    apply never_throws_bind; [apply never_throws_put_vec|]; intros _;
    apply never_throws_bind; [apply never_throws_get_vec|]; intros v2;
    apply never_throws_lift, never_throws_RawMemory_index | done].
  destruct (size_ v <? Capacity (data_ v)).
  - (* in place: only the constructor can throw *)
    apply wp_bind, wp_lift.
    eapply wp_mono; [apply wp_RawMemory_plus| |done].
    intros p h1 (-> & _ & _). cbn beta. rewrite world_eta by done.
    apply wp_lift. eapply wp_mono; [apply wp_construct_at|done|].
    intros e h' ->. by apply world_eta.
  - (* a new block: allocation, the constructor or the copies can throw *)
    apply wp_bind, wp_lift.
    eapply wp_mono; [apply wp_RawMemory_ctor| |]; cbn beta;
      [|by intros e h' ->; apply world_eta].
    intros nd h1 (Hcap & Honly & Hnull & Hfresh).
    apply wp_bind, wp_on_unwind.
    eapply wp_mono
      with (Q := λ _ _, True)
           (E := λ _ w2, objs w2 = objs w ∧ only_at (buffer_ nd) (mem w) (mem w2)).
    + apply wp_bind, wp_lift. cbn [mem objs].
      eapply wp_mono; [apply wp_RawMemory_plus| |done].
      intros p h2 (-> & -> & _). cbn beta.
      apply wp_bind, wp_lift. cbn [mem objs].
      eapply wp_mono; [apply wp_construct_at| |]; cbn beta;
        [|by intros e h' ->].
      intros _ h2 (Honly2 & _). cbn [fst] in Honly2.
      apply wp_lift. cbn [mem objs].
      eapply wp_mono; [by apply wp_transfer_throw|done|]. cbn beta.
      intros e h3 Honly3. split; [done|].
      eapply only_at_trans; [done|]. by eapply only_at_trans.
    + intros _ w2 _. cbn beta.
      destruct (RawMemory_Swap (data_ v) nd) as [d nd'].
      apply wp_never_throws.
      apply never_throws_bind; [apply never_throws_put_vec|]; intros _.
      apply never_throws_bind;
        [apply never_throws_lift, never_throws_destroy_n|]; intros _.
      apply never_throws_lift, never_throws_RawMemory_dtor.
    + intros e [h2 o2] [Ho Honly2]. cbn [mem objs] in *. subst o2.
      apply wp_lift. cbn [mem objs].
      eapply wp_mono; [by apply wp_RawMemory_dtor_fresh; [|apply Hfresh]| |done].
      intros _ h3 ->. by apply world_eta.
Qed.

End StrongGuarantee.

(** ** The field invariant along every call *)

Section Invariant.
Context {T : Type} `{!Element T} `{!Allocator}.
Implicit Types (h : heap T) (w : world T) (this : var) (v : Vector).
Implicit Types (o : gmap var Vector).

Lemma all_ok_empty : all_ok ∅.
Proof. intros x v. by rewrite lookup_empty. Qed.

Lemma all_ok_insert o this v : all_ok o → fields_ok v → all_ok (<[this := v]> o).
Proof.
  intros Ho Hv x v'. rewrite lookup_insert. case_decide; [|apply Ho].
  by intros [= <-].
Qed.

Lemma all_ok_delete o this : all_ok o → all_ok (delete this o).
Proof.
  intros Ho x v'. rewrite lookup_delete. case_decide; [done|apply Ho].
Qed.

Lemma fields_ok_size_t v : fields_ok v → is_size_t (size_ v).
Proof. intros [Hle Hty]. by eapply is_size_t_le. Qed.

(** A call on the heap leaves the objects alone. *)
Lemma wp_lift_any {A} (m : ST (heap T) A) w (Q : A → world T → Prop) E :
  (∀ a h', Q a {| mem := h'; objs := objs w |}) →
  (∀ e h', E e {| mem := h'; objs := objs w |}) →
  wp (lift m) w Q E.
Proof.
  intros HQ HE. apply wp_lift. unfold wp. destruct (m (mem w)) as [[a|e|] h']; auto.
Qed.

Lemma wp_lift_nothrow {A} (m : ST (heap T) A) w (Q : A → world T → Prop) E :
  never_throws m →
  (∀ a h', Q a {| mem := h'; objs := objs w |}) →
  wp (lift m) w Q E.
Proof.
  intros Hm HQ. apply wp_lift. eapply wp_mono; [apply Hm| |done].
  intros a h' _. apply HQ.
Qed.

Lemma wp_new_vec this v w (Q : unit → world T → Prop) E :
  Q () {| mem := mem w; objs := <[this := v]> (objs w) |} →
  wp (new_vec this v) w Q E.
Proof. intros HQ. unfold wp, new_vec. by destruct (objs w !! this). Qed.

Lemma wp_ptr_sub (p : ptr) k h :
  wp (ptr_sub p k) h (λ q h', h' = h ∧ k ≤ p.2 ∧ q = (p.1, p.2 - k)) (λ _ _, False).
Proof. unfold wp, ptr_sub. by destruct (Nat.leb_spec k (p.2)). Qed.

Lemma wp_RawMemory_index (r : RawMemory) k h :
  wp (RawMemory_index r k) h
     (λ p h', h' = h ∧ p = (buffer_ r, k) ∧ k < capacity_ r) (λ _ _, False).
Proof.
  unfold wp, RawMemory_index, mbind, ST_bind, assert.
  destruct (Nat.ltb_spec k (capacity_ r)); [|done]. by cbn.
Qed.

(** Doubling a capacity modulo [2^64] either grows it or falls below it. *)
Lemma double_grows c :
  is_size_t c → c ≤ size_mul c 2 → c = 0 ∨ c < size_mul c 2.
Proof.
  unfold is_size_t, size_mul, wrap. intros Hc Hle.
  pose proof (N.div_mod (N.of_nat (c * 2)) (2 ^ 64)) as Hdm.
  pose proof (N.mod_lt (N.of_nat (c * 2)) (2 ^ 64)) as Hlt.
  set (q := (N.of_nat (c * 2) / 2 ^ 64)%N) in *.
  set (r := (N.of_nat (c * 2) mod 2 ^ 64)%N) in *.
  lia.
Qed.

Lemma preserves_fields_Swap this other : preserves_fields (T:=T) (Swap this other).
Proof.
  intros w Ho. unfold Swap.
  apply wp_bind, wp_get_vec. intros v Hv.
  apply wp_bind, wp_get_vec. intros v' Hv'.
  pose proof (Ho _ _ Hv) as Hfv. pose proof (Ho _ _ Hv') as Hfv'.
  cbn [swap_vectors RawMemory_Swap].
  apply wp_bind, wp_put_vec, wp_put_vec. cbn [objs].
  by repeat apply all_ok_insert.
Qed.

Lemma preserves_fields_move_assign this rhs :
  preserves_fields (T:=T) (Vector_move_assign this rhs).
Proof.
  intros w Ho. unfold Vector_move_assign.
  apply wp_bind, wp_get_vec. intros v Hv.
  apply wp_bind, wp_get_vec. intros r Hr.
  pose proof (Ho _ _ Hr) as Hfr.
  case_bool_decide; [|by apply wp_ret].
  cbn [RawMemory_move_assign].
  apply wp_bind, wp_put_vec, wp_put_vec. cbn [objs].
  repeat apply all_ok_insert; try done.
  all: split; cbn; [lia|done].
Qed.

Lemma preserves_fields_new_move this other :
  preserves_fields (T:=T) (Vector_new_move this other).
Proof.
  intros w Ho. unfold Vector_new_move.
  apply wp_bind, wp_get_vec. intros r Hr.
  pose proof (Ho _ _ Hr) as Hfr.
  cbn [RawMemory_move_assign].
  apply wp_bind, wp_new_vec, wp_put_vec. cbn [objs].
  repeat apply all_ok_insert; try done.
  all: split; cbn; [lia|done].
Qed.

Lemma preserves_fields_delete this : preserves_fields (T:=T) (Vector_delete this).
Proof.
  intros w Ho. unfold Vector_delete.
  apply wp_bind, wp_get_vec. intros v Hv.
  apply wp_bind, wp_lift_any; [|done].
  intros _ h'. unfold wp, del_vec. cbn. by apply all_ok_delete.
Qed.

(** *** Writes that return stayed inside an allocated block *)

Lemma in_block_shape h h' p n : same_shape h h' → in_block h' p n → in_block h p n.
Proof.
  intros Hs (b & blk & Hp & Hb & Hn). specialize (Hs b). rewrite Hb in Hs.
  destruct (h !! b) as [blk0|] eqn:Hb0; [|done]. simpl in Hs.
  exists b, blk0. split; [done|]. split; [done|]. injection Hs as Hs. lia.
Qed.

Lemma wp_const {S A} (m : ST S A) s (P : Prop) : P → wp m s (λ _ _, P) (λ _ _, True).
Proof. intros HP. unfold wp. by destruct (m s) as [[a|e|] s1]. Qed.

Lemma wp_set_slot_in_block (p : ptr) (x : option T) h :
  wp (set_slot p x) h (λ _ _, in_block h p 1) (λ _ _, True).
Proof.
  unfold wp, set_slot, in_block. destruct (p.1) as [b|]; [|done].
  destruct (h !! b) as [blk|] eqn:Hb; [|done].
  destruct (Nat.ltb_spec (p.2) (length blk)); [|done].
  exists b, blk. repeat split; [done|lia].
Qed.

Lemma wp_load_same (p : ptr) h (Q : T → heap T → Prop) E :
  (∀ x, Q x h) → wp (load p) h Q E.
Proof.
  intros HQ. unfold wp, load, mbind, ST_bind, slot.
  destruct (p.1) as [b|]; [|done]. destruct (h !! b) as [blk|]; [|done].
  destruct (blk !! p.2) as [[x|]|]; [apply HQ|done|done].
Qed.

Lemma wp_move_construct_at_in_block (p q : ptr) h :
  wp (move_construct_at p q) h (λ _ _, in_block h p 1) (λ _ _, True).
Proof.
  unfold move_construct_at. apply wp_bind, wp_load_same. intros x.
  destruct (move_ctor_throws x); [done|].
  apply wp_bind. eapply wp_mono; [apply wp_set_slot_in_block| |done].
  intros ? h1 Hin. by apply wp_const.
Qed.

Lemma wp_copy_construct_at_in_block (p q : ptr) h :
  wp (copy_construct_at p q) h (λ _ _, in_block h p 1) (λ _ _, True).
Proof.
  unfold copy_construct_at. apply wp_bind, wp_load_same. intros x.
  destruct (copy_ctor_throws x); [done|].
  apply wp_set_slot_in_block.
Qed.

Lemma wp_uninitialized_loop_in_block (ctor : nat → ST (heap T) unit) (d : ptr) n :
  (∀ k, keeps same_shape (ctor k)) →
  (∀ k h, wp (ctor k) h (λ _ _, in_block h (d +ₚ k) 1) (λ _ _, True)) →
  ∀ i h,
    wp (uninitialized_loop ctor d i n) h
       (λ _ h', same_shape h h' ∧ (n = 0 ∨ in_block h (d +ₚ i) n))
       (λ _ h', same_shape h h').
Proof.
  intros Hkeep Hin. induction n as [|n IH]; intros i h.
  { apply wp_ret. split; [done|by left]. }
  cbn [uninitialized_loop]. apply wp_bind, wp_on_unwind.
  eapply wp_mono; [apply (wp_conj _ _ _ _ _ _ (Hkeep i h) (Hin i h))| |].
  - intros ? h1 [Hs Hb]. cbn beta.
    eapply wp_mono; [apply (IH (S i) h1)| |].
    + intros ? h2 [Hs2 Hn]. split; [by eapply same_shape_trans|].
      right. destruct Hn as [->|Hn].
      * done.
      * eapply in_block_shape in Hn; [|done].
        destruct Hb as (b & blk & Hp & Hblk & Hlen).
        destruct Hn as (b' & blk' & Hp' & Hblk' & Hlen').
        cbn in Hp, Hp'. assert (b' = b) as -> by congruence.
        assert (blk' = blk) as -> by congruence.
        exists b, blk. cbn in *. repeat split; try done. lia.
    + intros e h2 Hs2. by eapply same_shape_trans.
  - intros e h1 [Hs _]. cbn beta.
    eapply wp_mono;
      [apply (keeps_destroy_n same_shape same_shape_refl same_shape_trans)| |done].
    + intros k. apply writable_same_shape.
    + intros ? h2 Hs2. by eapply same_shape_trans.
Qed.

(** The bulk transfer of the source, whatever the heap. *)
Lemma wp_transfer_in_block (first d : ptr) n h :
  wp (if use_move then uninitialized_move_n first n d
      else uninitialized_copy_n first n d) h
     (λ _ h', same_shape h h' ∧ (n = 0 ∨ in_block h d n))
     (λ _ h', same_shape h h').
Proof.
  assert (Hd : d +ₚ 0 = d) by (destruct d; unfold ptr_add; cbn; f_equal; lia).
  destruct use_move.
  - unfold uninitialized_move_n.
    eapply wp_mono; [apply wp_uninitialized_loop_in_block| |done].
    + intros k. apply keeps_move_construct_at;
        [apply same_shape_refl|apply same_shape_trans| |];
        apply writable_same_shape.
    + intros k h0. apply wp_move_construct_at_in_block.
    + intros ? h' [Hs Hn]. by rewrite Hd in Hn.
  - unfold uninitialized_copy_n.
    eapply wp_mono; [apply wp_uninitialized_loop_in_block| |done].
    + intros k. apply keeps_copy_construct_at;
        [apply same_shape_refl|apply same_shape_trans|];
        apply writable_same_shape.
    + intros k h0. apply wp_copy_construct_at_in_block.
    + intros ? h' [Hs Hn]. by rewrite Hd in Hn.
Qed.

(** *** The methods that relocate *)

(** [Reserve], whatever the state: a return leaves the size alone and the
    capacity at the larger of the old one and the one asked for; a throw
    leaves the object alone. *)
Lemma wp_Reserve this n w v :
  objs w !! this = Some v →
  wp (Reserve this n) w
     (λ _ w', ∃ d, objs w' = <[this := {| size_ := size_ v; data_ := d |}]> (objs w)
                   ∧ capacity_ d = Nat.max n (capacity_ (data_ v)))
     (λ _ w', objs w' = objs w).
Proof.
  intros Hv. unfold Reserve. apply wp_bind, wp_get_vec. intros v0 Hv0.
  assert (v0 = v) as -> by congruence. unfold Capacity.
  destruct (Nat.leb_spec n (capacity_ (data_ v))).
  { apply wp_ret. exists (data_ v). split; [|lia].
    rewrite insert_id; [done|]. by destruct v. }
  apply wp_bind, wp_lift.
  eapply wp_mono; [apply wp_RawMemory_ctor| |done]. cbn beta.
  intros nd h1 (Hcap & _). cbn [objs].
  apply wp_bind, wp_on_unwind, wp_lift_any; cbn [objs]; [|by intros; apply wp_lift_any].
  intros _ h2.
  apply wp_bind, wp_lift_nothrow; [apply never_throws_destroy_n|].
  intros _ h3. cbn [objs].
  cbn [RawMemory_Swap].
  apply wp_bind, wp_put_vec, wp_lift_nothrow; [apply never_throws_RawMemory_dtor|].
  intros _ h4. cbn [objs]. eexists. split; [done|]. cbn. lia.
Qed.

(** [EmplaceWithRealloc], whatever the state: a return leaves the size alone
    and a capacity above it; a throw leaves the object alone. *)
Lemma wp_EmplaceWithRealloc this dist args w v :
  objs w !! this = Some v → fields_ok v →
  wp (EmplaceWithRealloc this dist args) w
     (λ _ w', ∃ d, objs w' = <[this := {| size_ := size_ v; data_ := d |}]> (objs w)
                   ∧ size_ v < capacity_ d ∧ is_size_t (capacity_ d))
     (λ _ w', objs w' = objs w).
Proof.
  intros Hv [Hle Hty]. unfold EmplaceWithRealloc.
  apply wp_bind, wp_get_vec. intros v0 Hv0.
  assert (v0 = v) as -> by congruence.
  set (N := if size_ v =? 0 then 1 else size_mul (size_ v) 2).
  assert (HN : is_size_t N).
  { subst N. destruct (size_ v =? 0); [done|apply wrap_size_t]. }
  apply wp_bind, wp_lift.
  eapply wp_mono; [apply wp_RawMemory_ctor| |done]. cbn beta.
  intros nd h1 (Hcap & _ & _ & Hblk). cbn [objs mem].
  apply wp_bind, wp_on_unwind.
  eapply wp_mono
    with (Q := λ _ w2, objs w2 = objs w ∧ size_ v < N)
         (E := λ _ w2, objs w2 = objs w).
  - apply wp_bind, wp_lift. cbn [mem objs].
    eapply wp_mono; [apply wp_RawMemory_plus| |done].
    intros p h2 (-> & -> & _). cbn beta.
    apply wp_bind, wp_lift. cbn [mem objs].
    eapply wp_mono; [apply wp_construct_at| |done]. cbn beta.
    intros _ h2 (_ & Hs2 & b & blk & Hb & Hblk1 & Hdist). cbn [fst snd] in *.
    destruct (Hblk b Hb) as (_ & blk' & Hblk' & HlenN).
    assert (blk' = blk) as -> by congruence.
    apply wp_bind, wp_lift. cbn [mem objs].
    eapply wp_mono; [apply wp_transfer_in_block| |done]. cbn beta.
    intros _ h3 [Hs3 _].
    apply wp_lift. cbn [mem objs].
    eapply wp_mono; [apply wp_transfer_in_block| |done]. cbn beta.
    intros _ h4 [Hs4 Hcount]. split; [done|].
    assert (Hsz : is_size_t (size_ v)) by (by eapply is_size_t_le).
    destruct (Nat.le_gt_cases dist (size_ v)) as [Hd|Hd]; [|lia].
    rewrite size_sub_le in Hcount by done.
    destruct Hcount as [Hz|Hin]; [lia|].
    apply (in_block_shape h1 h3) in Hin;
      [|exact (same_shape_trans _ _ _ Hs2 Hs3)].
    destruct Hin as (b' & blk'' & Hb' & Hblk'' & Hlen). cbn in Hb', Hlen.
    assert (b' = b) as -> by congruence.
    assert (blk'' = blk) as -> by congruence. lia.
  - intros _ [h2 o2] [Ho HszN]. cbn [mem objs] in *. subst o2.
    cbn [RawMemory_Swap]. apply wp_bind, wp_put_vec. cbn [mem objs].
    apply wp_bind, wp_lift_nothrow; [apply never_throws_destroy_n|].
    intros _ h3. cbn [objs].
    apply wp_lift_nothrow; [apply never_throws_RawMemory_dtor|].
    intros _ h4. cbn [objs].
    eexists. split; [done|]. cbn. by rewrite Hcap.
  - intros e [h2 o2] Ho. cbn [mem objs] in *. subst o2.
    by apply wp_lift_any.
Qed.

Lemma wp_EmplaceWithoutRealloc this dist args w :
  wp (EmplaceWithoutRealloc this dist args) w
     (λ _ w', objs w' = objs w) (λ _ w', objs w' = objs w).
Proof.
  unfold EmplaceWithoutRealloc. apply wp_bind, wp_get_vec. intros v Hv.
  destruct (construct args) as [copy_obj|]; [|done].
  apply wp_bind, wp_lift_any; [|done]. intros e h1. cbn [objs].
  apply wp_bind, wp_lift_any; [|done]. intros back h2. cbn [objs].
  apply wp_bind, wp_lift_any; [|done]. intros _ h3. cbn [objs].
  apply wp_bind, wp_lift_any; [|done]. intros last h4. cbn [objs].
  apply wp_bind, wp_lift_any; [|done]. intros _ h5. cbn [objs].
  apply wp_bind, wp_lift_any; [|done]. intros p h6. cbn [objs].
  destruct (move_assign_throws copy_obj); [done|].
  by apply wp_lift_any.
Qed.

Lemma preserves_fields_Reserve this n : is_size_t n → preserves_fields (T:=T) (Reserve this n).
Proof.
  intros Hn w Ho.
  destruct (objs w !! this) as [v|] eqn:Hv; last first.
  { unfold Reserve. apply wp_bind, wp_get_vec. congruence. }
  pose proof (Ho _ _ Hv) as [Hle Hty].
  eapply wp_mono; [by apply wp_Reserve| |]; cbn beta.
  - intros _ w' (d & -> & Hcap). apply all_ok_insert; [done|].
    split; cbn; rewrite Hcap; [lia|].
    destruct (Nat.max_spec n (capacity_ (data_ v))) as [[_ ->]|[_ ->]]; done.
  - by intros _ w' ->.
Qed.

Lemma preserves_fields_EmplaceWithRealloc this dist args :
  preserves_fields (T:=T) (EmplaceWithRealloc this dist args).
Proof.
  intros w Ho.
  destruct (objs w !! this) as [v|] eqn:Hv; last first.
  { unfold EmplaceWithRealloc. apply wp_bind, wp_get_vec. congruence. }
  eapply wp_mono; [by eapply wp_EmplaceWithRealloc; [|apply (Ho this)]| |]; cbn beta.
  - intros _ w' (d & -> & Hsz & Hty). apply all_ok_insert; [done|].
    split; cbn; [lia|done].
  - by intros _ w' ->.
Qed.

Lemma preserves_fields_EmplaceWithoutRealloc this dist args :
  preserves_fields (T:=T) (EmplaceWithoutRealloc this dist args).
Proof.
  intros w Ho.
  eapply wp_mono; [apply wp_EmplaceWithoutRealloc| |]; by intros _ w' ->.
Qed.

Lemma preserves_fields_EmplaceBack this args : preserves_fields (T:=T) (EmplaceBack this args).
Proof.
  intros w Ho. unfold EmplaceBack.
  apply wp_bind, wp_get_vec. intros v Hv.
  pose proof (Ho _ _ Hv) as [Hle Hty].
  (* what the first statement leaves: the object with its size and room *)
  apply wp_bind.
  eapply wp_mono
    with (Q := λ _ w1, ∃ d, objs w1 = <[this := {| size_ := size_ v; data_ := d |}]> (objs w)
                            ∧ size_ v < capacity_ d ∧ is_size_t (capacity_ d))
         (E := λ _ w1, objs w1 = objs w).
  - unfold Capacity. destruct (Nat.ltb_spec (size_ v) (capacity_ (data_ v))).
    + apply wp_bind, wp_lift_any; [|done]. intros p h1. cbn [objs].
      apply wp_lift_any; [|done]. intros _ h2. cbn [objs].
      exists (data_ v). split; [|done].
      rewrite insert_id; [done|]. by destruct v.
    + assert (Hfull : size_ v = capacity_ (data_ v)) by lia.
      apply wp_bind, wp_lift.
      eapply wp_mono; [apply wp_RawMemory_ctor| |done]. cbn beta.
      intros nd h1 (Hcap & _). cbn [objs mem].
      apply wp_bind, wp_on_unwind.
      eapply wp_mono
        with (Q := λ _ w2, objs w2 = objs w ∧ size_ v ≤ capacity_ nd)
             (E := λ _ w2, objs w2 = objs w).
      * apply wp_bind, wp_lift. cbn [mem objs].
        eapply wp_mono; [apply wp_RawMemory_plus| |done].
        intros p h2 (-> & -> & Hplus). cbn beta.
        apply wp_bind, wp_lift_any; [|done]. intros _ h3. cbn [objs].
        by apply wp_lift_any.
      * intros _ [h2 o2] [Ho2 Hplus]. cbn [mem objs] in *. subst o2.
        cbn [RawMemory_Swap]. apply wp_bind, wp_put_vec. cbn [mem objs].
        apply wp_bind, wp_lift_nothrow; [apply never_throws_destroy_n|].
        intros _ h3. cbn [objs].
        apply wp_lift_nothrow; [apply never_throws_RawMemory_dtor|].
        intros _ h4. cbn [objs].
        eexists. split; [done|]. cbn [capacity_].
        rewrite Hcap in *. rewrite <- Hfull in *.
        destruct (Nat.eqb_spec (size_ v) 0) as [Hz|Hnz].
        { rewrite Hz. split; [lia|done]. }
        split; [|apply wrap_size_t].
        destruct (double_grows (size_ v)); [done|done|lia|done].
      * intros e [h2 o2] Ho2. cbn [mem objs] in *. subst o2.
        by apply wp_lift_any.
  - intros _ [h1 o1] (d & Ho1 & Hsz & Hdty). cbn [mem objs] in *. subst o1.
    apply wp_bind, wp_get_vec. cbn [objs]. intros v1. rewrite lookup_insert_eq.
    intros [= <-]. cbn [size_ data_].
    apply wp_bind, wp_put_vec. cbn [mem objs].
    assert (Hok : all_ok (<[this := {| size_ := size_add (size_ v) 1; data_ := d |}]>
                            (<[this := {| size_ := size_ v; data_ := d |}]> (objs w)))).
    { repeat apply all_ok_insert; try done.
      - split; cbn; [lia|done].
      - split; cbn; [|done]. unfold size_add.
        pose proof (wrap_le (size_ v + 1)). lia. }
    apply wp_bind, wp_get_vec. cbn [objs]. intros v2 Hv2.
    by apply wp_lift_any.
  - by intros e w1 ->.
Qed.

Lemma preserves_fields_bind_ret {A} (m : ST (world T) A) :
  preserves_fields m → preserves_fields (_ ← m; mret ()).
Proof.
  intros Hm w Ho. apply wp_bind. eapply wp_mono; [by apply Hm| |done].
  intros a w' Ho'. by apply wp_ret.
Qed.

Lemma preserves_fields_Emplace this pos args : preserves_fields (T:=T) (Emplace this pos args).
Proof.
  intros w Ho. unfold Emplace.
  apply wp_bind, wp_get_vec. intros v Hv.
  pose proof (Ho _ _ Hv) as [Hle Hty].
  apply wp_bind, wp_lift_any; [|done]. intros e h1. cbn [objs].
  case_bool_decide.
  { eapply wp_mono; [by apply preserves_fields_EmplaceBack|done|done]. }
  apply wp_bind, wp_lift_any; [|done]. intros dist h2. cbn [objs].
  apply wp_bind.
  eapply wp_mono
    with (Q := λ _ w1, ∃ d, objs w1 = <[this := {| size_ := size_ v; data_ := d |}]> (objs w)
                            ∧ size_ v < capacity_ d ∧ is_size_t (capacity_ d))
         (E := λ _ w1, objs w1 = objs w).
  - unfold Capacity. destruct (Nat.ltb_spec (size_ v) (capacity_ (data_ v))).
    + eapply wp_mono; [apply wp_EmplaceWithoutRealloc| |done]. cbn [objs].
      intros _ w1 ->. exists (data_ v). split; [|done].
      rewrite insert_id; [done|]. by destruct v.
    + by apply (wp_EmplaceWithRealloc this dist args {| mem := h2; objs := objs w |} v).
  - intros _ [h3 o3] (d & Ho3 & Hsz & Hdty). cbn [mem objs] in *. subst o3.
    apply wp_bind, wp_get_vec. cbn [objs]. intros v1. rewrite lookup_insert_eq.
    intros [= <-]. cbn [size_ data_].
    apply wp_bind, wp_put_vec. cbn [mem objs].
    assert (Hok : all_ok (<[this := {| size_ := size_add (size_ v) 1; data_ := d |}]>
                            (<[this := {| size_ := size_ v; data_ := d |}]> (objs w)))).
    { repeat apply all_ok_insert; try done.
      - split; cbn; [lia|done].
      - split; cbn; [|done]. unfold size_add.
        pose proof (wrap_le (size_ v + 1)). lia. }
    apply wp_bind, wp_get_vec. cbn [objs]. intros v2 Hv2.
    by apply wp_ret.
  - by intros ? w1 ->.
Qed.

Lemma preserves_fields_Erase this pos : preserves_fields (T:=T) (Erase this pos).
Proof.
  intros w Ho. unfold Erase.
  apply wp_bind, wp_get_vec. intros v Hv.
  pose proof (Ho _ _ Hv) as [Hle Hty].
  apply wp_bind, wp_lift_any; [|done]. intros dist h1. cbn [objs].
  apply wp_bind, wp_lift_any; [|done]. intros e h2. cbn [objs].
  apply wp_bind, wp_lift_any; [|done]. intros _ h3. cbn [objs].
  apply wp_bind, wp_lift. cbn [mem objs].
  eapply wp_mono; [apply wp_RawMemory_index| |done].
  intros back h4 (-> & _ & Hidx). cbn beta.
  apply wp_bind, wp_lift_any; [|done]. intros _ h5. cbn [objs].
  apply wp_bind, wp_put_vec. cbn [mem objs].
  assert (Hok : all_ok (<[this := {| size_ := size_sub (size_ v) 1; data_ := data_ v |}]>
                          (objs w))).
  { apply all_ok_insert; [done|]. split; cbn; [lia|done]. }
  apply wp_bind, wp_get_vec. cbn [objs]. intros v2 Hv2.
  by apply wp_ret.
Qed.

Lemma preserves_fields_PopBack this : preserves_fields (T:=T) (PopBack this).
Proof.
  intros w Ho. unfold PopBack.
  apply wp_bind, wp_get_vec. intros v Hv.
  pose proof (Ho _ _ Hv) as [Hle Hty].
  apply wp_bind, wp_lift. cbn [mem objs].
  eapply wp_mono; [apply wp_ptr_sub| |done].
  intros p h1 (-> & Hone & _). cbn beta. cbn in Hone.
  apply wp_bind, wp_lift_any; [|done]. intros _ h2. cbn [objs].
  apply wp_put_vec. cbn [objs].
  apply all_ok_insert; [done|]. split; cbn; [|done].
  rewrite size_sub_le; [lia|lia|by eapply is_size_t_le].
Qed.

Lemma preserves_fields_Resize this n : is_size_t n → preserves_fields (T:=T) (Resize this n).
Proof.
  intros Hn w Ho. unfold Resize.
  apply wp_bind, wp_get_vec. intros v Hv.
  pose proof (Ho _ _ Hv) as [Hle Hty].
  case_bool_decide; [|by apply wp_ret].
  destruct (Nat.ltb_spec n (size_ v)).
  { apply wp_bind, wp_lift_any; [|done]. intros _ h1. cbn [objs].
    apply wp_put_vec. cbn [objs]. apply all_ok_insert; [done|].
    split; cbn; [lia|done]. }
  destruct (Nat.ltb_spec (size_ v) n); [|by apply wp_ret].
  apply wp_bind.
  eapply wp_mono
    with (Q := λ _ w1, ∃ d, objs w1 = <[this := {| size_ := size_ v; data_ := d |}]> (objs w)
                            ∧ n ≤ capacity_ d ∧ is_size_t (capacity_ d))
         (E := λ _ w1, objs w1 = objs w).
  - unfold Capacity. destruct (Nat.ltb_spec (capacity_ (data_ v)) n).
    + eapply wp_mono; [by apply (wp_Reserve this n w v)| |done]. cbn beta.
      intros _ w1 (d & Ho1 & Hcap). exists d. split; [done|].
      rewrite Hcap. split; [lia|].
      destruct (Nat.max_spec n (capacity_ (data_ v))) as [[_ ->]|[_ ->]]; done.
    + apply wp_ret. exists (data_ v). split; [|done].
      rewrite insert_id; [done|]. by destruct v.
  - intros _ [h1 o1] (d & Ho1 & Hsz & Hdty). cbn [mem objs] in *. subst o1.
    apply wp_bind, wp_get_vec. cbn [objs]. intros v1. rewrite lookup_insert_eq.
    intros [= <-]. cbn [size_ data_].
    assert (Hok : all_ok (<[this := {| size_ := size_ v; data_ := d |}]> (objs w))).
    { apply all_ok_insert; [done|]. split; cbn; [lia|done]. }
    apply wp_bind, wp_lift_any; [|done]. intros _ h2. cbn [objs].
    apply wp_put_vec. cbn [objs]. apply all_ok_insert; [done|].
    split; cbn; [lia|done].
  - by intros e w1 ->.
Qed.

Lemma wp_any {S A} (m : ST S A) s (Q : A → S → Prop) (E : exn → S → Prop) :
  (∀ a s', Q a s') → (∀ e s', E e s') → wp m s Q E.
Proof. intros HQ HE. unfold wp. destruct (m s) as [[a|e|] s1]; auto. Qed.

Lemma wp_Vector_sized n h :
  wp (Vector_sized n) h
     (λ v _, size_ v = n ∧ capacity_ (data_ v) = n) (λ _ _, True).
Proof.
  unfold Vector_sized. apply wp_bind.
  eapply wp_mono; [apply wp_RawMemory_ctor| |done]. cbn beta.
  intros nd h1 (Hcap & _).
  apply wp_bind, wp_any; [|done]. intros _ h2. by apply wp_ret.
Qed.

Lemma wp_Vector_copy_ctor (other : Vector) h :
  wp (Vector_copy_ctor other) h
     (λ v _, size_ v = size_ other ∧ capacity_ (data_ v) = size_ other)
     (λ _ _, True).
Proof.
  unfold Vector_copy_ctor, Size. apply wp_bind.
  eapply wp_mono; [apply wp_RawMemory_ctor| |done]. cbn beta.
  intros nd h1 (Hcap & _).
  apply wp_bind, wp_any; [|done]. intros _ h2. by apply wp_ret.
Qed.

Lemma preserves_fields_new_sized this n :
  is_size_t n → preserves_fields (T:=T) (Vector_new_sized this n).
Proof.
  intros Hn w Ho. unfold Vector_new_sized.
  apply wp_bind, wp_lift.
  eapply wp_mono; [apply wp_Vector_sized| |done]. cbn beta.
  intros v h1 [Hsz Hcap]. apply wp_new_vec. cbn [objs].
  apply all_ok_insert; [done|]. split; [lia|by rewrite Hcap].
Qed.

Lemma preserves_fields_new_copy this other :
  preserves_fields (T:=T) (Vector_new_copy this other).
Proof.
  intros w Ho. unfold Vector_new_copy.
  apply wp_bind, wp_get_vec. intros r Hr.
  pose proof (Ho _ _ Hr) as Hfr.
  apply wp_bind, wp_lift.
  eapply wp_mono; [apply wp_Vector_copy_ctor| |done]. cbn beta.
  intros v h1 [Hsz Hcap]. apply wp_new_vec. cbn [objs].
  apply all_ok_insert; [done|]. split; [lia|].
  rewrite Hcap. by apply fields_ok_size_t.
Qed.

Lemma preserves_fields_copy_assign this rhs :
  preserves_fields (T:=T) (Vector_copy_assign this rhs).
Proof.
  intros w Ho. unfold Vector_copy_assign.
  apply wp_bind, wp_get_vec. intros v Hv.
  apply wp_bind, wp_get_vec. intros r Hr.
  pose proof (Ho _ _ Hv) as [Hle Hty]. pose proof (Ho _ _ Hr) as Hfr.
  pose proof (fields_ok_size_t _ Hfr) as Hrsz.
  assert (Hid : <[this := v]> (objs w) = objs w) by (by apply insert_id).
  apply wp_bind.
  eapply wp_mono
    with (Q := λ _ w1, ∃ v1, objs w1 = <[this := v1]> (objs w)
                             ∧ is_size_t (capacity_ (data_ v1))
                             ∧ size_ r ≤ capacity_ (data_ v1)
                             ∧ (this = rhs → v1 = v))
         (E := λ _ w1, objs w1 = objs w).
  - case_bool_decide as Hne; last first.
    { subst rhs. assert (r = v) as -> by congruence.
      apply wp_ret. by exists v. }
    unfold Capacity. destruct (Nat.ltb_spec (capacity_ (data_ v)) (size_ r)).
    + apply wp_bind, wp_lift.
      eapply wp_mono; [apply wp_Vector_copy_ctor| |done]. cbn beta.
      intros c h1 [Hsz Hcap]. cbn [swap_vectors RawMemory_Swap].
      apply wp_bind, wp_put_vec. cbn [mem objs].
      apply wp_lift_nothrow.
      { apply never_throws_bind; [apply never_throws_destroy_n|].
        intros _. apply never_throws_RawMemory_dtor. }
      intros _ h2. cbn [objs]. eexists. split; [done|].
      cbn. by rewrite Hcap.
    + apply wp_bind, wp_lift_any; [|done]. intros _ h1. cbn [objs].
      destruct (size_ r <? size_ v).
      * apply wp_lift_any; [|done]. intros _ h2. cbn [objs]. by exists v.
      * apply wp_bind, wp_lift_any; [|done]. intros first h2. cbn [objs].
        apply wp_bind, wp_lift_any; [|done]. intros last h3. cbn [objs].
        apply wp_bind, wp_lift_any; [|done]. intros d_first h4. cbn [objs].
        apply wp_lift_any; [|done]. intros _ h5. cbn [objs]. by exists v.
  - intros _ [h1 o1] (v1 & Ho1 & Hty1 & Hsz1 & Hself). cbn [mem objs] in *. subst o1.
    apply wp_bind, wp_get_vec. cbn [objs]. intros v2. rewrite lookup_insert_eq.
    intros [= <-].
    apply wp_bind, wp_get_vec. cbn [objs]. intros r2 Hr2.
    assert (Hr2sz : size_ r2 ≤ capacity_ (data_ v1)).
    { rewrite lookup_insert in Hr2. case_decide as Heq.
      - injection Hr2 as <-. rewrite (Hself Heq). subst rhs.
        assert (r = v) as -> by congruence. by rewrite Hself in Hsz1.
      - by assert (r2 = r) as -> by congruence. }
    apply wp_put_vec. cbn [objs]. rewrite insert_insert_eq.
    apply all_ok_insert; [done|]. by split.
  - by intros e w1 ->.
Qed.

Lemma run_call_preserves_fields (c : call T) :
  well_typed c → preserves_fields (run_call c).
Proof.
  destruct c; cbn [well_typed run_call]; intros Hty.
  - intros w Ho. apply wp_new_vec. cbn [objs].
    apply all_ok_insert; [done|]. by split.
  - by apply preserves_fields_new_sized.
  - apply preserves_fields_new_copy.
  - apply preserves_fields_new_move.
  - apply preserves_fields_delete.
  - apply preserves_fields_copy_assign.
  - apply preserves_fields_move_assign.
  - apply preserves_fields_Swap.
  - by apply preserves_fields_Reserve.
  - by apply preserves_fields_Resize.
  - apply preserves_fields_bind_ret, preserves_fields_EmplaceBack.
  - apply preserves_fields_bind_ret, preserves_fields_EmplaceBack.
  - apply preserves_fields_PopBack.
  - apply preserves_fields_bind_ret, preserves_fields_EmplaceBack.
  - apply preserves_fields_bind_ret, preserves_fields_Emplace.
  - apply preserves_fields_bind_ret, preserves_fields_Emplace.
  - apply preserves_fields_bind_ret, preserves_fields_Emplace.
  - apply preserves_fields_bind_ret, preserves_fields_Erase.
  - apply preserves_fields_EmplaceWithoutRealloc.
  - apply preserves_fields_EmplaceWithRealloc.
Qed.

Lemma reachable_all_ok w : reachable w → all_ok (objs w).
Proof.
  induction 1 as [|w c w' _ IH Hty Hrun|w c e w' _ IH Hty Hrun].
  - apply all_ok_empty.
  - apply (wp_run _ _ _ _ _ _ (run_call_preserves_fields c Hty w IH) Hrun).
  - apply (wp_run _ _ _ _ _ _ (run_call_preserves_fields c Hty w IH) Hrun).
Qed.

End Invariant.

(* ================================================================== *)
(** ** Insertion and removal by index; sequences of appends *)

Section Sequences.
Context {T : Type} `{!Element T} `{!Allocator}.
Implicit Types (h : heap T) (w : world T) (this : var) (v : Vector).
Implicit Types (l xs : list T) (x y : T).

Lemma nothrow_transfer_ok l : Forall nothrow l → transfer_ok l.
Proof.
  unfold transfer_ok. intros Hl. eapply Forall_impl; [exact Hl|].
  intros y (Hc & Hm & _). by destruct use_move.
Qed.

Lemma nothrow_shift_ok l : Forall nothrow l → shift_ok l.
Proof.
  unfold shift_ok. intros Hl. eapply Forall_impl; [exact Hl|].
  by intros y (_ & _ & Ha).
Qed.

Lemma capacity_from_le size capacity n : capacity ≤ capacity_from size capacity n.
Proof.
  revert size capacity. induction n as [|n IH]; intros size capacity; [done|].
  cbn [capacity_from]. etrans; [|apply IH].
  destruct (size <? capacity); [done|]. unfold grown. lia.
Qed.

(** The capacities are 1, 2, 4, 8, ...: the least power of two that holds
    the elements. *)
Lemma capacity_from_pow2 n : ∀ size capacity,
  (size = 0 ∧ capacity = 0) ∨ (0 < size ∧ capacity = 2 ^ Nat.log2_up size) →
  0 < size + n →
  capacity_from size capacity n = 2 ^ Nat.log2_up (size + n).
Proof.
  induction n as [|n IH]; intros size capacity Hinv Hpos.
  { cbn. rewrite Nat.add_0_r. destruct Hinv as [[-> _]|[_ ->]]; [lia|done]. }
  cbn [capacity_from]. replace (size + S n) with (S size + n) by lia.
  apply IH; [|lia]. right. split; [lia|].
  destruct Hinv as [[-> ->]|[Hsz ->]]; [done|].
  set (k := Nat.log2_up size).
  assert (Hk : size ≤ 2 ^ k).
  { destruct (decide (size = 1)) as [->|]; [subst k; cbn; lia|].
    apply Nat.log2_up_spec. lia. }
  destruct (Nat.ltb_spec size (2 ^ k)) as [Hlt|Hge].
  - f_equal. symmetry. destruct (decide (size = 1)) as [->|Hne].
    { subst k. cbn in Hlt. lia. }
    apply Nat.log2_up_unique.
    + subst k. apply Nat.log2_up_pos. lia.
    + pose proof (Nat.log2_up_spec size ltac:(lia)) as [Hlo _]. fold k in Hlo. lia.
  - assert (Heq : size = 2 ^ k) by lia. unfold grown.
    replace (Nat.max 1 (2 ^ k * 2)) with (2 ^ S k) by (rewrite Nat.pow_succ_r'; lia).
    f_equal. symmetry. apply Nat.log2_up_unique; [lia|].
    cbn [Nat.pred]. rewrite Nat.pow_succ_r'. lia.
Qed.

Lemma capacity_after_pow2 n : 0 < n → capacity_after n = 2 ^ Nat.log2_up n.
Proof. intros Hn. unfold capacity_after. by rewrite capacity_from_pow2; [|left|]. Qed.

Lemma append_all_run argss : ∀ w this v l xs,
  objs w !! this = Some v → represents (mem w) v l →
  Forall2 (λ args x, construct args = Some x) argss xs →
  transfer_ok (l ++ xs) →
  capacity_from (length l) (capacity_ (data_ v)) (length xs) * sizeof_T ≤ max_bytes →
  ∃ w' v',
    append_all this argss w = (Ret (), w') ∧
    objs w' = <[this := v']> (objs w) ∧
    represents (mem w') v' (l ++ xs) ∧
    capacity_ (data_ v') = capacity_from (length l) (capacity_ (data_ v)) (length xs).
Proof.
  induction argss as [|args argss IH]; intros w this v l xs Hv Hrep Hargs Hok Hmem.
  - apply Forall2_nil_inv_l in Hargs as ->. exists w, v.
    rewrite app_nil_r. split; [done|]. split; [|done].
    by rewrite insert_id.
  - apply Forall2_cons_inv_l in Hargs as (x & xs' & Hx & Hargs & ->).
    cbn [length capacity_from] in Hmem.
    set (c' := if length l <? capacity_ (data_ v) then capacity_ (data_ v)
               else grown (capacity_ (data_ v))) in *.
    destruct (EmplaceBack_run w this v l args x) as (w1 & v1 & Hrun & Ho1 & Hrep1 & Hcap1);
      try done.
    { intros Hfull. split.
      - unfold transfer_ok in *. by apply Forall_app in Hok as [Hok _].
      - pose proof (capacity_from_le (S (length l)) c' (length xs')) as Hle.
        subst c'. destruct (Nat.ltb_spec (length l) (capacity_ (data_ v))); [lia|].
        pose proof sizeof_T_pos. nia. }
    destruct (IH w1 this v1 (l ++ [x]) xs') as (w2 & v2 & Hrun2 & Ho2 & Hrep2 & Hcap2).
    + rewrite Ho1. apply lookup_insert_eq.
    + done.
    + done.
    + by rewrite <- app_assoc.
    + rewrite length_app, Hcap1. cbn [length]. by rewrite Nat.add_1_r.
    + exists w2, v2. cbn [append_all].
      erewrite bind_run by exact Hrun. split; [done|].
      split; [by rewrite Ho2, Ho1, insert_insert_eq|].
      split; [by rewrite <- app_assoc in Hrep2|].
      rewrite Hcap2, length_app, Hcap1. cbn [length capacity_from].
      by rewrite Nat.add_1_r.
Qed.

(** Each append is a call of [EmplaceBack], whose result the two
    [PushBack] drop. *)
Lemma run_append_EmplaceBack this (a : append T) w :
  run_append this a w = (_ ← EmplaceBack this (append_args a); mret ()) w.
Proof. by destruct a. Qed.

Lemma appends_append_all this (apps : list (append T)) : ∀ w,
  appends this apps w = append_all this (append_args <$> apps) w.
Proof.
  induction apps as [|a apps IH]; intros w; [done|].
  cbn [appends append_all fmap list_fmap].
  unfold mbind, ST_bind. rewrite run_append_EmplaceBack.
  unfold mbind, ST_bind.
  destruct (EmplaceBack this (append_args a) w) as [[p|e|] w1]; [|done|done].
  apply IH.
Qed.

(** Each insertion is a call of [Emplace]. *)
Lemma run_insertion_Emplace this pos (ins : insertion T) :
  run_insertion this pos ins = Emplace this pos (insertion_args ins).
Proof. by destruct ins. Qed.

(** What [Insert] inserts is the value it was given. *)
Lemma insertion_value (ins : insertion T) x value :
  construct (insertion_args ins) = Some x →
  ins = ByInsert value ∨ ins = ByInsertMove value → x = value.
Proof.
  intros Hx [-> | ->]; cbn in Hx.
  - destruct (copy_ctor_throws value); congruence.
  - destruct (move_ctor_throws value); congruence.
Qed.

(** [Emplace] at the end is [EmplaceBack]. *)
Lemma Emplace_at_end w this v l args x :
  objs w !! this = Some v → represents (mem w) v l →
  construct args = Some x →
  (length l = capacity_ (data_ v) →
   transfer_ok l ∧ grown (capacity_ (data_ v)) * sizeof_T ≤ max_bytes) →
  ∃ w' v',
    Emplace this (begin_ v +ₚ length l) args w
    = (Ret (begin_ v' +ₚ length l), w') ∧
    objs w' = <[this := v']> (objs w) ∧
    represents (mem w') v' (l ++ [x]) ∧
    capacity_ (data_ v')
    = (if length l <? capacity_ (data_ v) then capacity_ (data_ v)
       else grown (capacity_ (data_ v))).
Proof.
  intros Hv Hrep Hx Hfull.
  destruct (EmplaceBack_run w this v l args x) as (w' & v' & Hrun & Hrest); try done.
  exists w', v'. split; [|done].
  destruct Hrep as (Hsz & Hle & _). destruct w as [h o]. cbn [mem objs] in *.
  unfold Emplace. get_this.
  lstep ltac:(apply RawMemory_plus_run; lia).
  unfold begin_, GetAddress, ptr_add. cbn [fst snd].
  rewrite bool_decide_eq_true_2 by (by rewrite Hsz).
  exact Hrun.
Qed.

(** [Emplace] at offset [i]: the new element lands at [i], what was there
    and behind moves up by one. *)
Lemma Emplace_at w this v l i args x :
  objs w !! this = Some v → represents (mem w) v l → i ≤ length l →
  construct args = Some x → Forall nothrow (x :: l) →
  (length l = capacity_ (data_ v) →
   grown (capacity_ (data_ v)) * sizeof_T ≤ max_bytes) →
  ∃ w' v',
    Emplace this (begin_ v +ₚ i) args w = (Ret (begin_ v' +ₚ i), w') ∧
    objs w' = <[this := v']> (objs w) ∧
    represents (mem w') v' (take i l ++ x :: drop i l) ∧
    capacity_ (data_ v')
    = (if length l <? capacity_ (data_ v) then capacity_ (data_ v)
       else grown (capacity_ (data_ v))).
Proof.
  intros Hv Hrep Hi Hx Hno Hmem.
  apply Forall_cons in Hno as [Hnx Hnl].
  destruct (decide (i = length l)) as [->|Hne].
  { rewrite take_ge, drop_ge by lia.
    apply Emplace_at_end; try done.
    intros Hfull. split; [by apply nothrow_transfer_ok|by apply Hmem]. }
  assert (Hlt : i < length l) by lia.
  pose proof (take_drop i l) as Hsplit.
  assert (Hlen1 : length (take i l) = i) by (apply length_take_le; lia).
  assert (Hne2 : drop i l ≠ []).
  { intros Hnil. apply (f_equal length) in Hnil. rewrite length_drop in Hnil.
    simpl in Hnil. lia. }
  assert (Hnd : Forall nothrow (drop i l)) by (by apply Forall_drop).
  destruct (Nat.ltb_spec (length l) (capacity_ (data_ v))) as [Hroom|Hfull].
  - destruct (exists_last Hne2) as (l2 & lst & Hl2).
    rewrite Hl2 in Hnd. apply Forall_app in Hnd as [Hn2 Hnlst].
    apply Forall_inv in Hnlst. destruct Hnlst as (_ & Hlst & _).
    destruct (Emplace_in_place w this v (take i l) l2 lst args x)
      as (w' & v' & Hrun & Ho & Hrep' & Hcap'); try done.
    + by rewrite <- Hl2, Hsplit.
    + by rewrite <- Hl2, Hsplit.
    + by apply nothrow_shift_ok.
    + by destruct Hnx as (_ & _ & Hxa).
    + exists w', v'. rewrite Hlen1 in Hrun. rewrite Hl2.
      split; [done|split; [done|split; done]].
  - assert (Hcap : length l = capacity_ (data_ v)).
    { destruct Hrep as (_ & Hle & _). lia. }
    destruct (Emplace_realloc w this v (take i l) (drop i l) args x)
      as (w' & v' & Hrun & Ho & Hrep' & Hcap'); try done.
    + by rewrite Hsplit.
    + by rewrite Hsplit.
    + rewrite Hsplit. by apply nothrow_transfer_ok.
    + by apply Hmem.
    + exists w', v'. rewrite Hlen1 in Hrun. split; [done|split; [done|split; done]].
Qed.

(** [Erase] at offset [i]: the element at [i] goes, what was behind moves
    down by one. *)
Lemma Erase_at w this v l i :
  objs w !! this = Some v → represents (mem w) v l → i < length l →
  shift_ok (drop (S i) l) →
  ∃ w' v',
    Erase this (begin_ v +ₚ i) w = (Ret (begin_ v' +ₚ i), w') ∧
    objs w' = <[this := v']> (objs w) ∧
    represents (mem w') v' (delete i l) ∧
    data_ v' = data_ v ∧
    others (mem w') v' = others (mem w) v.
Proof.
  intros Hv Hrep Hi Hok.
  destruct (lookup_lt_is_Some_2 l i Hi) as [y Hy].
  pose proof (take_drop_middle l i y Hy) as Hsplit.
  assert (Hlen1 : length (take i l) = i) by (apply length_take_le; lia).
  destruct (Erase_run w this v (take i l) y (drop (S i) l))
    as (w' & v' & Hrun & Ho & Hrep' & Hdata & Hoth); try done.
  { by rewrite Hsplit. }
  exists w', v'. rewrite Hlen1 in Hrun. rewrite delete_take_drop.
  split; [done|split; [done|split; [done|split; done]]].
Qed.

(** The elements of a list with one more element at [i]. *)
Lemma lookup_insert_at l i x :
  i ≤ length l →
  (take i l ++ x :: drop i l) !! i = Some x ∧
  (∀ j, j < i → (take i l ++ x :: drop i l) !! j = l !! j) ∧
  (∀ j, i ≤ j → (take i l ++ x :: drop i l) !! S j = l !! j).
Proof.
  intros Hi. assert (Hlen : length (take i l) = i) by (apply length_take_le; lia).
  split; [|split].
  - by apply lookup_middle.
  - intros j Hj. rewrite lookup_app_l by lia. by apply lookup_take_lt.
  - intros j Hj. rewrite lookup_app_r by lia. rewrite Hlen.
    replace (S j - i) with (S (j - i)) by lia.
    change ((x :: drop i l) !! S (j - i)) with (drop i l !! (j - i)).
    rewrite lookup_drop. f_equal. lia.
Qed.

End Sequences.

(** ** More on the capacities of a row of appends, and on a constructor
    that throws *)

Section Growth.
Context {T : Type} `{!Element T} `{!Allocator}.
Implicit Types (h : heap T) (w : world T) (this : var) (v : Vector).

Lemma capacity_from_add size capacity n m :
  capacity_from size capacity (n + m)
  = capacity_from (size + n) (capacity_from size capacity n) m.
Proof.
  revert size capacity. induction n as [|n IH]; intros size capacity.
  { cbn. by rewrite Nat.add_0_r. }
  cbn [Nat.add capacity_from]. rewrite IH. f_equal. lia.
Qed.

Lemma capacity_after_S k :
  capacity_after (S k)
  = (if k <? capacity_after k then capacity_after k
     else Nat.max 1 (capacity_after k * 2)).
Proof.
  unfold capacity_after. replace (S k) with (k + 1) by lia.
  by rewrite capacity_from_add.
Qed.

Lemma capacity_after_mono k n : k ≤ n → capacity_after k ≤ capacity_after n.
Proof.
  intros Hk. unfold capacity_after. replace n with (k + (n - k)) by lia.
  rewrite capacity_from_add. apply capacity_from_le.
Qed.

Lemma capacity_after_closed k :
  capacity_after k = (if k =? 0 then 0 else 2 ^ Nat.log2_up k).
Proof.
  destruct (Nat.eqb_spec k 0) as [->|]; [done|]. apply capacity_after_pow2. lia.
Qed.

Lemma represents_default h : represents h Vector_default [].
Proof. unfold represents. cbn. repeat split; lia. Qed.

(** On a full vector, a constructor that throws makes [EmplaceBack] throw,
    in the state the call started from. *)
Lemma EmplaceBack_construct_fails w this v (l : list T) args :
  objs w !! this = Some v → represents (mem w) v l →
  length l = capacity_ (data_ v) → construct args = None →
  ∃ e, EmplaceBack this args w = (Throw e, w).
Proof.
  intros Hv (Hsz & Hle & Hbytes & Hblk) Hfull Hx.
  destruct v as [sz [buf cap]], w as [h o].
  cbn [size_ data_ capacity_ buffer_ mem objs] in *. subst sz cap.
  unfold EmplaceBack. get_this. cbn [size_ data_ capacity_ buffer_ Capacity].
  destruct (Nat.ltb_spec (length l) (length l)); [lia|].
  assert (Hnew : (if length l =? 0 then 1 else size_mul (length l) 2)
                 = grown (length l)).
  { unfold grown. destruct (Nat.eqb_spec (length l) 0) as [->|]; [done|].
    rewrite size_mul_id; [lia|]. by apply double_size_t. }
  rewrite Hnew. rewrite bind_assoc.
  assert (Hpos : grown (length l) ≠ 0) by (unfold grown; lia).
  assert (Hlt : length l ≤ grown (length l)) by (unfold grown; lia).
  destruct (size_mul (grown (length l)) sizeof_T <=? max_bytes) eqn:Hgrant.
  - (* the block is granted, the constructor throws, the block goes back *)
    set (b := fresh (dom h)).
    set (blk := replicate (size_mul (grown (length l)) sizeof_T `div` sizeof_T) (@None T)).
    erewrite bind_run; last first.
    { apply lift_run_at. unfold RawMemory_ctor, Allocate.
      rewrite bool_decide_eq_true_2 by done.
      erewrite bind_run; [reflexivity|].
      erewrite bind_run; [reflexivity|].
      unfold operator_new. rewrite Hgrant. reflexivity. }
    rewrite bind_assoc. erewrite bind_throw; [by exists element_exn|].
    eapply on_unwind_throw.
    + lstep ltac:(apply RawMemory_plus_run; simpl; lia).
      erewrite bind_throw; [reflexivity|].
      apply lift_run_at. unfold construct_at. rewrite Hx. reflexivity.
    + erewrite lift_run_at; last first.
      { eapply RawMemory_dtor_run. apply lookup_insert_eq. }
      by rewrite delete_insert_id by apply fresh_None.
  - (* std::bad_alloc *)
    erewrite bind_throw; [by exists bad_alloc|].
    apply lift_run_at. unfold RawMemory_ctor, Allocate.
    rewrite bool_decide_eq_true_2 by done.
    erewrite bind_throw; [reflexivity|].
    erewrite bind_throw; [reflexivity|].
    unfold operator_new. by rewrite Hgrant.
Qed.

(** On a full vector, an allocation that [operator new] refuses makes
    [EmplaceBack] throw [std::bad_alloc], in the state the call started
    from. *)
Lemma EmplaceBack_alloc_fails w this v (l : list T) args :
  objs w !! this = Some v → represents (mem w) v l →
  length l = capacity_ (data_ v) →
  max_bytes < size_mul (grown (capacity_ (data_ v))) sizeof_T →
  EmplaceBack this args w = (Throw bad_alloc, w).
Proof.
  intros Hv (Hsz & Hle & Hbytes & Hblk) Hfull Hrefused.
  destruct v as [sz [buf cap]], w as [h o].
  cbn [size_ data_ capacity_ buffer_ mem objs] in *. subst sz cap.
  unfold EmplaceBack. get_this. cbn [size_ data_ capacity_ buffer_ Capacity].
  destruct (Nat.ltb_spec (length l) (length l)); [lia|].
  assert (Hnew : (if length l =? 0 then 1 else size_mul (length l) 2)
                 = grown (length l)).
  { unfold grown. destruct (Nat.eqb_spec (length l) 0) as [->|]; [done|].
    rewrite size_mul_id; [lia|]. by apply double_size_t. }
  rewrite Hnew. rewrite bind_assoc.
  assert (Hpos : grown (length l) ≠ 0) by (unfold grown; lia).
  erewrite bind_throw; [reflexivity|].
  apply lift_run_at. unfold RawMemory_ctor, Allocate.
  rewrite bool_decide_eq_true_2 by done.
  erewrite bind_throw; [reflexivity|].
  erewrite bind_throw; [reflexivity|].
  unfold operator_new.
  by destruct (Nat.leb_spec (size_mul (grown (length l)) sizeof_T) max_bytes); [lia|].
Qed.

(** On a full vector, a relocation in which the constructor of the element
    [y] throws, after the new element has been constructed and the elements
    before [y] have been transferred: the call throws and the new block is
    released.  On the copy branch the state is the one the call started
    from; on the move branch the elements before [y] are left as the moves
    left them. *)
Lemma EmplaceBack_transfer_fails w this v (l1 : list T) y l2 args x :
  objs w !! this = Some v → represents (mem w) v (l1 ++ y :: l2) →
  length (l1 ++ y :: l2) = capacity_ (data_ v) →
  construct args = Some x →
  grown (capacity_ (data_ v)) * sizeof_T ≤ max_bytes →
  transfer_ok l1 →
  (if use_move then move_ctor_throws y else copy_ctor_throws y) = true →
  ∃ a, buffer_ (data_ v) = Some a ∧
    EmplaceBack this args w
    = (Throw element_exn,
       {| mem := if use_move
                 then <[a := Some <$> ((moved_from <$> l1) ++ y :: l2)]> (mem w)
                 else mem w;
          objs := objs w |}).
Proof.
  intros Hv (Hsz & Hle & Hbytes & Hblk) Hfull Hx Hgrown Hl1 Hy.
  destruct v as [sz [buf cap]], w as [h o].
  cbn [size_ data_ capacity_ buffer_ mem objs] in *. subst sz cap.
  set (l := l1 ++ y :: l2) in *.
  assert (Hlen : length l = length l1 + S (length l2)).
  { subst l. rewrite length_app. by cbn [length]. }
  destruct buf as [a|]; [|lia]. destruct Hblk as [_ Ha].
  rewrite Nat.sub_diag in Ha. cbn [replicate] in Ha. rewrite app_nil_r in Ha.
  exists a. split; [done|].
  unfold EmplaceBack. get_this. cbn [size_ data_ capacity_ buffer_ Capacity].
  destruct (Nat.ltb_spec (length l) (length l)); [lia|].
  assert (Hnew : (if length l =? 0 then 1 else size_mul (length l) 2)
                 = grown (length l)).
  { unfold grown. destruct (Nat.eqb_spec (length l) 0) as [->|]; [done|].
    rewrite size_mul_id; [lia|]. by apply double_size_t. }
  rewrite Hnew. rewrite bind_assoc.
  assert (Hpos : 0 < grown (length l)) by (unfold grown; lia).
  assert (Hlt : length l < grown (length l)) by (unfold grown; lia).
  erewrite bind_run; last first.
  { apply lift_run_at. by apply RawMemory_ctor_run. }
  set (b := fresh (dom h)).
  assert (Hab : a ≠ b) by (by eapply fresh_ne).
  assert (Hb0 : h !! b = None) by apply fresh_None.
  set (B := <[length l := Some x]> (replicate (grown (length l)) (@None T))).
  assert (HB : B = replicate (length l1) None ++ drop (length l1) B).
  { rewrite <- (take_drop (length l1) B) at 1. f_equal. subst B.
    rewrite take_insert_ge by lia. rewrite take_replicate. f_equal. lia. }
  assert (Hsrc : (Some <$> l) = (Some <$> l1) ++ Some y :: (Some <$> l2) ++ []).
  { subst l. by rewrite fmap_app, fmap_cons, app_nil_r. }
  rewrite bind_assoc. erewrite bind_throw; last first.
  { eapply on_unwind_throw.
    - lstep ltac:(apply RawMemory_plus_run; simpl; lia). cbn [buffer_].
      erewrite bind_run; last first.
      { apply lift_run_at. unfold construct_at. rewrite Hx.
        eapply emplace_at_run; [apply lookup_insert_eq|].
        rewrite length_replicate. lia. }
      fold B. rewrite insert_insert_eq.
      apply lift_run_at. unfold GetAddress. cbn [buffer_]. rewrite Hlen.
      instantiate (1 := if use_move
                        then <[a := (Some <$> (moved_from <$> l1))
                                    ++ Some y :: (Some <$> l2) ++ []]> (<[b := B]> h)
                        else <[b := B]> h).
      unfold transfer_ok in Hl1. destruct use_move.
      + apply (uninitialized_move_n_throws _ a b l1 y l2 [] (drop (length l1) B));
          try done.
        * rewrite lookup_insert_ne by done. by rewrite Ha, Hsrc.
        * rewrite lookup_insert_eq. by rewrite <- HB.
      + apply (uninitialized_copy_n_throws _ a b l1 y l2 [] (drop (length l1) B));
          try done.
        * rewrite lookup_insert_ne by done. by rewrite Ha, Hsrc.
        * rewrite lookup_insert_eq. by rewrite <- HB.
    - apply lift_run_at. eapply RawMemory_dtor_run.
      instantiate (1 := B). destruct use_move.
      + rewrite lookup_insert_ne by done. apply lookup_insert_eq.
      + apply lookup_insert_eq. }
  do 2 f_equal. destruct use_move.
  - rewrite delete_insert_ne by done. rewrite delete_insert_id by done.
    by rewrite app_nil_r, fmap_app, fmap_cons.
  - by rewrite delete_insert_id.
Qed.

End Growth.

(* ================================================================== *)
(** * The properties of the container *)

Section MoveAssignment.
Context {T : Type} `{!Element T} `{!Allocator}.

(** Move assignment between two distinct vectors never touches the heap: the
    destination takes the source's block and size, and the block the
    destination owned stays allocated with its elements alive. *)
Lemma move_assign_keeps_heap (w : world T) this rhs v r l a :
  this ≠ rhs →
  objs w !! this = Some v → objs w !! rhs = Some r →
  represents (mem w) v l → buffer_ (data_ v) = Some a →
  ∃ w',
    Vector_move_assign this rhs w = (Ret (), w') ∧
    mem w' = mem w ∧
    mem w' !! a = Some ((Some <$> l) ++ replicate (capacity_ (data_ v) - length l) None) ∧
    objs w' !! this = Some {| size_ := size_ r;
                              data_ := {| buffer_ := buffer_ (data_ r);
                                          capacity_ := capacity_ (data_ r) |} |} ∧
    objs w' !! rhs = Some Vector_default.
Proof.
  intros Hne Hv Hr (_ & _ & _ & Hblk) Ha. rewrite Ha in Hblk. destruct Hblk as [_ Hblk].
  destruct w as [h o]. cbn [mem objs] in *.
  unfold Vector_move_assign. get_this.
  step ltac:(by apply get_vec_at).
  rewrite bool_decide_eq_true_2 by done. cbn [RawMemory_move_assign].
  put_this. eexists. split; [reflexivity|]. cbn [mem objs].
  split; [done|]. split; [done|]. split.
  - rewrite lookup_insert_ne by done. apply lookup_insert_eq.
  - apply lookup_insert_eq.
Qed.

End MoveAssignment.

Section OnInts.
#[local] Existing Instance int_element.
#[local] Existing Instance small_heap.

(** C1 (the code does not do it): [a = std::move(b)] with [a = [1; 2]] and
    [b = [3]] returns with the block of [a] still allocated, its two
    elements never destroyed, and no vector owning it: neither [Deallocate]
    nor a destructor ran on what the destination held. *)
Theorem move_assign_leaks_destination :
  Vector_move_assign 0 1 two_vectors = (Ret (), after_move_assign) ∧
  represents (mem two_vectors) (vec 2 1%positive 2) [1; 2] ∧
  mem after_move_assign !! 1%positive = Some [Some 1; Some 2] ∧
  objs after_move_assign !! 0 = Some (vec 1 2%positive 1) ∧
  ∀ x v, objs after_move_assign !! x = Some v → buffer_ (data_ v) ≠ Some 1%positive.
Proof.
  split; [vm_compute; reflexivity|].
  split; [repeat split; cbn; lia|].
  split; [reflexivity|]. split; [reflexivity|].
  intros x v. unfold after_move_assign. cbn [objs].
  rewrite lookup_insert. case_decide; [by intros [= <-]|].
  rewrite lookup_singleton. case_decide; [by intros [= <-]|done].
Qed.

End OnInts.

Section Claims.
Context {T : Type} `{!Element T} `{!Allocator}.
Implicit Types (h : heap T) (w : world T) (this : var) (v : Vector).
Implicit Types (l xs : list T) (x y : T).

(** C2: in every state a program can reach by public calls, whether they
    returned or threw, every vector has [size <= capacity]. *)
Theorem size_le_capacity w this v :
  reachable w → objs w !! this = Some v → size_ v ≤ capacity_ (data_ v).
Proof. intros Hw Hv. by destruct (reachable_all_ok w Hw this v Hv). Qed.

(** C3: appends to a default-constructed vector, each by [PushBack] (of a
    copy or of a move) or by [EmplaceBack].  The elements are the values
    pushed, at the places the appends have in the row; and after each of the
    first [k] of the [n] appends the size is [k], the elements are the first
    [k] values in the order they were appended, and the capacity is the
    least power of two that holds them (1, 2, 4, 8, ...), which is what the
    growth rule gives: an append that finds [size = capacity] leaves
    [max(1, capacity * 2)].  The appends return when the constructors and
    the relocations do not throw and the allocator grants the last block. *)
Theorem appends_fill_in_order w this (apps : list (append T)) xs :
  objs w !! this = Some Vector_default →
  Forall2 (λ app x, construct (append_args app) = Some x) apps xs →
  transfer_ok xs →
  capacity_after (length xs) * sizeof_T ≤ max_bytes →
  (∀ i value,
     apps !! i = Some (ByPushBack value) ∨ apps !! i = Some (ByPushBackMove value) →
     xs !! i = Some value) ∧
  ∀ k, k ≤ length xs →
    ∃ w' v',
      appends this (take k apps) w = (Ret (), w') ∧
      objs w' !! this = Some v' ∧
      represents (mem w') v' (take k xs) ∧
      size_ v' = k ∧
      capacity_ (data_ v') = capacity_after k ∧
      capacity_after k = (if k =? 0 then 0 else 2 ^ Nat.log2_up k) ∧
      capacity_after (S k)
      = (if k <? capacity_after k then capacity_after k
         else Nat.max 1 (capacity_after k * 2)).
Proof.
  intros Hv Hargs Hok Hmem. split.
  { intros i value Hi.
    assert (∃ a, apps !! i = Some a ∧ construct (append_args a) = Some value)
      as (a & Ha & Hc).
    { destruct Hi as [Hi|Hi]; eexists; (split; [exact Hi|]); cbn.
      - destruct (Forall2_lookup_l _ _ _ _ _ Hargs Hi) as (x & _ & Hx). cbn in Hx.
        destruct (copy_ctor_throws value); [done|reflexivity].
      - destruct (Forall2_lookup_l _ _ _ _ _ Hargs Hi) as (x & _ & Hx). cbn in Hx.
        destruct (move_ctor_throws value); [done|reflexivity]. }
    destruct (Forall2_lookup_l _ _ _ _ _ Hargs Ha) as (x & Hx & Hc').
    rewrite Hx. congruence. }
  intros k Hk.
  assert (Hlen : length (take k xs) = k) by (by apply length_take_le).
  destruct (append_all_run (append_args <$> take k apps) w this Vector_default []
              (take k xs))
    as (w' & v' & Hrun & Ho & Hrep & Hcap).
  - done.
  - apply represents_default.
  - apply Forall2_fmap_l. by apply Forall2_take.
  - cbn [app]. unfold transfer_ok in *. by apply Forall_take.
  - cbn [length Vector_default data_ RawMemory_default capacity_]. rewrite Hlen.
    fold (capacity_after k).
    pose proof (capacity_after_mono k (length xs) Hk). pose proof sizeof_T_pos. nia.
  - exists w', v'. cbn [app length] in *. rewrite Hlen in Hcap.
    split; [by rewrite appends_append_all|].
    split; [rewrite Ho; apply lookup_insert_eq|].
    split; [done|]. split; [destruct Hrep as [-> _]; done|].
    split; [done|]. split; [apply capacity_after_closed|apply capacity_after_S].
Qed.

(** C4 (as amended): [EmplaceBack] on a full vector.  For every element
    type, a constructor of the new element that throws, or an allocation
    that is refused, makes the call throw in the state it started from: the
    new element is constructed before any element is transferred.  For an
    element type that is nothrow-move-constructible or copy-constructible
    this is the strong guarantee: whatever throws, the state is the one the
    call started from.  A bulk transfer that fails at an element [y], the
    elements before it transferred, makes the call throw with the new block
    released: on the copy branch in the state the call started from, on the
    move branch (a type that cannot be copied and whose move constructor
    can throw) with the elements before [y] left moved-from in the
    vector. *)
Theorem EmplaceBack_strong_guarantee w this v l args :
  objs w !! this = Some v → represents (mem w) v l →
  length l = capacity_ (data_ v) →
  (construct args = None → ∃ e, EmplaceBack this args w = (Throw e, w)) ∧
  (max_bytes < size_mul (grown (capacity_ (data_ v))) sizeof_T →
   EmplaceBack this args w = (Throw bad_alloc, w)) ∧
  (is_nothrow_move_constructible = true ∨ is_copy_constructible = true →
   ∀ e w', EmplaceBack this args w = (Throw e, w') → w' = w) ∧
  (∀ x l1 y l2,
     construct args = Some x → l = l1 ++ y :: l2 → transfer_ok l1 →
     (if use_move then move_ctor_throws y else copy_ctor_throws y) = true →
     grown (capacity_ (data_ v)) * sizeof_T ≤ max_bytes →
     ∃ a, buffer_ (data_ v) = Some a ∧
       EmplaceBack this args w
       = (Throw element_exn,
          {| mem := if use_move
                    then <[a := Some <$> ((moved_from <$> l1) ++ y :: l2)]> (mem w)
                    else mem w;
             objs := objs w |})).
Proof.
  intros Hv Hrep Hfull. split; [|split; [|split]].
  - intros Hx. by eapply EmplaceBack_construct_fails.
  - intros Hrefused. by eapply EmplaceBack_alloc_fails.
  - intros Hty e w' Hrun.
    apply (wp_run _ _ _ _ _ _ (EmplaceBack_throw_unchanged w this args Hty) Hrun).
  - intros x l1 y l2 Hx -> Hl1 Hy Hgrown.
    by eapply EmplaceBack_transfer_fails.
Qed.

(** C5: an insertion, by [Insert] (of a copy or of a move) or by [Emplace],
    at offset [i <= k] of a vector of [k] elements returns the position
    [begin() + i]; the vector then has [k + 1] elements, the new one at [i]
    (for [Insert], the value it was given), the former ones below [i] where
    they were and the others one place up.  It returns when no element
    operation throws and, for a full vector, the allocator grants the
    doubled block. *)
Theorem Emplace_inserts w this v l i (ins : insertion T) x :
  objs w !! this = Some v → represents (mem w) v l → i ≤ length l →
  construct (insertion_args ins) = Some x → Forall nothrow (x :: l) →
  (length l = capacity_ (data_ v) →
   grown (capacity_ (data_ v)) * sizeof_T ≤ max_bytes) →
  (∀ value, ins = ByInsert value ∨ ins = ByInsertMove value → x = value) ∧
  ∃ w' v' l',
    run_insertion this (begin_ v +ₚ i) ins w = (Ret (begin_ v' +ₚ i), w') ∧
    objs w' !! this = Some v' ∧
    represents (mem w') v' l' ∧
    size_ v' = length l + 1 ∧
    l' !! i = Some x ∧
    (∀ j, j < i → l' !! j = l !! j) ∧
    (∀ j, i ≤ j → l' !! S j = l !! j).
Proof.
  intros Hv Hrep Hi Hx Hno Hmem.
  split; [intros value; by apply insertion_value|].
  rewrite run_insertion_Emplace.
  destruct (Emplace_at w this v l i (insertion_args ins) x)
    as (w' & v' & Hrun & Ho & Hrep' & _); try done.
  exists w', v', (take i l ++ x :: drop i l).
  split; [done|]. split; [rewrite Ho; apply lookup_insert_eq|].
  split; [done|]. split.
  { destruct Hrep' as [-> _]. rewrite length_app. cbn [length].
    rewrite length_take_le, length_drop by lia. lia. }
  by apply lookup_insert_at.
Qed.

(** C6: [Erase] at offset [i < k] of a vector of [k > 0] elements leaves
    [k - 1] elements: the ones below [i] where they were, the ones above one
    place down.  It returns when no move assignment of a later element
    throws. *)
Theorem Erase_removes w this v l i :
  objs w !! this = Some v → represents (mem w) v l → i < length l →
  shift_ok (drop (S i) l) →
  ∃ w' v' l',
    Erase this (begin_ v +ₚ i) w = (Ret (begin_ v' +ₚ i), w') ∧
    objs w' !! this = Some v' ∧
    represents (mem w') v' l' ∧
    size_ v' = length l - 1 ∧
    (∀ j, j < i → l' !! j = l !! j) ∧
    (∀ j, i ≤ j → l' !! j = l !! S j).
Proof.
  intros Hv Hrep Hi Hok.
  destruct (Erase_at w this v l i) as (w' & v' & Hrun & Ho & Hrep' & _); try done.
  exists w', v', (delete i l).
  split; [done|]. split; [rewrite Ho; apply lookup_insert_eq|].
  split; [done|]. split.
  { destruct Hrep' as [-> _]. rewrite length_delete; [done|].
    by apply lookup_lt_is_Some_2. }
  split.
  - intros j Hj. by apply list_lookup_delete_lt.
  - intros j Hj. by apply list_lookup_delete_ge.
Qed.

(** C7: an insertion at a valid position, by [Insert] (of a copy or of a
    move) or by [Emplace], followed by [Erase] at the position it returned
    gives back the elements the vector had, in the same order; the size is
    what it was. *)
Theorem insert_then_erase w this v l i (ins : insertion T) x :
  objs w !! this = Some v → represents (mem w) v l → i ≤ length l →
  construct (insertion_args ins) = Some x → Forall nothrow (x :: l) →
  (length l = capacity_ (data_ v) →
   grown (capacity_ (data_ v)) * sizeof_T ≤ max_bytes) →
  ∃ p w1 p' w2 v2,
    run_insertion this (begin_ v +ₚ i) ins w = (Ret p, w1) ∧
    Erase this p w1 = (Ret p', w2) ∧
    objs w2 !! this = Some v2 ∧
    represents (mem w2) v2 l ∧
    size_ v2 = length l.
Proof.
  intros Hv Hrep Hi Hx Hno Hmem.
  rewrite run_insertion_Emplace.
  destruct (Emplace_at w this v l i (insertion_args ins) x)
    as (w1 & v1 & Hrun1 & Ho1 & Hrep1 & _); try done.
  assert (Hlen : length (take i l) = i) by (apply length_take_le; lia).
  assert (Hv1 : objs w1 !! this = Some v1) by (rewrite Ho1; apply lookup_insert_eq).
  destruct (Erase_at w1 this v1 (take i l ++ x :: drop i l) i)
    as (w2 & v2 & Hrun2 & Ho2 & Hrep2 & _); try done.
  { rewrite length_app. cbn [length]. lia. }
  { replace (S i) with (length (take i l) + 1) by lia.
    rewrite <- drop_drop, drop_app_length. cbn [drop]. rewrite drop_0.
    apply nothrow_shift_ok, Forall_drop. by apply Forall_cons in Hno as [_ Hno]. }
  assert (Hback : delete i (take i l ++ x :: drop i l) = l).
  { rewrite delete_take_drop. rewrite take_app_length' by done.
    replace (S i) with (length (take i l) + 1) by lia.
    rewrite <- drop_drop, drop_app_length. cbn [drop]. rewrite drop_0.
    apply take_drop. }
  rewrite Hback in Hrep2.
  exists (begin_ v1 +ₚ i), w1, (begin_ v2 +ₚ i), w2, v2.
  split; [done|]. split; [done|].
  split; [rewrite Ho2; apply lookup_insert_eq|].
  split; [done|]. by destruct Hrep2 as [-> _].
Qed.

(** C8: [Reserve(n)] with [n <= capacity] changes nothing; with
    [n > capacity] it leaves the elements as they were in a block of exactly
    [n] slots (when the relocation does not throw and the allocator grants
    the block); and however it ends, the capacity is not below what it
    was. *)
Theorem Reserve_grows_only w this v l n :
  objs w !! this = Some v → represents (mem w) v l →
  (n ≤ capacity_ (data_ v) → Reserve this n w = (Ret (), w)) ∧
  (capacity_ (data_ v) < n → n * sizeof_T ≤ max_bytes → transfer_ok l →
   ∃ w' v',
     Reserve this n w = (Ret (), w') ∧ objs w' !! this = Some v' ∧
     represents (mem w') v' l ∧ capacity_ (data_ v') = n) ∧
  (∀ r w', Reserve this n w = (r, w') → r ≠ Undef →
   ∃ v', objs w' !! this = Some v' ∧ size_ v' = size_ v ∧
         capacity_ (data_ v) ≤ capacity_ (data_ v')).
Proof.
  intros Hv Hrep. split; [|split].
  - intros Hn. by eapply Reserve_keep.
  - intros Hn Hmem Hok.
    destruct (Reserve_grow w this v l n) as (w' & v' & Hrun & Ho & Hrep' & Hcap);
      try done.
    exists w', v'. split; [done|]. split; [rewrite Ho; apply lookup_insert_eq|done].
  - intros r w' Hrun Hr.
    pose proof (wp_run _ _ _ _ _ _ (wp_Reserve this n w v Hv) Hrun) as Hpost.
    destruct r as [[]|e|]; [| |done]; cbn beta in Hpost.
    + destruct Hpost as (d & -> & Hcap). eexists.
      split; [apply lookup_insert_eq|]. split; [done|]. cbn. lia.
    + exists v. by rewrite Hpost.
Qed.

(** C9: copy assignment of a vector to itself returns in the state it was
    called in: size, capacity and elements are what they were. *)
Theorem copy_self_assign_noop w this v :
  objs w !! this = Some v → Vector_copy_assign this this w = (Ret (), w).
Proof.
  intros Hv. destruct w as [h o]. cbn [objs] in Hv.
  unfold Vector_copy_assign. get_this. get_this.
  rewrite bool_decide_eq_false_2 by (by intros Hne).
  step ltac:(reflexivity). get_this. get_this.
  unfold put_vec. cbn [mem objs]. do 2 f_equal.
  rewrite insert_id; [done|]. by destruct v.
Qed.

(** C10: on a vector with elements, [PopBack] and [Erase] at a valid
    position leave the capacity as it was and do not reallocate: the vector
    keeps its storage block (the same address, the same number of slots), no
    block is allocated or released, and no other block is written.
    [PopBack] leaves all the elements but the last. *)
Theorem removal_keeps_capacity w this v l :
  objs w !! this = Some v → represents (mem w) v l → 0 < length l →
  (∃ w' v',
     PopBack this w = (Ret (), w') ∧ objs w' !! this = Some v' ∧
     represents (mem w') v' (take (length l - 1) l) ∧
     capacity_ (data_ v') = capacity_ (data_ v) ∧
     data_ v' = data_ v ∧
     others (mem w') v' = others (mem w) v) ∧
  (∀ i, i < length l → shift_ok (drop (S i) l) →
   ∃ p w' v',
     Erase this (begin_ v +ₚ i) w = (Ret p, w') ∧ objs w' !! this = Some v' ∧
     capacity_ (data_ v') = capacity_ (data_ v) ∧
     data_ v' = data_ v ∧
     others (mem w') v' = others (mem w) v).
Proof.
  intros Hv Hrep Hpos. split.
  - assert (Hne : l ≠ []) by (intros ->; cbn in Hpos; lia).
    destruct (exists_last Hne) as (l0 & x & Hl). subst l.
    destruct (PopBack_run w this v l0 x)
      as (w' & v' & Hrun & Ho & Hrep' & Hdata & Hoth); try done.
    exists w', v'. split; [done|]. split; [rewrite Ho; apply lookup_insert_eq|].
    split; [|by rewrite Hdata]. rewrite length_app. cbn [length].
    replace (length l0 + 1 - 1) with (length l0) by lia.
    by rewrite take_app_length.
  - intros i Hi Hok.
    destruct (Erase_at w this v l i) as (w' & v' & Hrun & Ho & _ & Hdata & Hoth);
      try done.
    exists (begin_ v' +ₚ i), w', v'.
    split; [done|]. split; [rewrite Ho; apply lookup_insert_eq|by rewrite Hdata].
Qed.

End Claims.

(** ** The properties at work on [Vector<int>] *)

Section IntWitnesses.
#[local] Existing Instance int_element.
#[local] Existing Instance small_heap.

Lemma pushed_1_2_3_reachable : reachable pushed_1_2_3.
Proof.
  pose proof (reachable_start (T:=nat)) as Hr.
  eapply (reachable_return _ (NewDefault 0)) in Hr; [|exact I|vm_compute; reflexivity].
  eapply (reachable_return _ (CallPushBack 0 1)) in Hr; [|exact I|vm_compute; reflexivity].
  eapply (reachable_return _ (CallPushBack 0 2)) in Hr; [|exact I|vm_compute; reflexivity].
  eapply (reachable_return _ (CallPushBack 0 3)) in Hr; [|exact I|vm_compute; reflexivity].
  exact Hr.
Defined.

Lemma size_le_capacity_witness :
  reachable pushed_1_2_3 ∧
  objs pushed_1_2_3 !! 0 = Some (vec 3 3%positive 4) ∧
  size_ (vec 3 3%positive 4) ≤ capacity_ (data_ (vec 3 3%positive 4)).
Proof.
  split; [exact pushed_1_2_3_reachable|]. split; [reflexivity|].
  apply (size_le_capacity pushed_1_2_3 0);
    [exact pushed_1_2_3_reachable|reflexivity].
Defined.

Lemma appends_fill_in_order_witness :
  objs fresh_vector !! 0 = Some Vector_default ∧
  ∃ w' v',
    appends 0 (take 3 [ByPushBack 1; ByPushBackMove 2;
                       ByEmplaceBack (@FromArgs nat int_element 3)]) fresh_vector
    = (Ret (), w') ∧
    objs w' !! 0 = Some v' ∧
    represents (mem w') v' (take 3 [1; 2; 3]) ∧
    size_ v' = 3 ∧
    capacity_ (data_ v') = capacity_after 3 ∧
    capacity_after 3 = (if 3 =? 0 then 0 else 2 ^ Nat.log2_up 3) ∧
    capacity_after 4
    = (if 3 <? capacity_after 3 then capacity_after 3
       else Nat.max 1 (capacity_after 3 * 2)).
Proof.
  split; [reflexivity|].
  destruct (appends_fill_in_order fresh_vector 0
              [ByPushBack 1; ByPushBackMove 2;
               ByEmplaceBack (@FromArgs nat int_element 3)] [1; 2; 3])
    as [_ Hk].
  - reflexivity.
  - repeat constructor.
  - repeat constructor.
  - vm_compute. lia.
  - apply (Hk 3). simpl. lia.
Defined.

Lemma Emplace_inserts_witness :
  represents (mem roomy_1_2_4_5) (vec 4 1%positive 8) [1; 2; 4; 5] ∧
  ∃ w' v' l',
    run_insertion 0 (begin_ (vec 4 1%positive 8) +ₚ 2) (ByInsertMove 3) roomy_1_2_4_5
    = (Ret (begin_ v' +ₚ 2), w') ∧
    objs w' !! 0 = Some v' ∧
    represents (mem w') v' l' ∧
    size_ v' = 5 ∧
    l' !! 2 = Some 3 ∧
    (∀ j, j < 2 → l' !! j = [1; 2; 4; 5] !! j) ∧
    (∀ j, 2 ≤ j → l' !! S j = [1; 2; 4; 5] !! j).
Proof.
  assert (Hrep : represents (mem roomy_1_2_4_5) (vec 4 1%positive 8) [1; 2; 4; 5]).
  { repeat split; cbn; lia. }
  split; [exact Hrep|].
  apply (Emplace_inserts roomy_1_2_4_5 0 (vec 4 1%positive 8) [1; 2; 4; 5] 2
           (ByInsertMove 3) 3).
  - reflexivity.
  - exact Hrep.
  - simpl. lia.
  - reflexivity.
  - repeat constructor.
  - simpl. lia.
Defined.

Lemma Erase_removes_witness :
  represents (mem roomy_1_2_4_5) (vec 4 1%positive 8) [1; 2; 4; 5] ∧
  ∃ w' v' l',
    Erase 0 (begin_ (vec 4 1%positive 8) +ₚ 1) roomy_1_2_4_5
    = (Ret (begin_ v' +ₚ 1), w') ∧
    objs w' !! 0 = Some v' ∧
    represents (mem w') v' l' ∧
    size_ v' = 3 ∧
    (∀ j, j < 1 → l' !! j = [1; 2; 4; 5] !! j) ∧
    (∀ j, 1 ≤ j → l' !! j = [1; 2; 4; 5] !! S j).
Proof.
  assert (Hrep : represents (mem roomy_1_2_4_5) (vec 4 1%positive 8) [1; 2; 4; 5]).
  { repeat split; cbn; lia. }
  split; [exact Hrep|].
  apply (Erase_removes roomy_1_2_4_5 0 (vec 4 1%positive 8) [1; 2; 4; 5] 1).
  - reflexivity.
  - exact Hrep.
  - simpl. lia.
  - repeat constructor.
Defined.

Lemma insert_then_erase_witness :
  represents (mem full_1_2) (vec 2 1%positive 2) [1; 2] ∧
  ∃ p w1 p' w2 v2,
    run_insertion 0 (begin_ (vec 2 1%positive 2) +ₚ 1) (ByInsert 9) full_1_2
    = (Ret p, w1) ∧
    Erase 0 p w1 = (Ret p', w2) ∧
    objs w2 !! 0 = Some v2 ∧
    represents (mem w2) v2 [1; 2] ∧
    size_ v2 = 2.
Proof.
  assert (Hrep : represents (mem full_1_2) (vec 2 1%positive 2) [1; 2]).
  { repeat split; cbn; lia. }
  split; [exact Hrep|].
  apply (insert_then_erase full_1_2 0 (vec 2 1%positive 2) [1; 2] 1 (ByInsert 9) 9).
  - reflexivity.
  - exact Hrep.
  - simpl. lia.
  - reflexivity.
  - repeat constructor.
  - intros _. vm_compute. lia.
Defined.

Lemma Reserve_grows_only_witness :
  represents (mem roomy_1_2_4_5) (vec 4 1%positive 8) [1; 2; 4; 5] ∧
  Reserve 0 8 roomy_1_2_4_5 = (Ret (), roomy_1_2_4_5) ∧
  ∃ w' v',
    Reserve 0 16 roomy_1_2_4_5 = (Ret (), w') ∧ objs w' !! 0 = Some v' ∧
    represents (mem w') v' [1; 2; 4; 5] ∧ capacity_ (data_ v') = 16.
Proof.
  assert (Hrep : represents (mem roomy_1_2_4_5) (vec 4 1%positive 8) [1; 2; 4; 5]).
  { repeat split; cbn; lia. }
  split; [exact Hrep|].
  split.
  - apply (Reserve_grows_only roomy_1_2_4_5 0 (vec 4 1%positive 8) [1; 2; 4; 5] 8);
      [reflexivity|exact Hrep|simpl; lia].
  - apply (Reserve_grows_only roomy_1_2_4_5 0 (vec 4 1%positive 8) [1; 2; 4; 5] 16);
      [reflexivity|exact Hrep|simpl; lia|vm_compute; lia|repeat constructor].
Defined.

Lemma copy_self_assign_noop_witness :
  objs full_1_2 !! 0 = Some (vec 2 1%positive 2) ∧
  Vector_copy_assign 0 0 full_1_2 = (Ret (), full_1_2).
Proof.
  split; [reflexivity|].
  apply (copy_self_assign_noop full_1_2 0 (vec 2 1%positive 2)). reflexivity.
Defined.

Lemma removal_keeps_capacity_witness :
  represents (mem roomy_1_2_4_5) (vec 4 1%positive 8) [1; 2; 4; 5] ∧
  (∃ w' v',
     PopBack 0 roomy_1_2_4_5 = (Ret (), w') ∧ objs w' !! 0 = Some v' ∧
     represents (mem w') v' (take (4 - 1) [1; 2; 4; 5]) ∧
     capacity_ (data_ v') = 8 ∧
     data_ v' = data_ (vec 4 1%positive 8) ∧
     others (mem w') v' = others (mem roomy_1_2_4_5) (vec 4 1%positive 8)) ∧
  (∃ p w' v',
     Erase 0 (begin_ (vec 4 1%positive 8) +ₚ 0) roomy_1_2_4_5 = (Ret p, w') ∧
     objs w' !! 0 = Some v' ∧ capacity_ (data_ v') = 8 ∧
     data_ v' = data_ (vec 4 1%positive 8) ∧
     others (mem w') v' = others (mem roomy_1_2_4_5) (vec 4 1%positive 8)).
Proof.
  assert (Hrep : represents (mem roomy_1_2_4_5) (vec 4 1%positive 8) [1; 2; 4; 5]).
  { repeat split; cbn; lia. }
  split; [exact Hrep|].
  destruct (removal_keeps_capacity roomy_1_2_4_5 0 (vec 4 1%positive 8) [1; 2; 4; 5])
    as [Hpop Herase]; [reflexivity|exact Hrep|simpl; lia|].
  split; [exact Hpop|].
  apply (Herase 0); [simpl; lia|repeat constructor].
Defined.

End IntWitnesses.

(** ** A copy that throws in the middle of a relocation *)

Section ThrowingCopy.
#[local] Existing Instance throwing_copy_element.
#[local] Existing Instance small_heap.

Lemma EmplaceBack_strong_guarantee_witness :
  represents (mem full_7_13) (vec 2 1%positive 2) [7; 13] ∧
  use_move = false ∧
  EmplaceBack 0 (FromArgs 5) full_7_13 = (Throw element_exn, full_7_13) ∧
  (∀ e w', EmplaceBack 0 (FromArgs 5) full_7_13 = (Throw e, w') → w' = full_7_13) ∧
  construct (FromArgs 5) = Some 5 ∧ transfer_ok [7] ∧ copy_ctor_throws 13 = true ∧
  ∃ a, buffer_ (data_ (vec 2 1%positive 2)) = Some a ∧
    EmplaceBack 0 (FromArgs 5) full_7_13
    = (Throw element_exn,
       {| mem := if use_move
                 then <[a := Some <$> ((moved_from <$> [7]) ++ 13 :: [])]> (mem full_7_13)
                 else mem full_7_13;
          objs := objs full_7_13 |}).
Proof.
  assert (Hrep : represents (mem full_7_13) (vec 2 1%positive 2) [7; 13]).
  { repeat split; cbn; lia. }
  split; [exact Hrep|]. split; [reflexivity|]. split; [vm_compute; reflexivity|].
  destruct (EmplaceBack_strong_guarantee full_7_13 0 (vec 2 1%positive 2) [7; 13]
              (@FromArgs nat throwing_copy_element 5))
    as (_ & _ & Hstrong & Hfails).
  - reflexivity.
  - exact Hrep.
  - reflexivity.
  - split; [apply Hstrong; right; reflexivity|].
    split; [reflexivity|]. split; [repeat constructor|]. split; [reflexivity|].
    apply (Hfails 5 [7] 13 []);
      [reflexivity|reflexivity|repeat constructor|reflexivity|vm_compute; lia].
Defined.

End ThrowingCopy.

(** ** A move-only type whose move constructor throws *)

Section ThrowingMoveOnly.
#[local] Existing Instance throwing_move_only_element.
#[local] Existing Instance small_heap.

(** C4 as stated fails: for a type that cannot be copied the relocation of
    [EmplaceBack] moves, also when the move constructor can throw.  On the
    full vector [7; 13] the new element is constructed, the move of 7
    returns, the move of 13 throws: the call throws and the vector holds a
    moved-from object where 7 was. *)
Lemma EmplaceBack_move_only_not_strong :
  represents (mem full_7_13) (vec 2 1%positive 2) [7; 13] ∧
  use_move = true ∧
  construct (FromArgs 5) = Some 5 ∧
  EmplaceBack 0 (FromArgs 5) full_7_13 = (Throw element_exn, moved_out_7_13) ∧
  mem moved_out_7_13 !! 1%positive = Some [Some 0; Some 13] ∧
  ¬ (∀ e w', EmplaceBack 0 (FromArgs 5) full_7_13 = (Throw e, w') → w' = full_7_13).
Proof.
  assert (Hrun : EmplaceBack 0 (FromArgs 5) full_7_13
                 = (Throw element_exn, moved_out_7_13)) by (vm_compute; reflexivity).
  split; [repeat split; cbn; lia|]. split; [reflexivity|]. split; [reflexivity|].
  split; [exact Hrun|]. split; [reflexivity|].
  intros Hstrong. specialize (Hstrong _ _ Hrun).
  apply (f_equal (λ w, mem w !! 1%positive)) in Hstrong.
  vm_compute in Hstrong. discriminate.
Qed.

End ThrowingMoveOnly.

(* ================================================================== *)
(** * Further properties of the code *)

(** ** Construction and destruction *)

Section Lifetime.
Context {T : Type} `{!Element T} `{!Allocator}.
Implicit Types (h : heap T) (w : world T) (a b : addr) (x y : T).
Implicit Types (l xs : list T) (v o : Vector) (this other : var).

Lemma uninitialized_value_loop_run n : ∀ h b (pre post : list (option T)) x j0 i,
  (∀ k, i ≤ k → k < i + n → value_init k = Some x) →
  h !! b = Some (pre ++ replicate n None ++ post) → length pre = j0 + i →
  uninitialized_loop (λ k, value_construct_at ((Some b, j0) +ₚ k) k) (Some b, j0) i n h
  = (Ret (), <[b := pre ++ replicate n (Some x) ++ post]> h).
Proof.
  induction n as [|n IH]; intros h b pre post x j0 i Hx Hb Hi.
  - simpl in *. by rewrite insert_id.
  - erewrite uninitialized_loop_step; last first.
    { unfold value_construct_at. rewrite (Hx i) by lia. unfold ptr_add; simpl.
      eapply emplace_at_run; [done|]. apply length_middle. lia. }
    cbn [replicate app]. rewrite insert_middle by lia.
    erewrite (IH _ b (pre ++ [Some x]) post x j0 (S i)).
    + rewrite insert_insert_eq. by rewrite <- !app_assoc.
    + intros k Hk1 Hk2. apply Hx; lia.
    + rewrite lookup_insert_eq. by rewrite <- app_assoc.
    + rewrite length_app. simpl. lia.
Qed.

(** [Vector(size_t size)] where the allocator grants the block and the
    default constructor returns [x]. *)
Lemma Vector_sized_run h n x :
  (∀ i, i < n → value_init i = Some x) → n * sizeof_T ≤ max_bytes →
  ∃ v, Vector_sized n h
       = (Ret v, match buffer_ (data_ v) with
                 | Some b => <[b := Some <$> replicate n x]> h
                 | None => h
                 end) ∧
    size_ v = n ∧ capacity_ (data_ v) = n ∧
    match buffer_ (data_ v) with
    | Some b => 0 < n ∧ h !! b = None
    | None => n = 0
    end.
Proof.
  intros Hx Hn. unfold Vector_sized. destruct n as [|n].
  - eexists {| size_ := 0; data_ := {| buffer_ := None; capacity_ := 0 |} |}.
    done.
  - erewrite bind_run by (apply RawMemory_ctor_run; [lia|done]).
    set (b := fresh (dom h)).
    erewrite bind_run; last first.
    { apply on_unwind_run. unfold uninitialized_value_construct_n, GetAddress.
      cbn [buffer_].
      apply (uninitialized_value_loop_run (S n) _ b [] [] x 0 0);
        [intros k _ Hk; by apply Hx| |done].
      rewrite lookup_insert_eq. by rewrite app_nil_r. }
    eexists {| size_ := S n; data_ := {| buffer_ := Some b; capacity_ := S n |} |}.
    cbn [size_ data_ buffer_ capacity_].
    rewrite insert_insert_eq, app_nil_l, app_nil_r, fmap_replicate.
    repeat split; [lia|apply fresh_None].
Qed.

Lemma represents_sized h v n x :
  size_ v = n → capacity_ (data_ v) = n → n * sizeof_T ≤ max_bytes →
  match buffer_ (data_ v) with
  | Some b => 0 < n ∧ h !! b = Some (Some <$> replicate n x)
  | None => n = 0
  end →
  represents h v (replicate n x).
Proof.
  intros Hs Hc Hn Hb. unfold represents. rewrite length_replicate, Hs, Hc.
  repeat split; try done.
  destruct (buffer_ (data_ v)); [|done]. destruct Hb as [? ->].
  split; [done|]. by rewrite Nat.sub_diag, app_nil_r.
Qed.

(** What [RawMemory(n)] returns: nothing for [n = 0], a fresh block of raw
    slots otherwise. *)
Lemma RawMemory_ctor_inv n h (data : RawMemory) h1 :
  RawMemory_ctor n h = (Ret data, h1) →
  (n = 0 ∧ buffer_ data = None ∧ h1 = h) ∨
  (n ≠ 0 ∧ ∃ k, buffer_ data = Some (fresh (dom h)) ∧
                h1 = <[fresh (dom h) := replicate k None]> h).
Proof.
  unfold RawMemory_ctor, Allocate, mbind, ST_bind, operator_new.
  case_bool_decide as Hn.
  - destruct (_ <=? _); [|done]. intros [= <- <-]. right. split; [done|]. by eexists.
  - intros [= <- <-]. left. split; [lia|done].
Qed.

(** A bulk construction into a block of raw slots that throws: whatever
    element the constructor threw at, the elements built before it have
    been destroyed, so that every slot of the block is raw again. *)
Lemma uninitialized_loop_throw (ctor : nat → ST (heap T) unit) b :
  (∀ i h, match ctor i h with
          | (Ret _, h') =>
              ∃ blk x, h !! b = Some blk ∧ i < length blk ∧
                       h' = <[b := <[i := Some x]> blk]> h
          | (Throw _, h') => h' = h
          | (Undef, _) => True
          end) →
  ∀ m h ys k i e h',
    h !! b = Some ((Some <$> ys) ++ replicate k None) → length ys = i →
    uninitialized_loop ctor (Some b, 0) i m h = (Throw e, h') →
    h' = <[b := replicate (i + k) None]> h.
Proof.
  intros Hctor. induction m as [|m IH]; intros h ys k i e h' Hb Hi Hrun; [done|].
  cbn [uninitialized_loop] in Hrun. unfold mbind, ST_bind, on_unwind in Hrun.
  specialize (Hctor i h). destruct (ctor i h) as [[[]|e1|] h1].
  - destruct Hctor as (blk & x & Hblk & Hlt & ->).
    rewrite Hb in Hblk. injection Hblk as <-.
    rewrite length_app, length_fmap, length_replicate in Hlt.
    destruct k as [|k]; [lia|].
    cbn [replicate] in Hrun. rewrite insert_middle in Hrun by (by rewrite length_fmap).
    apply (IH _ (ys ++ [x]) k (S i)) in Hrun.
    + rewrite Hrun, insert_insert_eq. do 2 f_equal. lia.
    + rewrite lookup_insert_eq. by rewrite fmap_app, <- app_assoc.
    + rewrite length_app. simpl. lia.
  - subst h1.
    rewrite (destroy_n_live ys h b [] (replicate k None) 0 i) in Hrun by done.
    injection Hrun as <- <-. by rewrite replicate_add.
  - done.
Qed.

Lemma value_construct_at_fills b (i : nat) h :
  match value_construct_at ((Some b, 0) +ₚ i) i h with
  | (Ret _, h') =>
      ∃ blk x, h !! b = Some blk ∧ i < length blk ∧
               h' = <[b := <[i := Some x]> blk]> h
  | (Throw _, h') => h' = h
  | (Undef, _) => True
  end.
Proof.
  unfold value_construct_at, emplace_at, set_slot, ptr_add, throw. cbn [fst snd Nat.add].
  destruct (value_init i) as [x|]; [|done].
  destruct (h !! b) as [blk|]; [|done].
  destruct (Nat.ltb_spec i (length blk)); [|done]. by eexists _, _.
Qed.

Lemma copy_construct_at_fills b (q : ptr) (i : nat) h :
  match copy_construct_at ((Some b, 0) +ₚ i) (q +ₚ i) h with
  | (Ret _, h') =>
      ∃ blk x, h !! b = Some blk ∧ i < length blk ∧
               h' = <[b := <[i := Some x]> blk]> h
  | (Throw _, h') => h' = h
  | (Undef, _) => True
  end.
Proof.
  unfold copy_construct_at, load, slot, mbind, ST_bind, ptr_add, throw.
  cbn [fst snd Nat.add].
  destruct (q.1) as [a|]; [|done].
  destruct (h !! a) as [src|]; [|done].
  destruct (src !! (q.2 + i)) as [[x|]|]; [|done|done]. cbn.
  destruct (copy_ctor_throws x); [done|].
  unfold emplace_at, set_slot. cbn [fst snd].
  destruct (h !! b) as [blk|]; [|done].
  destruct (Nat.ltb_spec i (length blk)); [|done]. by eexists _, _.
Qed.

(** A bulk construction into the block a [RawMemory] constructor has just
    returned: if it throws, the heap is the one the bulk construction
    started in (the block is there, all raw), and releasing the block gives
    back the heap before the allocation. *)
Lemma bulk_throw_releases (ctor : nat → ST (heap T) unit) n h (data : RawMemory) h1 e h2 :
  (∀ b, buffer_ data = Some b →
     ∀ i h, match ctor i h with
            | (Ret _, h') =>
                ∃ blk x, h !! b = Some blk ∧ i < length blk ∧
                         h' = <[b := <[i := Some x]> blk]> h
            | (Throw _, h') => h' = h
            | (Undef, _) => True
            end) →
  RawMemory_ctor n h = (Ret data, h1) →
  uninitialized_loop ctor (GetAddress data) 0 n h1 = (Throw e, h2) →
  h2 = h1 ∧ RawMemory_dtor data h1 = (Ret (), h).
Proof.
  intros Hctor Hnew Hrun.
  destruct (RawMemory_ctor_inv n h data h1 Hnew)
    as [(-> & Hbuf & ->)|(Hn & k & Hbuf & ->)]; [done|].
  unfold GetAddress in Hrun. rewrite Hbuf in Hrun.
  apply (uninitialized_loop_throw ctor _ (Hctor _ Hbuf) n _ [] k 0) in Hrun;
    [|by rewrite lookup_insert_eq|done].
  split.
  - by rewrite Hrun, insert_insert_eq.
  - unfold RawMemory_dtor, Deallocate, operator_delete.
    rewrite Hbuf, lookup_insert_eq. by rewrite delete_insert_id by apply fresh_None.
Qed.

(** A constructor that throws has released the block it had obtained. *)
Lemma wp_Vector_sized_throw n h :
  wp (Vector_sized n) h (λ _ _, True) (λ _ h', h' = h).
Proof.
  unfold Vector_sized. apply wp_bind.
  eapply wp_mono; [apply wp_RawMemory_ctor| |done].
  intros nd h1 (_ & Honly & _ & Hfresh). cbn beta.
  apply wp_bind.
  eapply wp_mono with (Q := λ _ _, True) (E := λ _ h', h' = h); [|done|done].
  apply wp_on_unwind.
  eapply wp_mono;
    [apply (keeps_uninitialized_loop (only_at (buffer_ nd)))| |].
  - apply only_at_refl.
  - apply only_at_trans.
  - intros k. apply keeps_value_construct_at; [apply only_at_refl|].
    by apply writable_only_at.
  - intros k. by apply writable_only_at.
  - done.
  - intros e h2 Honly2. cbn beta.
    apply wp_RawMemory_dtor_fresh.
    + by eapply only_at_trans.
    + intros b Hb. by apply Hfresh.
Qed.

(** [Vector(const Vector& other)]: both branches of the [if constexpr] copy,
    the source being [const]. *)
Lemma Vector_copy_ctor_run h o l :
  represents h o l → Forall (λ x, copy_ctor_throws x = false) l →
  ∃ v, Vector_copy_ctor o h
       = (Ret v, match buffer_ (data_ v) with
                 | Some b => <[b := Some <$> l]> h
                 | None => h
                 end) ∧
    size_ v = length l ∧ capacity_ (data_ v) = length l ∧
    match buffer_ (data_ v) with
    | Some b => l ≠ [] ∧ h !! b = None
    | None => l = []
    end.
Proof.
  intros (Hsz & Hle & Hbytes & Hblk) Hl.
  destruct o as [sz [buf cap]]. cbn [size_ data_ capacity_ buffer_] in *. subst sz.
  unfold Vector_copy_ctor, Size. cbn [size_ data_].
  destruct l as [|x0 l'] eqn:El.
  - eexists {| size_ := 0; data_ := {| buffer_ := None; capacity_ := 0 |} |}.
    cbn. by destruct use_move.
  - rewrite <- El in *. assert (Hpos : 0 < length l) by (subst l; simpl; lia).
    destruct buf as [a|]; [|lia]. destruct Hblk as [_ Ha].
    erewrite bind_run; last first.
    { apply RawMemory_ctor_run; [done|]. pose proof sizeof_T_pos. nia. }
    set (b := fresh (dom h)).
    assert (Hab : a ≠ b) by (by eapply fresh_ne).
    erewrite bind_run; last first.
    { apply on_unwind_run.
      assert (Hloop : uninitialized_copy_n (GetAddress {| buffer_ := Some a; capacity_ := cap |})
                        (length l) (GetAddress {| buffer_ := Some b; capacity_ := length l |})
                        (<[b := replicate (length l) None]> h)
                      = (Ret (), <[b := [] ++ (Some <$> l) ++ []]>
                                   (<[b := replicate (length l) None]> h))).
      { unfold uninitialized_copy_n, GetAddress. cbn [buffer_].
        eapply (uninitialized_copy_loop_run l _ a b [] _ [] (replicate (length l) None) []);
          try done.
        - by rewrite lookup_insert_ne.
        - rewrite lookup_insert_eq. by rewrite app_nil_r.
        - by rewrite length_replicate. }
      destruct use_move; exact Hloop. }
    eexists {| size_ := length l; data_ := {| buffer_ := Some b; capacity_ := length l |} |}.
    cbn [size_ data_ buffer_ capacity_].
    rewrite insert_insert_eq, app_nil_l, app_nil_r.
    repeat split; [by subst l|apply fresh_None].
Qed.

Lemma wp_Vector_copy_ctor_throw o h :
  wp (Vector_copy_ctor o) h (λ _ _, True) (λ _ h', h' = h).
Proof.
  unfold Vector_copy_ctor. apply wp_bind.
  eapply wp_mono; [apply wp_RawMemory_ctor| |done].
  intros nd h1 (_ & Honly & _ & Hfresh). cbn beta.
  apply wp_bind.
  eapply wp_mono with (Q := λ _ _, True) (E := λ _ h', h' = h); [|done|done].
  apply wp_on_unwind.
  assert (Hk : keeps (only_at (buffer_ nd))
                 (uninitialized_copy_n (GetAddress (data_ o)) (size_ o) (GetAddress nd))).
  { apply keeps_uninitialized_loop.
    - apply only_at_refl.
    - apply only_at_trans.
    - intros k. apply keeps_copy_construct_at;
        [apply only_at_refl|apply only_at_trans|by apply writable_only_at].
    - intros k. by apply writable_only_at. }
  eapply wp_mono with (Q := λ _ _, True) (E := λ _ h2, only_at (buffer_ nd) h1 h2).
  - destruct use_move; (eapply wp_mono; [apply Hk|done|done]).
  - done.
  - intros e h2 Honly2. cbn beta.
    apply wp_RawMemory_dtor_fresh.
    + by eapply only_at_trans.
    + intros b Hb. by apply Hfresh.
Qed.

(** [~Vector()] and then [~RawMemory()] on a well-formed vector. *)
Lemma Vector_dtor_run h v l :
  represents h v l →
  Vector_dtor v h
  = (Ret (), match buffer_ (data_ v) with Some a => delete a h | None => h end).
Proof.
  intros (Hsz & Hle & Hbytes & Hblk).
  destruct v as [sz [buf cap]]. cbn [size_ data_ capacity_ buffer_] in *. subst sz.
  unfold Vector_dtor, GetAddress. cbn [size_ data_ buffer_].
  destruct buf as [a|].
  - destruct Hblk as [_ Ha].
    erewrite bind_run; last first.
    { apply (destroy_n_run l h a [] (replicate (cap - length l) None) 0); [|done].
      by rewrite app_nil_l. }
    erewrite RawMemory_dtor_run by apply lookup_insert_eq.
    by rewrite delete_insert_eq.
  - assert (l = []) as -> by (apply length_zero_iff_nil; lia). done.
Qed.

End Lifetime.

Section LifetimeProperties.
Context {T : Type} `{!Element T} `{!Allocator}.
Implicit Types (h : heap T) (w : world T) (a b : addr) (x y : T).
Implicit Types (l xs : list T) (v o : Vector) (this other : var).

(** X1: [Vector(size_t n)], when the allocator grants [n] slots and the
    default constructor returns [x], yields a vector of [n] elements all
    equal to [x] in a block of exactly [n] slots; for [n = 0] nothing is
    allocated; the blocks that existed are as they were. *)
Theorem Vector_sized_value_initializes h n x :
  (∀ i, i < n → value_init i = Some x) → n * sizeof_T ≤ max_bytes →
  ∃ v h',
    Vector_sized n h = (Ret v, h') ∧
    represents h' v (replicate n x) ∧
    capacity_ (data_ v) = n ∧
    (n = 0 → buffer_ (data_ v) = None ∧ h' = h) ∧
    (∀ c blk, h !! c = Some blk → h' !! c = Some blk).
Proof.
  intros Hx Hn.
  destruct (Vector_sized_run h n x Hx Hn) as (v & Hrun & Hs & Hc & Hb).
  eexists v, _. split; [exact Hrun|].
  destruct (buffer_ (data_ v)) as [b|] eqn:Eb.
  - destruct Hb as [Hpos Hfresh]. split; [|split; [done|split; [lia|]]].
    + apply represents_sized; try done. rewrite Eb.
      split; [done|apply lookup_insert_eq].
    + intros c blk Hcb. rewrite lookup_insert_ne; [done|]. intros <-. congruence.
  - split; [|done]. apply represents_sized; try done. by rewrite Eb.
Qed.

(** X2: a [Vector(size_t n)] that throws, be it [std::bad_alloc] or an
    exception of the default constructor at any of the elements, leaves the
    heap as it found it.  When the block was obtained, it is the bulk
    construction that threw, and it ended in the heap it started in: the
    elements built before the one that threw are destroyed, every slot of
    the new block is raw again; the block is then released. *)
Theorem Vector_sized_throw_releases n h e h' :
  Vector_sized n h = (Throw e, h') →
  h' = h ∧
  ∀ data h1, RawMemory_ctor n h = (Ret data, h1) →
    uninitialized_value_construct_n (GetAddress data) n h1 = (Throw e, h1) ∧
    RawMemory_dtor data h1 = (Ret (), h).
Proof.
  intros Hrun.
  split; [exact (wp_run _ _ _ _ _ _ (wp_Vector_sized_throw n h) Hrun)|].
  intros data h1 Hnew.
  unfold Vector_sized in Hrun. erewrite bind_run in Hrun by exact Hnew.
  unfold mbind, ST_bind, on_unwind in Hrun.
  destruct (uninitialized_value_construct_n (GetAddress data) n h1)
    as [[[]|e2|] h2] eqn:Hbulk; [done| |done].
  destruct (bulk_throw_releases (λ i, value_construct_at (GetAddress data +ₚ i) i)
              n h data h1 e2 h2) as [-> Hdel].
  - intros b Hb i h0. unfold GetAddress. rewrite Hb. apply value_construct_at_fills.
  - done.
  - exact Hbulk.
  - rewrite Hdel in Hrun. by injection Hrun as -> _.
Qed.

(** X3: the copy constructor, when no copy throws, yields a vector with the
    same elements in a new block of exactly [size] slots (not [capacity]),
    and leaves the source and every other block as they were. *)
Theorem Vector_copy_ctor_copies h o l :
  represents h o l → Forall (λ x, copy_ctor_throws x = false) l →
  ∃ v h',
    Vector_copy_ctor o h = (Ret v, h') ∧
    represents h' v l ∧
    capacity_ (data_ v) = length l ∧
    (∀ b, buffer_ (data_ v) = Some b → h !! b = None) ∧
    represents h' o l ∧
    (∀ c blk, h !! c = Some blk → h' !! c = Some blk).
Proof.
  intros Hrep Hl.
  destruct (Vector_copy_ctor_run h o l Hrep Hl) as (v & Hrun & Hs & Hc & Hb).
  eexists v, _. split; [exact Hrun|].
  assert (Hframe : ∀ c blk, h !! c = Some blk →
            match buffer_ (data_ v) with
            | Some b => <[b := Some <$> l]> h
            | None => h
            end !! c = Some blk).
  { intros c blk Hcb. destruct (buffer_ (data_ v)) as [b|]; [|done].
    destruct Hb as [_ Hfresh]. rewrite lookup_insert_ne; [done|].
    intros <-. congruence. }
  split; [|split; [done|split; [|split; [|done]]]].
  - unfold represents. rewrite Hs, Hc.
    destruct Hrep as (_ & Hle & Hbytes & _).
    split; [done|]. split; [done|]. split; [pose proof sizeof_T_pos; nia|].
    destruct (buffer_ (data_ v)) as [b|]; [|by rewrite Hb].
    destruct Hb as [Hne _]. split; [destruct l; [done|simpl; lia]|].
    rewrite lookup_insert_eq. by rewrite Nat.sub_diag, app_nil_r.
  - intros b Hbuf. rewrite Hbuf in Hb. by destruct Hb.
  - destruct Hrep as (H1 & H2 & H3 & H4). repeat split; try done.
    destruct (buffer_ (data_ o)) as [a|]; [|done]. destruct H4 as [H4 H5].
    split; [done|]. by apply Hframe.
Qed.

(** X4: a copy constructor that throws (the allocation, or the copy of any
    element) leaves the heap as it found it.  When the block was obtained,
    it is the bulk copy that threw, and it ended in the heap it started in:
    the copies made before the one that threw are destroyed, every slot of
    the new block is raw again; the block is then released. *)
Theorem Vector_copy_ctor_throw_releases o h e h' :
  Vector_copy_ctor o h = (Throw e, h') →
  h' = h ∧
  ∀ data h1, RawMemory_ctor (Size o) h = (Ret data, h1) →
    (if use_move
     then uninitialized_move_n_const (GetAddress (data_ o)) (size_ o) (GetAddress data)
     else uninitialized_copy_n (GetAddress (data_ o)) (size_ o) (GetAddress data)) h1
    = (Throw e, h1) ∧
    RawMemory_dtor data h1 = (Ret (), h).
Proof.
  intros Hrun.
  split; [exact (wp_run _ _ _ _ _ _ (wp_Vector_copy_ctor_throw o h) Hrun)|].
  intros data h1 Hnew.
  unfold Vector_copy_ctor in Hrun. erewrite bind_run in Hrun by exact Hnew.
  assert (Hsame : (if use_move
                   then uninitialized_move_n_const (GetAddress (data_ o)) (size_ o)
                          (GetAddress data)
                   else uninitialized_copy_n (GetAddress (data_ o)) (size_ o)
                          (GetAddress data))
                  = uninitialized_copy_n (GetAddress (data_ o)) (size_ o) (GetAddress data))
    by (by destruct use_move).
  rewrite Hsame in *. clear Hsame.
  unfold mbind, ST_bind, on_unwind in Hrun.
  destruct (uninitialized_copy_n (GetAddress (data_ o)) (size_ o) (GetAddress data) h1)
    as [[[]|e2|] h2] eqn:Hbulk; [done| |done].
  destruct (bulk_throw_releases
              (λ i, copy_construct_at (GetAddress data +ₚ i) (GetAddress (data_ o) +ₚ i))
              (Size o) h data h1 e2 h2) as [-> Hdel].
  - intros b Hb i h0. unfold GetAddress at 1. rewrite Hb. apply copy_construct_at_fills.
  - done.
  - exact Hbulk.
  - rewrite Hdel in Hrun. by injection Hrun as -> _.
Qed.

(** X5: the move constructor gives the new object the block, capacity and
    size of the source, leaves the source as a default-constructed vector
    and does not touch the heap; destroying both objects afterwards releases
    the block once (through its new owner) and nothing else. *)
Theorem Vector_new_move_transfers w this other o l :
  objs w !! this = None → objs w !! other = Some o →
  represents (mem w) o l →
  ∃ w1,
    Vector_new_move this other w = (Ret (), w1) ∧
    mem w1 = mem w ∧
    objs w1 = <[other := Vector_default]> (<[this := o]> (objs w)) ∧
    (_ ← Vector_delete other; Vector_delete this) w1
    = (Ret (), {| mem := others (mem w) o;
                  objs := delete this (delete other (objs w)) |}).
Proof.
  intros Hthis Hother Hrep.
  assert (Hne : this ≠ other) by (intros ->; congruence).
  destruct w as [h ob]. cbn [mem objs] in *.
  exists {| mem := h; objs := <[other := Vector_default]> (<[this := o]> ob) |}.
  split; [|split; [reflexivity|split; [reflexivity|]]].
  - destruct o as [sz [buf cap]].
    unfold Vector_new_move.
    step ltac:(by apply get_vec_at).
    cbn [RawMemory_move_assign data_ size_ buffer_ capacity_].
    erewrite bind_run; last first.
    { unfold new_vec. cbn [objs mem]. rewrite Hthis. reflexivity. }
    reflexivity.
  - cbn [mem objs]. unfold Vector_delete.
    get_this. lstep ltac:(reflexivity).
    erewrite bind_run by reflexivity. cbn [mem objs].
    step ltac:(apply get_vec_at; rewrite lookup_delete_ne by done;
               rewrite lookup_insert_ne by done; apply lookup_insert_eq).
    lstep ltac:(by eapply Vector_dtor_run).
    unfold del_vec, others. cbn [mem objs]. do 2 f_equal.
    apply map_eq. intros c.
    destruct (decide (c = this)) as [->|Hc]; [by rewrite !lookup_delete_eq|].
    rewrite !(lookup_delete_ne _ this) by done.
    destruct (decide (c = other)) as [->|Hc']; [by rewrite !lookup_delete_eq|].
    rewrite !lookup_delete_ne by done. by rewrite !lookup_insert_ne.
Qed.

(** Move assignment of a vector to itself changes nothing. *)
Lemma move_self_assign_noop w this v :
  objs w !! this = Some v → Vector_move_assign this this w = (Ret (), w).
Proof.
  intros Hv. destruct w as [h o]. cbn [objs] in Hv.
  unfold Vector_move_assign. get_this. get_this.
  by rewrite bool_decide_eq_false_2 by (by intros []).
Qed.

(** X6: [Swap], move assignment and move construction never throw and never
    change the heap, whatever the state they are called in. *)
Theorem moves_and_swap_keep_heap w this other r w' :
  Swap this other w = (r, w') ∨
  Vector_move_assign this other w = (r, w') ∨
  Vector_new_move this other w = (r, w') →
  mem w' = mem w ∧ ∀ e, r ≠ Throw e.
Proof.
  destruct w as [h o].
  unfold Swap, Vector_move_assign, Vector_new_move, get_vec, put_vec, new_vec,
    mbind, ST_bind, mret, ST_ret.
  cbn [mem objs].
  intros [Hrun|[Hrun|Hrun]]; revert Hrun; cbn [mem objs].
  - destruct (o !! this) as [v|]; cbn [mem objs]; [|by intros [= <- <-]].
    destruct (o !! other) as [ov|]; cbn [mem objs]; [|by intros [= <- <-]].
    destruct (swap_vectors v ov). by intros [= <- <-].
  - destruct (o !! this) as [v|]; cbn [mem objs]; [|by intros [= <- <-]].
    destruct (o !! other) as [ov|]; cbn [mem objs]; [|by intros [= <- <-]].
    case_bool_decide; [|by intros [= <- <-]].
    destruct (RawMemory_move_assign _ _). by intros [= <- <-].
  - destruct (o !! other) as [ov|]; cbn [mem objs]; [|by intros [= <- <-]].
    destruct (RawMemory_move_assign _ _). cbn [mem objs].
    destruct (o !! this); by intros [= <- <-].
Qed.

(** X7: [Swap] gives each of the two vectors the block, capacity and size of
    the other without touching the heap, and a second [Swap] gives back the
    state before the first. *)
Theorem Swap_exchanges w this other v o :
  objs w !! this = Some v → objs w !! other = Some o →
  ∃ w',
    Swap this other w = (Ret (), w') ∧
    mem w' = mem w ∧
    objs w' = <[other := v]> (<[this := o]> (objs w)) ∧
    Swap this other w' = (Ret (), w).
Proof.
  intros Hv Ho. destruct w as [h ob]. cbn [mem objs] in *.
  destruct v as [sv [bv cv]], o as [so [bo co]].
  eexists. split; [|split; [|split]].
  - unfold Swap. get_this. step ltac:(by apply get_vec_at).
    cbn [swap_vectors RawMemory_Swap data_ size_ buffer_ capacity_].
    put_this. reflexivity.
  - done.
  - done.
  - cbn [mem objs]. unfold Swap.
    assert (Hback : <[other := {| size_ := so; data_ := {| buffer_ := bo; capacity_ := co |} |}]>
              (<[this := {| size_ := sv; data_ := {| buffer_ := bv; capacity_ := cv |} |}]>
                 (<[other := {| size_ := sv; data_ := {| buffer_ := bv; capacity_ := cv |} |}]>
                    (<[this := {| size_ := so; data_ := {| buffer_ := bo; capacity_ := co |} |}]> ob)))
              = ob).
    { apply map_eq. intros c. rewrite !lookup_insert.
      repeat case_decide; congruence. }
    destruct (decide (this = other)) as [->|Hne].
    + rewrite Hv in Ho. injection Ho as <- <- <-.
      step ltac:(apply get_vec_at; apply lookup_insert_eq).
      step ltac:(apply get_vec_at; apply lookup_insert_eq).
      cbn [swap_vectors RawMemory_Swap data_ size_ buffer_ capacity_].
      put_this. unfold put_vec. cbn [mem objs]. by rewrite Hback.
    + step ltac:(apply get_vec_at; rewrite lookup_insert_ne by done;
                 apply lookup_insert_eq).
      step ltac:(apply get_vec_at; apply lookup_insert_eq).
      cbn [swap_vectors RawMemory_Swap data_ size_ buffer_ capacity_].
      put_this. unfold put_vec. cbn [mem objs]. by rewrite Hback.
Qed.

(** X8: the body of [~Vector()] on a well-formed vector destroys every
    element: it returns with all the slots of the block raw memory, the
    block still allocated and nothing else changed.  The destruction of the
    object as a whole then releases the block: every other block is as it
    was, and the object is gone. *)
Theorem Vector_delete_releases w this v l :
  objs w !! this = Some v → represents (mem w) v l →
  Vector_dtor_body v (mem w)
  = (Ret (), match buffer_ (data_ v) with
             | Some a => <[a := replicate (capacity_ (data_ v)) None]> (mem w)
             | None => mem w
             end) ∧
  Vector_delete this w
  = (Ret (), {| mem := others (mem w) v; objs := delete this (objs w) |}).
Proof.
  intros Hv Hrep. split.
  - destruct Hrep as (Hsz & Hle & Hbytes & Hblk).
    destruct v as [sz [buf cap]]. cbn [size_ data_ capacity_ buffer_] in *. subst sz.
    unfold Vector_dtor_body, GetAddress. cbn [size_ data_ buffer_].
    destruct buf as [a|].
    + destruct Hblk as [_ Ha].
      erewrite (destroy_n_run l (mem w) a [] (replicate (cap - length l) None) 0);
        [|by rewrite app_nil_l|done].
      cbn [app]. rewrite <- replicate_add. do 3 f_equal. lia.
    + by assert (l = []) as -> by (apply length_zero_iff_nil; lia).
  - destruct w as [h o]. cbn [mem objs] in *. unfold others.
    unfold Vector_delete. get_this.
    lstep ltac:(by eapply Vector_dtor_run).
    reflexivity.
Qed.

(** X9: a vector constructed with [n] elements and then destroyed leaves
    the state exactly as it was before the construction. *)
Theorem construct_then_destroy w this n x :
  objs w !! this = None → (∀ i, i < n → value_init i = Some x) →
  n * sizeof_T ≤ max_bytes →
  (_ ← Vector_new_sized this n; Vector_delete this) w = (Ret (), w).
Proof.
  intros Hthis Hx Hn. destruct w as [h o]. cbn [mem objs] in *.
  destruct (Vector_sized_run h n x Hx Hn) as (v & Hrun & Hs & Hc & Hb).
  unfold Vector_new_sized, Vector_delete.
  lstep ltac:(exact Hrun).
  erewrite bind_run; last first.
  { unfold new_vec. cbn [mem objs]. rewrite Hthis. reflexivity. }
  get_this.
  assert (Hrep : represents (match buffer_ (data_ v) with
                             | Some b => <[b := Some <$> replicate n x]> h
                             | None => h
                             end) v (replicate n x)).
  { apply represents_sized; try done.
    destruct (buffer_ (data_ v)) as [b|]; [|done].
    destruct Hb. split; [done|apply lookup_insert_eq]. }
  lstep ltac:(by eapply Vector_dtor_run).
  unfold del_vec. cbn [mem objs]. f_equal. f_equal.
  - destruct (buffer_ (data_ v)) as [b|]; [|done].
    destruct Hb as [_ Hfresh]. by rewrite delete_insert_id.
  - by rewrite delete_insert_id.
Qed.

(** A copy of a vector that is then destroyed leaves the state exactly as
    it was: the source and its block are untouched. *)
Lemma copy_then_destroy w this other o l :
  objs w !! this = None → objs w !! other = Some o →
  represents (mem w) o l → Forall (λ x, copy_ctor_throws x = false) l →
  (_ ← Vector_new_copy this other; Vector_delete this) w = (Ret (), w).
Proof.
  intros Hthis Hother Hrep Hl. destruct w as [h ob]. cbn [mem objs] in *.
  destruct (Vector_copy_ctor_run h o l Hrep Hl) as (v & Hrun & Hs & Hc & Hb).
  unfold Vector_new_copy, Vector_delete.
  step ltac:(by apply get_vec_at).
  lstep ltac:(exact Hrun).
  erewrite bind_run; last first.
  { unfold new_vec. cbn [mem objs]. rewrite Hthis. reflexivity. }
  get_this.
  assert (Hrepv : represents (match buffer_ (data_ v) with
                              | Some b => <[b := Some <$> l]> h
                              | None => h
                              end) v l).
  { unfold represents. rewrite Hs, Hc. destruct Hrep as (_ & Hle & Hbytes & _).
    split; [done|]. split; [done|]. split; [pose proof sizeof_T_pos; nia|].
    destruct (buffer_ (data_ v)) as [b|]; [|by rewrite Hb].
    destruct Hb as [Hne _]. split; [destruct l; [done|simpl; lia]|].
    rewrite lookup_insert_eq. by rewrite Nat.sub_diag, app_nil_r. }
  lstep ltac:(by eapply Vector_dtor_run).
  unfold del_vec. cbn [mem objs]. f_equal. f_equal.
  - destruct (buffer_ (data_ v)) as [b|]; [|done].
    destruct Hb as [_ Hfresh]. by rewrite delete_insert_id.
  - by rewrite delete_insert_id.
Qed.

End LifetimeProperties.

(** ** Copy assignment from another vector *)

Section Assignment.
Context {T : Type} `{!Element T} `{!Allocator}.
Implicit Types (h : heap T) (w : world T) (a b : addr) (x y : T).
Implicit Types (l xs ys : list T) (v o r : Vector) (this other rhs : var).
Implicit Types (pre post : list (option T)).

Lemma copy_assign_run h a b (A B : list (option T)) i j x y :
  a ≠ b →
  h !! a = Some A → A !! j = Some (Some x) →
  h !! b = Some B → B !! i = Some (Some y) →
  copy_assign_throws x = false →
  copy_assign (Some b, i) (Some a, j) h = (Ret (), <[b := <[i := Some x]> B]> h).
Proof.
  intros Hab Ha Hj Hb Hi Hx. unfold copy_assign.
  erewrite bind_run by (by eapply load_run). rewrite Hx.
  by eapply store_run.
Qed.

(** [std::copy] from a block into another one, over live objects. *)
Lemma copy_loop_run xs : ∀ h a b pre post pre' ys post' i j,
  a ≠ b →
  h !! a = Some (pre ++ (Some <$> xs) ++ post) → i = length pre →
  h !! b = Some (pre' ++ (Some <$> ys) ++ post') → j = length pre' →
  length ys = length xs →
  Forall (λ x, copy_assign_throws x = false) xs →
  copy_loop (Some a, i) (Some b, j) (length xs) h
  = (Ret (), <[b := pre' ++ (Some <$> xs) ++ post']> h).
Proof.
  induction xs as [|x xs IH];
    intros h a b pre post pre' ys post' i j Hab Ha -> Hb -> Hys Hxs.
  - destruct ys; [|done]. simpl in *. by rewrite insert_id.
  - destruct ys as [|y ys]; [done|]. simpl in Hys.
    apply Forall_cons in Hxs as [Hx Hxs].
    cbn [length copy_loop].
    erewrite bind_run; last first.
    { eapply (copy_assign_run _ a b _ _ _ _ x y); try done.
      - by apply lookup_middle.
      - by apply lookup_middle. }
    cbn [fmap list_fmap app]. rewrite insert_middle by done.
    unfold ptr_add; cbn [fst snd].
    erewrite (IH _ a b (pre ++ [Some x]) post (pre' ++ [Some x]) ys post'); try done.
    + rewrite insert_insert_eq. by rewrite <- !app_assoc.
    + rewrite lookup_insert_ne by done. rewrite Ha. by rewrite <- app_assoc.
    + rewrite length_app. simpl. lia.
    + rewrite lookup_insert_eq. by rewrite <- app_assoc.
    + rewrite length_app. simpl. lia.
    + lia.
Qed.

(** Copy assignment from another vector whose elements fit in the block of
    the destination: the common prefix is copy-assigned, then the surplus of
    the destination is destroyed or the rest of the source copy-constructed. *)
Lemma Vector_copy_assign_fits w this rhs v r lv lr :
  this ≠ rhs →
  objs w !! this = Some v → objs w !! rhs = Some r →
  represents (mem w) v lv → represents (mem w) r lr →
  (∀ a, buffer_ (data_ v) = Some a → buffer_ (data_ r) ≠ Some a) →
  length lr ≤ capacity_ (data_ v) →
  Forall (λ x, copy_assign_throws x = false) (take (length lv) lr) →
  Forall (λ x, copy_ctor_throws x = false) (drop (length lv) lr) →
  Vector_copy_assign this rhs w
  = (Ret (),
     {| mem := match buffer_ (data_ v) with
               | Some a => <[a := (Some <$> lr)
                                  ++ replicate (capacity_ (data_ v) - length lr) None]> (mem w)
               | None => mem w
               end;
        objs := <[this := {| size_ := length lr; data_ := data_ v |}]> (objs w) |}).
Proof.
  intros Hne Hv Hr (Hsv & Hlev & Hbv & Hblkv) (Hsr & Hler & Hbr & Hblkr)
    Hdist Hfit Hassign Hctor.
  destruct v as [sv [bv cv]], r as [sr [br cr]], w as [h o].
  cbn [size_ data_ capacity_ buffer_ mem objs] in *. subst sv sr.
  assert (Hstv : is_size_t (length lv)).
  { eapply is_size_t_le; [|by apply (slots_size_t cv)]. done. }
  unfold Vector_copy_assign. get_this. step ltac:(by apply get_vec_at).
  rewrite bool_decide_eq_true_2 by done.
  unfold GetAddress, Capacity. cbn [size_ data_ capacity_ buffer_].
  destruct (Nat.ltb_spec cv (length lr)) as [|_]; [lia|].
  assert (Hend : ∀ h',
    (v ← get_vec this; r ← get_vec rhs;
     put_vec this {| size_ := size_ r; data_ := data_ v |})
      {| mem := h'; objs := o |}
    = (Ret (), {| mem := h';
                  objs := <[this := {| size_ := length lr;
                                       data_ := {| buffer_ := bv; capacity_ := cv |} |}]> o |})).
  { intros h'. get_this. step ltac:(by apply get_vec_at). reflexivity. }
  destruct bv as [a|].
  - destruct Hblkv as [Hcv Ha].
    destruct br as [b|].
    + destruct Hblkr as [Hcr Hb].
      assert (Hab : b ≠ a) by (intros ->; by eapply Hdist).
      destruct (Nat.ltb_spec (length lr) (length lv)) as [Hlt|Hge].
      * (* the destination is longer: assign, then destroy the surplus *)
        rewrite Nat.min_r by lia.
        assert (Ha' : h !! a = Some ((Some <$> take (length lr) lv)
                        ++ (Some <$> drop (length lr) lv)
                        ++ replicate (cv - length lv) None)).
        { rewrite Ha, app_assoc, <- fmap_app, take_drop. done. }
        lstep ltac:(
          unfold std_copy;
          erewrite bind_run by (apply ptr_diff_run; simpl; [done|lia]);
          cbn [ptr_add fst snd];
          replace (0 + length lr - 0) with (length lr) by lia;
          apply (copy_loop_run lr h b a [] (replicate (cr - length lr) None)
                   [] (take (length lr) lv)
                   ((Some <$> drop (length lr) lv) ++ replicate (cv - length lv) None));
          [done|done|done|done|done|rewrite length_take; lia|
           by rewrite take_ge in Hassign by lia]).
        rewrite size_sub_le by (done || lia).
        lstep ltac:(
          cbn [ptr_add fst snd];
          apply (destroy_n_live (drop (length lr) lv) _ a (Some <$> lr)
                   (replicate (cv - length lv) None));
          [rewrite lookup_insert_eq; by rewrite app_nil_l
          |by rewrite length_fmap
          |rewrite length_drop; lia]).
        rewrite Hend. cbn [mem objs]. f_equal. f_equal.
        rewrite insert_insert_eq. f_equal. f_equal.
        rewrite <- replicate_add. f_equal. lia.
      * (* the source is at least as long: assign, then construct the rest *)
        rewrite Nat.min_l by lia.
        assert (Hb' : h !! b = Some ((Some <$> take (length lv) lr)
                        ++ (Some <$> drop (length lv) lr)
                        ++ replicate (cr - length lr) None)).
        { rewrite Hb, app_assoc, <- fmap_app, take_drop. done. }
        lstep ltac:(
          unfold std_copy;
          erewrite bind_run by (apply ptr_diff_run; simpl; [done|lia]);
          cbn [ptr_add fst snd];
          replace (0 + length lv - 0) with (length (take (length lv) lr))
            by (rewrite length_take; lia);
          apply (copy_loop_run (take (length lv) lr) h b a []
                   ((Some <$> drop (length lv) lr) ++ replicate (cr - length lr) None)
                   [] lv (replicate (cv - length lv) None));
          [done|done|done|done|done|rewrite length_take; lia|done]).
        destruct (Nat.ltb_spec (length lr) (length lv)) as [|_]; [lia|].
        lstep ltac:(apply RawMemory_plus_run; simpl; lia).
        lstep ltac:(apply RawMemory_plus_run; simpl; lia).
        lstep ltac:(apply RawMemory_plus_run; simpl; lia).
        cbn [buffer_ app].
        assert (Hrest : cv - length lv
                        = length (drop (length lv) lr) + (cv - length lr)).
        { rewrite length_drop. lia. }
        lstep ltac:(
          unfold std_copy, uninitialized_copy;
          erewrite bind_run by (apply ptr_diff_run; simpl; [done|lia]);
          cbn [fst snd];
          replace (length lr - length lv) with (length (drop (length lv) lr))
            by (rewrite length_drop; lia);
          unfold uninitialized_copy_n;
          apply (uninitialized_copy_loop_run (drop (length lv) lr) _ b a
                   (Some <$> take (length lv) lr) (replicate (cr - length lr) None)
                   (Some <$> take (length lv) lr)
                   (replicate (length (drop (length lv) lr)) None)
                   (replicate (cv - length lr) None) (length lv) (length lv) 0);
          [done
          |by rewrite lookup_insert_ne
          |rewrite length_fmap, length_take; lia
          |rewrite lookup_insert_eq, Hrest, replicate_add; done
          |rewrite length_fmap, length_take; lia
          |by rewrite length_replicate
          |done]).
        rewrite Hend. cbn [mem objs]. f_equal. f_equal.
        rewrite insert_insert_eq. f_equal.
        rewrite app_assoc, <- fmap_app, take_drop. done.
    + (* the source owns no block: it is empty *)
      assert (lr = []) as -> by (apply length_zero_iff_nil; lia).
      cbn [length] in *. rewrite Nat.min_0_r.
      lstep ltac:(reflexivity).
      destruct lv as [|x0 lv'] eqn:Elv.
      * cbn [length]. cbn [Nat.ltb Nat.leb].
        lstep ltac:(reflexivity). lstep ltac:(reflexivity). lstep ltac:(reflexivity).
        lstep ltac:(reflexivity).
        rewrite Hend. cbn [mem objs]. f_equal. f_equal.
        rewrite insert_id; [done|]. rewrite Ha. simpl. done.
      * rewrite <- Elv in *.
        assert (Hpos : 0 < length lv) by (subst lv; simpl; lia).
        destruct (Nat.ltb_spec 0 (length lv)) as [_|]; [|lia].
        rewrite size_sub_le by (done || lia).
        lstep ltac:(
          cbn [ptr_add fst snd];
          replace (0 + 0) with 0 by done;
          replace (length lv - 0) with (length lv) by lia;
          apply (destroy_n_live lv _ a [] (replicate (cv - length lv) None));
          [by rewrite app_nil_l|done|done]).
        rewrite Hend. cbn [mem objs]. f_equal. f_equal. f_equal.
        cbn [fmap list_fmap app]. rewrite <- replicate_add. f_equal. lia.
  - (* the destination owns no block: both are empty *)
    assert (lr = []) as -> by (apply length_zero_iff_nil; lia).
    assert (lv = []) as -> by (apply length_zero_iff_nil; lia).
    cbn [length] in *. cbn [Nat.min Nat.ltb Nat.leb].
    lstep ltac:(
      unfold std_copy;
      erewrite bind_run by (apply ptr_diff_run; simpl; [done|lia]);
      reflexivity).
    destruct (Nat.leb_spec cr 0); cbn [Nat.leb].
    + lstep ltac:(apply RawMemory_plus_run; simpl; lia).
      lstep ltac:(apply RawMemory_plus_run; simpl; lia).
      lstep ltac:(apply RawMemory_plus_run; simpl; lia).
      lstep ltac:(
        unfold uninitialized_copy;
        erewrite bind_run by (apply ptr_diff_run; simpl; [done|lia]);
        reflexivity).
      by rewrite Hend.
    + lstep ltac:(apply RawMemory_plus_run; simpl; lia).
      lstep ltac:(apply RawMemory_plus_run; simpl; lia).
      lstep ltac:(apply RawMemory_plus_run; simpl; lia).
      lstep ltac:(
        unfold uninitialized_copy;
        erewrite bind_run by (apply ptr_diff_run; simpl; [done|lia]);
        reflexivity).
      by rewrite Hend.
Qed.

(** Copy assignment from another vector with more elements than the
    destination has slots: a copy is constructed, swapped in, and what the
    destination held is destroyed and released. *)
Lemma Vector_copy_assign_grows w this rhs v r lv lr :
  this ≠ rhs →
  objs w !! this = Some v → objs w !! rhs = Some r →
  represents (mem w) v lv → represents (mem w) r lr →
  capacity_ (data_ v) < length lr →
  Forall (λ x, copy_ctor_throws x = false) lr →
  ∃ b, mem w !! b = None ∧
    Vector_copy_assign this rhs w
    = (Ret (),
       {| mem := match buffer_ (data_ v) with
                 | Some a => delete a (<[b := Some <$> lr]> (mem w))
                 | None => <[b := Some <$> lr]> (mem w)
                 end;
          objs := <[this := {| size_ := length lr;
                               data_ := {| buffer_ := Some b;
                                           capacity_ := length lr |} |}]> (objs w) |}).
Proof.
  intros Hne Hv Hr Hrepv Hrepr Hgrow Hctor.
  destruct w as [h o]. cbn [mem objs] in *.
  destruct (Vector_copy_ctor_run h r lr Hrepr Hctor) as (c & Hrun & Hs & Hc & Hb).
  destruct c as [sc [bc cc]]. cbn [size_ data_ capacity_ buffer_] in *. subst sc cc.
  destruct bc as [b|]; [|subst lr; simpl in Hgrow; lia].
  destruct Hb as [_ Hfresh]. exists b. split; [done|].
  destruct Hrepr as (Hsr & _).
  unfold Vector_copy_assign. get_this. step ltac:(by apply get_vec_at).
  rewrite bool_decide_eq_true_2 by done. unfold Capacity. rewrite Hsr.
  destruct (Nat.ltb_spec (capacity_ (data_ v)) (length lr)) as [_|]; [|lia].
  lstep ltac:(exact Hrun).
  cbn [swap_vectors RawMemory_Swap data_ size_ buffer_ capacity_].
  put_this.
  assert (Hrepv' : represents (<[b := Some <$> lr]> h)
                     {| size_ := size_ v;
                        data_ := {| buffer_ := buffer_ (data_ v);
                                    capacity_ := capacity_ (data_ v) |} |} lv).
  { destruct Hrepv as (H1 & H2 & H3 & H4). repeat split; try done.
    cbn [data_ buffer_ capacity_].
    destruct (buffer_ (data_ v)) as [a|]; [|done]. destruct H4 as [H4 H5].
    split; [done|]. rewrite lookup_insert_ne; [done|]. intros <-. congruence. }
  lstep ltac:(by eapply Vector_dtor_run).
  cbn [data_ buffer_].
  get_this.
  step ltac:(apply get_vec_at; by rewrite lookup_insert_ne).
  unfold put_vec. cbn [mem objs size_ data_]. rewrite Hsr.
  by rewrite insert_insert_eq.
Qed.

Lemma never_throws_Vector_dtor v : never_throws (Vector_dtor (T:=T) v).
Proof.
  apply never_throws_bind; [apply never_throws_destroy_n|]. intros _.
  apply never_throws_RawMemory_dtor.
Qed.

(** In the reallocating branch of copy assignment only the construction of
    the copy can throw, and it has cleaned up after itself. *)
Lemma wp_copy_assign_grow w this rhs v r :
  this ≠ rhs →
  objs w !! this = Some v → objs w !! rhs = Some r →
  capacity_ (data_ v) < size_ r →
  wp (Vector_copy_assign this rhs) w (λ _ _, True) (λ _ w', w' = w).
Proof.
  intros Hne Hv Hr Hgrow. unfold Vector_copy_assign.
  apply wp_bind, wp_get_vec. intros v0 Hv0.
  apply wp_bind, wp_get_vec. intros r0 Hr0.
  assert (v0 = v) as -> by congruence. assert (r0 = r) as -> by congruence.
  rewrite bool_decide_eq_true_2 by done. unfold Capacity.
  destruct (Nat.ltb_spec (capacity_ (data_ v)) (size_ r)) as [_|]; [|lia].
  apply wp_bind.
  eapply wp_mono with (Q := λ _ _, True) (E := λ _ w', w' = w); [| |done].
  - apply wp_bind, wp_lift.
    eapply wp_mono; [apply wp_Vector_copy_ctor_throw| |].
    + intros c h1 _. cbn beta. destruct (swap_vectors v c) as [v' c'].
      apply wp_never_throws.
      apply never_throws_bind; [apply never_throws_put_vec|]. intros _.
      apply never_throws_lift, never_throws_Vector_dtor.
    + intros e h' ->. by apply world_eta.
  - intros _ w1 _. apply wp_never_throws.
    apply never_throws_bind; [apply never_throws_get_vec|]. intros v1.
    apply never_throws_bind; [apply never_throws_get_vec|]. intros r1.
    apply never_throws_put_vec.
Qed.

End Assignment.

Section AssignmentProperties.
Context {T : Type} `{!Element T} `{!Allocator}.
Implicit Types (h : heap T) (w : world T) (a b : addr) (x y : T).
Implicit Types (l xs ys : list T) (v o r : Vector) (this other rhs : var).

(** X10: copy assignment from another vector (with a block of its own),
    when no copy throws, leaves the destination with the elements of the
    source and the source as it was.  If the elements fit, the destination
    keeps its block and capacity; if not, it gets a new block of exactly
    [size] slots and its old block is released. *)
Theorem copy_assign_copies w this rhs v r lv lr :
  this ≠ rhs →
  objs w !! this = Some v → objs w !! rhs = Some r →
  represents (mem w) v lv → represents (mem w) r lr →
  (∀ a, buffer_ (data_ v) = Some a → buffer_ (data_ r) ≠ Some a) →
  Forall (λ x, copy_ctor_throws x = false ∧ copy_assign_throws x = false) lr →
  ∃ w' v',
    Vector_copy_assign this rhs w = (Ret (), w') ∧
    objs w' = <[this := v']> (objs w) ∧
    represents (mem w') v' lr ∧
    represents (mem w') r lr ∧
    capacity_ (data_ v') = Nat.max (capacity_ (data_ v)) (length lr) ∧
    (length lr ≤ capacity_ (data_ v) → data_ v' = data_ v) ∧
    (capacity_ (data_ v) < length lr →
     ∀ a, buffer_ (data_ v) = Some a → mem w' !! a = None).
Proof.
  intros Hne Hv Hr Hrepv Hrepr Hdist Hl.
  assert (Hctor : Forall (λ x, copy_ctor_throws x = false) lr).
  { eapply Forall_impl; [exact Hl|]. by intros x []. }
  assert (Hassign : Forall (λ x, copy_assign_throws x = false) lr).
  { eapply Forall_impl; [exact Hl|]. by intros x []. }
  destruct (Nat.le_gt_cases (length lr) (capacity_ (data_ v))) as [Hfit|Hgrow].
  - eexists _, _. split.
    { apply (Vector_copy_assign_fits w this rhs v r lv lr); try done.
      - by apply Forall_take.
      - by apply Forall_drop. }
    split; [reflexivity|].
    cbn [mem objs data_ size_].
    destruct Hrepv as (Hsv & Hlev & Hbv & Hblkv).
    destruct Hrepr as (Hsr & Hler & Hbr & Hblkr).
    split; [|split; [|split; [lia|split; [done|lia]]]].
    + unfold represents. cbn [data_ size_].
      split; [done|]. split; [done|]. split; [done|].
      destruct (buffer_ (data_ v)) as [a|]; [|done]. destruct Hblkv as [Hcv _].
      split; [done|apply lookup_insert_eq].
    + unfold represents.
      split; [done|]. split; [done|]. split; [done|].
      destruct (buffer_ (data_ r)) as [b|] eqn:Eb; [|done]. destruct Hblkr as [Hcr Hb].
      split; [done|].
      destruct (buffer_ (data_ v)) as [a|] eqn:Ea; [|done].
      rewrite lookup_insert_ne; [done|]. intros ->. by eapply Hdist.
  - destruct (Vector_copy_assign_grows w this rhs v r lv lr) as (b & Hfresh & Hrun);
      try done.
    eexists _, _. split; [exact Hrun|]. split; [reflexivity|].
    cbn [mem objs data_ size_ capacity_ buffer_].
    destruct Hrepv as (Hsv & Hlev & Hbv & Hblkv).
    destruct Hrepr as (Hsr & Hler & Hbr & Hblkr).
    assert (Hnew : ∀ a, buffer_ (data_ v) = Some a → a ≠ b).
    { intros a Ea ->. rewrite Ea in Hblkv. destruct Hblkv as [_ Ha]. congruence. }
    split; [|split; [|split; [lia|split; [lia|]]]].
    + unfold represents. cbn [size_ data_ capacity_ buffer_].
      split; [done|]. split; [done|]. split; [pose proof sizeof_T_pos; nia|].
      split; [lia|]. rewrite Nat.sub_diag, app_nil_r.
      destruct (buffer_ (data_ v)) as [a|] eqn:Ea.
      * rewrite lookup_delete_ne by (by apply Hnew). apply lookup_insert_eq.
      * apply lookup_insert_eq.
    + unfold represents.
      split; [done|]. split; [done|]. split; [done|].
      destruct (buffer_ (data_ r)) as [c|] eqn:Ec; [|done].
      destruct Hblkr as [Hcr Hc]. split; [done|].
      assert (c ≠ b) by (intros ->; congruence).
      destruct (buffer_ (data_ v)) as [a|] eqn:Ea.
      * rewrite lookup_delete_ne by (intros ->; by eapply Hdist).
        by rewrite lookup_insert_ne.
      * by rewrite lookup_insert_ne.
    + intros _ a Ea. rewrite Ea. apply lookup_delete_eq.
Qed.

(** X11: when the source has more elements than the destination has slots,
    a copy assignment that throws leaves the state as it was (the strong
    guarantee of the copy-and-swap branch). *)
Theorem copy_assign_grow_strong w this rhs v r e w' :
  this ≠ rhs →
  objs w !! this = Some v → objs w !! rhs = Some r →
  capacity_ (data_ v) < size_ r →
  Vector_copy_assign this rhs w = (Throw e, w') → w' = w.
Proof.
  intros Hne Hv Hr Hgrow Hrun.
  exact (wp_run _ _ _ _ _ _ (wp_copy_assign_grow w this rhs v r Hne Hv Hr Hgrow) Hrun).
Qed.

End AssignmentProperties.

(** ** [Resize] *)

Section ResizeProperties.
Context {T : Type} `{!Element T} `{!Allocator}.
Implicit Types (h : heap T) (w : world T) (a b : addr) (x y : T).
Implicit Types (l xs ys : list T) (v o r : Vector) (this other rhs : var).

(** [Resize] to fewer elements destroys the surplus where it is. *)
Lemma Resize_shrink w this v l n :
  objs w !! this = Some v → represents (mem w) v l → n < length l →
  ∃ w',
    Resize this n w = (Ret (), w') ∧
    objs w' = <[this := {| size_ := n; data_ := data_ v |}]> (objs w) ∧
    represents (mem w') {| size_ := n; data_ := data_ v |} (take n l).
Proof.
  intros Hv (Hsz & Hle & Hbytes & Hblk) Hn.
  destruct v as [sz [buf cap]], w as [h o].
  cbn [size_ data_ capacity_ buffer_ mem objs] in *. subst sz.
  assert (Hst : is_size_t (length l)).
  { eapply is_size_t_le; [|by apply (slots_size_t cap)]. done. }
  destruct buf as [a|]; [|lia]. destruct Hblk as [Hcap Ha].
  unfold Resize. get_this. cbn [size_ data_].
  rewrite bool_decide_eq_true_2 by lia.
  destruct (Nat.ltb_spec n (length l)) as [_|]; [|lia].
  rewrite size_sub_le by (done || lia).
  lstep ltac:(
    unfold GetAddress, ptr_add; cbn [buffer_ fst snd Nat.add];
    apply (destroy_n_live (drop n l) h a (Some <$> take n l)
             (replicate (cap - length l) None));
    [by rewrite Ha, app_assoc, <- fmap_app, take_drop
    |rewrite length_fmap, length_take; lia
    |rewrite length_drop; lia]).
  eexists. split; [reflexivity|]. cbn [mem objs]. split; [done|].
  unfold represents. cbn [size_ data_ capacity_ buffer_].
  rewrite length_take, Nat.min_l by lia.
  split; [done|]. split; [lia|]. split; [done|]. split; [done|].
  rewrite lookup_insert_eq. f_equal. f_equal.
  rewrite <- replicate_add. f_equal. lia.
Qed.

(** [Resize] to more elements: [Reserve] if the block is too small, then
    value-construct the new elements behind the old ones. *)
Lemma Resize_grow w this v l n x :
  objs w !! this = Some v → represents (mem w) v l → length l < n →
  (∀ i, i < n - length l → value_init i = Some x) →
  (capacity_ (data_ v) < n → n * sizeof_T ≤ max_bytes ∧ transfer_ok l) →
  ∃ w' v',
    Resize this n w = (Ret (), w') ∧
    objs w' = <[this := v']> (objs w) ∧
    represents (mem w') v' (l ++ replicate (n - length l) x) ∧
    capacity_ (data_ v') = Nat.max (capacity_ (data_ v)) n ∧
    (n ≤ capacity_ (data_ v) → data_ v' = data_ v).
Proof.
  intros Hv Hrep Hn Hx Hgrow.
  assert (Hres : ∃ w1 v1,
    (if Capacity (data_ v) <? n then Reserve this n else mret ()) w = (Ret (), w1) ∧
    objs w1 = <[this := v1]> (objs w) ∧
    represents (mem w1) v1 l ∧
    capacity_ (data_ v1) = Nat.max (capacity_ (data_ v)) n ∧
    (n ≤ capacity_ (data_ v) → data_ v1 = data_ v)).
  { unfold Capacity. destruct (Nat.ltb_spec (capacity_ (data_ v)) n) as [Hlt|Hge].
    - destruct (Hgrow Hlt) as [Hbytes Hok].
      destruct (Reserve_grow w this v l n Hv Hrep Hlt Hbytes Hok)
        as (w1 & v1 & Hrun & Ho & Hrep1 & Hcap1).
      exists w1, v1.
      split; [done|]. split; [done|]. split; [done|]. split; lia.
    - exists w, v.
      split; [done|]. split; [by rewrite insert_id|]. split; [done|].
      split; [lia|done]. }
  destruct Hres as (w1 & v1 & Hrun1 & Ho1 & (Hsz & Hle & Hbytes & Hblk) & Hcap1 & Hsame).
  assert (Hsv : size_ v = length l) by (by destruct Hrep).
  destruct v1 as [sz [buf cap]], w1 as [h1 o1], w as [h o].
  cbn [size_ data_ capacity_ buffer_ mem objs] in *. subst sz o1.
  assert (Hncap : n ≤ cap) by lia.
  assert (Hst : is_size_t n).
  { eapply is_size_t_le; [|by apply (slots_size_t cap)]. done. }
  destruct buf as [b|]; [|lia]. destruct Hblk as [Hcap Hb].
  unfold Resize. get_this. rewrite Hsv.
  rewrite bool_decide_eq_true_2 by lia.
  destruct (Nat.ltb_spec n (length l)) as [|_]; [lia|].
  destruct (Nat.ltb_spec (length l) n) as [_|]; [|lia].
  step ltac:(exact Hrun1).
  get_this. cbn [size_ data_].
  rewrite size_sub_le by (done || lia).
  lstep ltac:(
    unfold uninitialized_value_construct_n, GetAddress, ptr_add;
    cbn [buffer_ fst snd Nat.add];
    apply (uninitialized_value_loop_run (n - length l) h1 b (Some <$> l)
             (replicate (cap - n) None) x (length l) 0);
    [intros k _ Hk; by apply Hx
    |rewrite Hb, <- replicate_add; do 3 f_equal; lia
    |rewrite length_fmap; lia]).
  eexists _, {| size_ := n; data_ := {| buffer_ := Some b; capacity_ := cap |} |}.
  split; [reflexivity|]. cbn [mem objs size_ data_ capacity_ buffer_].
  split; [by rewrite insert_insert_eq|].
  split; [|done].
  unfold represents. cbn [size_ data_ capacity_ buffer_].
  rewrite length_app, length_replicate.
  split; [lia|]. split; [lia|]. split; [done|]. split; [done|].
  rewrite lookup_insert_eq. f_equal.
  rewrite fmap_app, fmap_replicate, <- app_assoc. do 3 f_equal. lia.
Qed.

(** X12: [Resize(n)] leaves the first [min n size] elements where they
    were, destroys those from [n] on, and appends value-initialised
    elements up to [n].  The block is kept unless [n] exceeds the capacity,
    in which case the new capacity is exactly [n]. *)
Theorem Resize_sets_size w this v l n x :
  objs w !! this = Some v → represents (mem w) v l →
  (∀ i, i < n - length l → value_init i = Some x) →
  (capacity_ (data_ v) < n → n * sizeof_T ≤ max_bytes ∧ transfer_ok l) →
  ∃ w' v',
    Resize this n w = (Ret (), w') ∧
    objs w' = <[this := v']> (objs w) ∧
    represents (mem w') v' (take n l ++ replicate (n - length l) x) ∧
    size_ v' = n ∧
    capacity_ (data_ v') = Nat.max (capacity_ (data_ v)) n ∧
    (n ≤ capacity_ (data_ v) → data_ v' = data_ v).
Proof.
  intros Hv Hrep Hx Hgrow.
  pose proof Hrep as (Hsz & Hle & _).
  destruct (Nat.lt_total n (length l)) as [Hlt|[Heq|Hgt]].
  - destruct (Resize_shrink w this v l n Hv Hrep Hlt) as (w' & Hrun & Ho & Hrep').
    eexists w', _. split; [exact Hrun|]. split; [exact Ho|].
    replace (n - length l) with 0 by lia. rewrite app_nil_r.
    split; [done|]. cbn [size_ data_]. split; [done|]. split; [lia|done].
  - exists w, v. subst n. split; [|split; [by rewrite insert_id|]].
    + unfold Resize. destruct w as [h o]. cbn [objs] in Hv. get_this.
      by rewrite bool_decide_eq_false_2 by lia.
    + rewrite Nat.sub_diag, app_nil_r, firstn_all.
      split; [done|]. split; [done|]. split; [lia|done].
  - destruct (Resize_grow w this v l n x Hv Hrep Hgt Hx Hgrow)
      as (w' & v' & Hrun & Ho & Hrep' & Hcap & Hsame).
    exists w', v'. rewrite take_ge by lia.
    split; [done|]. split; [done|]. split; [done|]. split; [|done].
    destruct Hrep' as [-> _]. rewrite length_app, length_replicate. lia.
Qed.

End ResizeProperties.

(** ** Element access and iterators *)

Section AccessProperties.
Context {T : Type} `{!Element T} `{!Allocator}.
Implicit Types (h : heap T) (w : world T) (a b : addr) (x y : T).
Implicit Types (l xs ys : list T) (v o r : Vector) (this other rhs : var).

Lemma represents_lookup h v l i x :
  represents h v l → l !! i = Some x →
  ∃ a blk, buffer_ (data_ v) = Some a ∧ h !! a = Some blk ∧
           blk !! i = Some (Some x) ∧ i < capacity_ (data_ v).
Proof.
  intros (Hsz & Hle & Hbytes & Hblk) Hi.
  pose proof (lookup_lt_Some _ _ _ Hi) as Hlt.
  destruct (buffer_ (data_ v)) as [a|]; [|lia]. destruct Hblk as [_ Ha].
  eexists a, _. split; [done|]. split; [exact Ha|]. split; [|lia].
  rewrite lookup_app_l by (by rewrite length_fmap).
  by rewrite list_lookup_fmap, Hi.
Qed.

(** X13: [operator[]] on a well-formed vector returns the address
    [begin() + i] of the [i]-th element when [i < size]; an index from
    [size] on, also one below the capacity, fails the assertion. *)
Theorem Vector_index_checks_size h v l i :
  represents h v l →
  (∀ x, l !! i = Some x →
        Vector_index v i h = (Ret (begin_ v +ₚ i), h) ∧
        load (begin_ v +ₚ i) h = (Ret x, h)) ∧
  (length l ≤ i → Vector_index v i h = (Undef, h)).
Proof.
  intros Hrep. pose proof Hrep as (Hsz & Hle & _). split.
  - intros x Hi.
    destruct (represents_lookup h v l i x Hrep Hi) as (a & blk & Ea & Ha & Hblk & Hcap).
    pose proof (lookup_lt_Some _ _ _ Hi) as Hlt.
    unfold Vector_index, begin_, GetAddress, ptr_add. cbn [fst snd Nat.add].
    rewrite Hsz. destruct (Nat.ltb_spec i (length l)) as [_|]; [|lia].
    split.
    + cbn [assert]. erewrite bind_run by reflexivity.
      by apply RawMemory_index_run.
    + rewrite Ea. by eapply load_run.
  - intros Hge. unfold Vector_index. rewrite Hsz.
    by destruct (Nat.ltb_spec i (length l)) as [|_]; [lia|].
Qed.

(** X14: on a well-formed vector [end()] is [begin() + size], so that
    [end() - begin()] is the number of elements; [cbegin()] and [cend()]
    are the same positions. *)
Theorem end_minus_begin h v l :
  represents h v l →
  end_ v h = (Ret (begin_ v +ₚ length l), h) ∧
  ptr_diff (begin_ v +ₚ length l) (begin_ v) h = (Ret (length l), h) ∧
  cend v h = (Ret (cbegin v +ₚ length l), h) ∧
  cbegin v = begin_ v.
Proof.
  intros (Hsz & Hle & _).
  assert (He : end_ v h = (Ret (begin_ v +ₚ length l), h)).
  { unfold end_. rewrite Hsz. by apply RawMemory_plus_run. }
  split; [exact He|]. split; [|split; [exact He|done]].
  rewrite ptr_diff_run; [|done|simpl; lia].
  simpl. do 2 f_equal. lia.
Qed.

End AccessProperties.

(** ** Appending in place, and calls that throw *)

Section InPlace.
Context {T : Type} `{!Element T} `{!Allocator}.
Implicit Types (h : heap T) (w : world T) (a b : addr) (x y : T).
Implicit Types (l xs ys : list T) (v o r : Vector) (this other rhs : var).

(** [EmplaceBack] with room left: the new element goes into the first raw
    slot; nothing else is read or written. *)
Lemma EmplaceBack_in_place h (o : gmap var Vector) this a cap l args x :
  o !! this = Some {| size_ := length l;
                      data_ := {| buffer_ := Some a; capacity_ := cap |} |} →
  h !! a = Some ((Some <$> l) ++ replicate (cap - length l) None) →
  length l < cap → cap * sizeof_T ≤ max_bytes →
  construct args = Some x →
  EmplaceBack this args {| mem := h; objs := o |}
  = (Ret (Some a, length l),
     {| mem := <[a := (Some <$> l ++ [x]) ++ replicate (cap - S (length l)) None]> h;
        objs := <[this := {| size_ := S (length l);
                             data_ := {| buffer_ := Some a; capacity_ := cap |} |}]> o |}).
Proof.
  intros Hv Ha Hlt Hbytes Hx.
  unfold EmplaceBack. get_this.
  cbn [size_ data_ capacity_ buffer_ Capacity].
  destruct (Nat.ltb_spec (length l) cap) as [_|]; [|lia].
  rewrite (replicate_S_sub cap (length l)) in Ha by done.
  erewrite bind_run; last first.
  { lstep ltac:(apply RawMemory_plus_run; simpl; lia).
    apply lift_run_at. unfold construct_at. rewrite Hx.
    eapply emplace_at_run; [done|]. apply length_middle. by rewrite length_fmap. }
  cbn [mem objs buffer_]. rewrite insert_middle by (by rewrite length_fmap).
  get_this. put_this. get_this. cbn [size_ data_].
  assert (Hst : is_size_t (length l + 1)).
  { eapply is_size_t_le; [|by apply (slots_size_t cap)]. lia. }
  rewrite size_add_id by done.
  rewrite size_sub_le by (done || lia).
  lift_last ltac:(apply RawMemory_index_run; simpl; lia).
  cbn [buffer_]. replace (length l + 1 - 1) with (length l) by lia.
  replace (length l + 1) with (S (length l)) by lia.
  do 3 f_equal. by rewrite fmap_app, <- app_assoc.
Qed.

(** [PopBack] on the block of a vector with at least one element. *)
Lemma PopBack_at h (o : gmap var Vector) this a cap l x (post : list (option T)) :
  o !! this = Some {| size_ := S (length l);
                      data_ := {| buffer_ := Some a; capacity_ := cap |} |} →
  h !! a = Some ((Some <$> l) ++ Some x :: post) →
  is_size_t (S (length l)) →
  PopBack this {| mem := h; objs := o |}
  = (Ret (),
     {| mem := <[a := (Some <$> l) ++ None :: post]> h;
        objs := <[this := {| size_ := length l;
                             data_ := {| buffer_ := Some a; capacity_ := cap |} |}]> o |}).
Proof.
  intros Hv Ha Hst. unfold PopBack. get_this.
  cbn [size_ data_ capacity_ buffer_].
  lstep ltac:(apply ptr_sub_run; simpl; lia).
  unfold GetAddress, ptr_add. cbn [fst snd buffer_].
  replace (0 + S (length l) - 1) with (length l) by lia.
  lstep ltac:(eapply (destroy_n_live [x] _ a (Some <$> l) post);
              [exact Ha|by rewrite length_fmap|done]).
  rewrite size_sub_le by (done || lia).
  unfold put_vec. cbn [mem objs replicate app].
  by replace (S (length l) - 1) with (length l) by lia.
Qed.

Lemma EmplaceWithoutRealloc_construct_fails w this v dist args :
  objs w !! this = Some v → construct args = None →
  EmplaceWithoutRealloc this dist args w = (Throw element_exn, w).
Proof.
  intros Hv Hx. destruct w as [h o]. cbn [objs] in Hv.
  unfold EmplaceWithoutRealloc. get_this. by rewrite Hx.
Qed.

(** A reallocating insertion whose constructor throws: the block obtained
    (if any) is released. *)
Lemma EmplaceWithRealloc_construct_fails w this v l dist args :
  objs w !! this = Some v → represents (mem w) v l → dist ≤ length l →
  construct args = None →
  ∃ e, EmplaceWithRealloc this dist args w = (Throw e, w).
Proof.
  intros Hv (Hsz & Hle & Hbytes & Hblk) Hdist Hx.
  destruct v as [sz [buf cap]], w as [h o].
  cbn [size_ data_ capacity_ buffer_ mem objs] in *. subst sz.
  unfold EmplaceWithRealloc. get_this. cbn [size_ data_ capacity_ buffer_].
  set (n := if length l =? 0 then 1 else size_mul (length l) 2).
  assert (Hn : n ≠ 0 ∧ dist ≤ n).
  { subst n. destruct (Nat.eqb_spec (length l) 0) as [E|E]; [lia|].
    rewrite size_mul_id; [lia|].
    apply (double_size_t (length l)). pose proof sizeof_T_pos. nia. }
  destruct Hn as [Hpos Hdn].
  destruct (size_mul n sizeof_T <=? max_bytes) eqn:Hgrant.
  - erewrite bind_run; last first.
    { apply lift_run_at. unfold RawMemory_ctor, Allocate.
      rewrite bool_decide_eq_true_2 by done.
      erewrite bind_run; [reflexivity|].
      erewrite bind_run; [reflexivity|].
      unfold operator_new. rewrite Hgrant. reflexivity. }
    erewrite bind_throw; [by exists element_exn|].
    eapply on_unwind_throw.
    + lstep ltac:(apply RawMemory_plus_run; simpl; lia).
      erewrite bind_throw; [reflexivity|].
      apply lift_run_at. unfold construct_at. rewrite Hx. reflexivity.
    + erewrite lift_run_at; last first.
      { eapply RawMemory_dtor_run. apply lookup_insert_eq. }
      by rewrite delete_insert_id by apply fresh_None.
  - erewrite bind_throw; [by exists bad_alloc|].
    apply lift_run_at. unfold RawMemory_ctor, Allocate.
    rewrite bool_decide_eq_true_2 by done.
    erewrite bind_throw; [reflexivity|].
    erewrite bind_throw; [reflexivity|].
    unfold operator_new. by rewrite Hgrant.
Qed.

Lemma EmplaceBack_room_construct_fails w this v l args :
  objs w !! this = Some v → represents (mem w) v l →
  length l < capacity_ (data_ v) → construct args = None →
  EmplaceBack this args w = (Throw element_exn, w).
Proof.
  intros Hv (Hsz & Hle & Hbytes & Hblk) Hlt Hx.
  destruct v as [sz [buf cap]], w as [h o].
  cbn [size_ data_ capacity_ buffer_ mem objs] in *. subst sz.
  unfold EmplaceBack. get_this. cbn [size_ data_ capacity_ buffer_ Capacity].
  destruct (Nat.ltb_spec (length l) cap) as [_|]; [|lia].
  erewrite bind_throw; [reflexivity|].
  lstep ltac:(apply RawMemory_plus_run; simpl; lia).
  apply lift_run_at. unfold construct_at. by rewrite Hx.
Qed.

(** Whatever the element type, a [Reserve] that throws leaves the state as
    it was when the relocation copies or cannot throw. *)
Lemma wp_Reserve_throw w this n :
  is_nothrow_move_constructible = true ∨ is_copy_constructible = true →
  wp (Reserve this n) w (λ _ _, True) (λ _ w', w' = w).
Proof.
  intros Hty. unfold Reserve.
  apply wp_bind, wp_get_vec. intros v Hv.
  destruct (n <=? Capacity (data_ v)); [done|].
  apply wp_bind, wp_lift.
  eapply wp_mono; [apply wp_RawMemory_ctor| |]; cbn beta;
    [|by intros e h' ->; apply world_eta].
  intros nd h1 (Hcap & Honly & Hnull & Hfresh).
  apply wp_bind, wp_on_unwind.
  eapply wp_mono
    with (Q := λ _ _, True)
         (E := λ _ w2, objs w2 = objs w ∧ only_at (buffer_ nd) (mem w) (mem w2)).
  - apply wp_lift. cbn [mem objs].
    eapply wp_mono; [by apply wp_transfer_throw|done|]. cbn beta.
    intros e h3 Honly3. split; [done|]. by eapply only_at_trans.
  - intros _ w2 _. cbn beta.
    apply wp_never_throws.
    apply never_throws_bind;
      [apply never_throws_lift, never_throws_destroy_n|]; intros _.
    destruct (RawMemory_Swap (data_ v) nd) as [d nd'].
    apply never_throws_bind; [apply never_throws_put_vec|]; intros _.
    apply never_throws_lift, never_throws_RawMemory_dtor.
  - intros e [h2 o2] [Ho Honly2]. cbn [mem objs] in *. subst o2.
    apply wp_lift. cbn [mem objs].
    eapply wp_mono; [by apply wp_RawMemory_dtor_fresh; [|apply Hfresh]| |done].
    intros _ h3 ->. by apply world_eta.
Qed.

End InPlace.

Section InPlaceProperties.
Context {T : Type} `{!Element T} `{!Allocator}.
Implicit Types (h : heap T) (w : world T) (a b : addr) (x y : T).
Implicit Types (l xs ys : list T) (v o r : Vector) (this other rhs : var).

(** X15: [EmplaceBack] on a vector with spare capacity constructs the new
    element in the first free slot of the block the vector has: the block
    and the capacity stay, no other slot and no other block is written, no
    element is moved or copied, and the reference returned is to the new
    element. *)
Theorem EmplaceBack_with_room w this v l args x :
  objs w !! this = Some v → represents (mem w) v l →
  length l < capacity_ (data_ v) → construct args = Some x →
  ∃ a blk w',
    buffer_ (data_ v) = Some a ∧ mem w !! a = Some blk ∧
    EmplaceBack this args w = (Ret (Some a, length l), w') ∧
    objs w' = <[this := {| size_ := S (length l); data_ := data_ v |}]> (objs w) ∧
    mem w' = <[a := <[length l := Some x]> blk]> (mem w) ∧
    represents (mem w') {| size_ := S (length l); data_ := data_ v |} (l ++ [x]).
Proof.
  intros Hv (Hsz & Hle & Hbytes & Hblk) Hlt Hx.
  destruct v as [sz [buf cap]], w as [h o].
  cbn [size_ data_ capacity_ buffer_ mem objs] in *. subst sz.
  destruct buf as [a|]; [|lia]. destruct Hblk as [Hcap Ha].
  eexists a, _, _. split; [done|]. split; [exact Ha|]. split.
  { by apply (EmplaceBack_in_place h o this a cap l args x). }
  cbn [mem objs]. split; [done|].
  assert (Hins : <[length l := Some x]> ((Some <$> l) ++ replicate (cap - length l) None)
                 = (Some <$> l ++ [x]) ++ replicate (cap - S (length l)) None).
  { rewrite (replicate_S_sub cap (length l)) by done.
    rewrite insert_middle by (by rewrite length_fmap).
    by rewrite fmap_app, <- app_assoc. }
  split; [by rewrite Hins|].
  unfold represents. cbn [size_ data_ capacity_ buffer_].
  rewrite length_app. cbn [length].
  split; [lia|]. split; [lia|]. split; [done|]. split; [done|].
  rewrite lookup_insert_eq. do 3 f_equal. lia.
Qed.

(** X16: on a vector with spare capacity [EmplaceBack] throws exactly when
    the constructor of the new element does, and then the state is as it
    was, for every element type. *)
Theorem EmplaceBack_room_strong w this v l args :
  objs w !! this = Some v → represents (mem w) v l →
  length l < capacity_ (data_ v) →
  (construct args = None → EmplaceBack this args w = (Throw element_exn, w)) ∧
  (∀ e w', EmplaceBack this args w = (Throw e, w') →
           w' = w ∧ construct args = None).
Proof.
  intros Hv Hrep Hlt. split.
  - by apply (EmplaceBack_room_construct_fails w this v l).
  - intros e w' Hrun. destruct (construct args) as [x|] eqn:Hx.
    + destruct Hrep as (Hsz & Hle & Hbytes & Hblk).
      destruct v as [sz [buf cap]], w as [h o].
      cbn [size_ data_ capacity_ buffer_ mem objs] in *. subst sz.
      destruct buf as [a|]; [|lia]. destruct Hblk as [Hcap Ha].
      rewrite (EmplaceBack_in_place h o this a cap l args x) in Hrun by done.
      done.
    + rewrite (EmplaceBack_room_construct_fails w this v l) in Hrun by done.
      by injection Hrun as _ <-.
Qed.

End InPlaceProperties.

(** ** Constructors that throw, rows of appends, calls that go wrong *)

Section EdgeProperties.
Context {T : Type} `{!Element T} `{!Allocator}.
Implicit Types (h : heap T) (w : world T) (a b : addr) (x y : T).
Implicit Types (l xs ys : list T) (v o r : Vector) (this other rhs : var).

(** X17: wherever the new element is to go, in place or into a new block,
    an insertion ([Insert] of a copy or of a move, or [Emplace]) whose
    constructor throws makes the call throw and leaves the state as it was,
    for every element type. *)
Theorem Emplace_construct_fails w this v l i (ins : insertion T) :
  objs w !! this = Some v → represents (mem w) v l → i ≤ length l →
  construct (insertion_args ins) = None →
  ∃ e, run_insertion this (begin_ v +ₚ i) ins w = (Throw e, w).
Proof.
  rewrite run_insertion_Emplace. generalize (insertion_args ins). intros args.
  intros Hv Hrep Hi Hx. pose proof Hrep as (Hsz & Hle & _).
  destruct w as [h o]. cbn [mem objs] in *.
  unfold Emplace. get_this.
  lstep ltac:(unfold end_; apply RawMemory_plus_run; lia).
  unfold begin_, cbegin, GetAddress, ptr_add. cbn [fst snd Nat.add].
  destruct (decide (i = length l)) as [->|Hne].
  - rewrite Hsz. rewrite bool_decide_eq_true_2 by done.
    destruct (decide (length l < capacity_ (data_ v))) as [Hlt|Hfull].
    + exists element_exn.
      by apply (EmplaceBack_room_construct_fails _ this v l).
    + apply (EmplaceBack_construct_fails _ this v l); try done. lia.
  - rewrite bool_decide_eq_false_2 by (intros [=]; lia).
    lstep ltac:(apply ptr_diff_run; simpl; [done|lia]).
    cbn [fst snd]. rewrite Nat.sub_0_r.
    unfold Capacity. rewrite Hsz.
    destruct (Nat.ltb_spec (length l) (capacity_ (data_ v))) as [Hlt|Hfull].
    + exists element_exn. erewrite bind_throw; [reflexivity|].
      by apply (EmplaceWithoutRealloc_construct_fails _ this v).
    + destruct (EmplaceWithRealloc_construct_fails {| mem := h; objs := o |}
                  this v l i args) as [e He]; try done.
      exists e. by erewrite bind_throw.
Qed.

(** X18: for an element type that is nothrow-move-constructible or
    copy-constructible, a [Reserve] that throws, be it [std::bad_alloc] or a
    copy constructor in the middle of the relocation, leaves the state as
    it was. *)
Theorem Reserve_strong_guarantee w this n e w' :
  is_nothrow_move_constructible = true ∨ is_copy_constructible = true →
  Reserve this n w = (Throw e, w') → w' = w.
Proof.
  intros Hty Hrun.
  exact (wp_run _ _ _ _ _ _ (wp_Reserve_throw w this n Hty) Hrun).
Qed.

(** Calls of [EmplaceBack] that fit in the capacity the vector has. *)
Lemma append_all_within_capacity w this v l argss xs :
  objs w !! this = Some v → represents (mem w) v l →
  Forall2 (λ args x, construct args = Some x) argss xs →
  length l + length xs ≤ capacity_ (data_ v) →
  ∃ w',
    append_all this argss w = (Ret (), w') ∧
    objs w' = <[this := {| size_ := length l + length xs; data_ := data_ v |}]> (objs w) ∧
    represents (mem w') {| size_ := length l + length xs; data_ := data_ v |} (l ++ xs) ∧
    only_at (buffer_ (data_ v)) (mem w) (mem w').
Proof.
  intros Hv Hrep Hall. revert w v l Hv Hrep.
  induction Hall as [|args x argss xs Hx Hall IH]; intros w v l Hv Hrep Hfit.
  - exists w. cbn [append_all length]. rewrite Nat.add_0_r, app_nil_r.
    destruct Hrep as (Hsz & Hrest). rewrite <- Hsz.
    assert (Heta : {| size_ := size_ v; data_ := data_ v |} = v) by (by destruct v).
    rewrite Heta. split; [done|]. split; [by rewrite insert_id|].
    split; [by split|apply only_at_refl].
  - cbn [length] in Hfit.
    destruct Hrep as (Hsz & Hle & Hbytes & Hblk).
    destruct v as [sz [buf cap]], w as [h o].
    cbn [size_ data_ capacity_ buffer_ mem objs] in *. subst sz.
    destruct buf as [a|]; [|lia]. destruct Hblk as [Hcap Ha].
    cbn [append_all].
    erewrite bind_run; last first.
    { apply (EmplaceBack_in_place h o this a cap l args x); try done. lia. }
    edestruct (IH {| mem := <[a := (Some <$> l ++ [x]) ++ replicate (cap - S (length l)) None]> h;
                     objs := <[this := {| size_ := S (length l);
                                          data_ := {| buffer_ := Some a; capacity_ := cap |} |}]> o |}
                  {| size_ := S (length l);
                     data_ := {| buffer_ := Some a; capacity_ := cap |} |}
                  (l ++ [x])) as (w' & Hrun & Ho & Hrep' & Honly).
    + apply lookup_insert_eq.
    + unfold represents. cbn [mem size_ data_ capacity_ buffer_].
      rewrite length_app. cbn [length].
      split; [lia|]. split; [lia|]. split; [done|]. split; [done|].
      rewrite lookup_insert_eq. do 3 f_equal. lia.
    + cbn [data_ capacity_]. rewrite length_app. cbn [length]. lia.
    + exists w'. cbn [mem objs data_ buffer_ capacity_ size_] in *.
      rewrite length_app in *. cbn [length] in *.
      replace (length l + S (length xs)) with (length l + 1 + length xs) by lia.
      rewrite <- app_assoc in Hrep'. cbn [app] in Hrep'.
      split; [done|]. split; [by rewrite Ho, insert_insert_eq|]. split; [done|].
      eapply only_at_trans; [|exact Honly].
      intros c Hc. rewrite lookup_insert_ne; [done|congruence].
Qed.

(** X19: appends, by [PushBack] or [EmplaceBack], that fit in the capacity a
    vector has (after [Reserve], say) never reallocate: the vector keeps its
    block and capacity, the elements it had stay where they are, the new
    ones follow in order, and no other block changes.  No element needs to
    be movable or copyable for that. *)
Theorem appends_within_capacity w this v l (apps : list (append T)) xs :
  objs w !! this = Some v → represents (mem w) v l →
  Forall2 (λ app x, construct (append_args app) = Some x) apps xs →
  length l + length xs ≤ capacity_ (data_ v) →
  ∃ w',
    appends this apps w = (Ret (), w') ∧
    objs w' = <[this := {| size_ := length l + length xs; data_ := data_ v |}]> (objs w) ∧
    represents (mem w') {| size_ := length l + length xs; data_ := data_ v |} (l ++ xs) ∧
    only_at (buffer_ (data_ v)) (mem w) (mem w').
Proof.
  intros Hv Hrep Hall Hfit. rewrite appends_append_all.
  apply append_all_within_capacity; try done. by apply Forall2_fmap_l.
Qed.

(** X20: [EmplaceBack] followed by [PopBack] gives back the elements the
    vector had; when there was room for the new element the state is
    exactly the one before the two calls. *)
Theorem append_then_PopBack w this v l args x :
  objs w !! this = Some v → represents (mem w) v l →
  construct args = Some x →
  (length l = capacity_ (data_ v) →
   transfer_ok l ∧ grown (capacity_ (data_ v)) * sizeof_T ≤ max_bytes) →
  ∃ w' v',
    (_ ← EmplaceBack this args; PopBack this) w = (Ret (), w') ∧
    objs w' = <[this := v']> (objs w) ∧
    represents (mem w') v' l ∧
    (length l < capacity_ (data_ v) → w' = w).
Proof.
  intros Hv Hrep Hx Hfull.
  destruct (decide (length l < capacity_ (data_ v))) as [Hlt|Hge].
  - exists w, v. split; [|split; [by rewrite insert_id|done]].
    destruct Hrep as (Hsz & Hle & Hbytes & Hblk).
    destruct v as [sz [buf cap]], w as [h o].
    cbn [size_ data_ capacity_ buffer_ mem objs] in *. subst sz.
    destruct buf as [a|]; [|lia]. destruct Hblk as [Hcap Ha].
    erewrite bind_run; last first.
    { by apply (EmplaceBack_in_place h o this a cap l args x). }
    erewrite (PopBack_at _ _ this a cap l x (replicate (cap - S (length l)) None)).
    + rewrite !insert_insert_eq. f_equal. f_equal.
      * rewrite insert_id; [done|]. rewrite Ha.
        by rewrite (replicate_S_sub cap (length l)) by done.
      * by rewrite insert_id.
    + apply lookup_insert_eq.
    + rewrite lookup_insert_eq. by rewrite fmap_app, <- app_assoc.
    + eapply is_size_t_le; [|by apply (slots_size_t cap)]. lia.
  - destruct (EmplaceBack_run w this v l args x Hv Hrep Hx Hfull)
      as (w1 & v1 & Hrun1 & Ho1 & Hrep1 & _).
    destruct (PopBack_run w1 this v1 l x) as (w2 & v2 & Hrun2 & Ho2 & Hrep2 & _);
      [by rewrite Ho1, lookup_insert_eq|done|].
    exists w2, v2. split; [|split; [|split; [done|lia]]].
    + by erewrite bind_run by exact Hrun1.
    + by rewrite Ho2, Ho1, insert_insert_eq.
Qed.

(** X21: [PopBack] on an empty vector has undefined behaviour: there is no
    check, and the address it computes lies before the start of the
    block. *)
Theorem PopBack_empty_undefined w this v :
  objs w !! this = Some v → size_ v = 0 → goes_wrong (PopBack this) w.
Proof.
  intros Hv Hsz. destruct w as [h o]. cbn [objs] in Hv.
  unfold goes_wrong, PopBack. get_this. rewrite Hsz.
  unfold lift, ptr_sub, GetAddress, ptr_add, mbind, ST_bind. by cbn.
Qed.

(** X22: [Erase] at [end()], and so any [Erase] on an empty vector, has
    undefined behaviour: the range given to [std::move] starts behind its
    end. *)
Theorem Erase_end_undefined w this v l :
  objs w !! this = Some v → represents (mem w) v l →
  goes_wrong (Erase this (begin_ v +ₚ length l)) w.
Proof.
  intros Hv (Hsz & Hle & _). destruct w as [h o]. cbn [mem objs] in *.
  unfold goes_wrong, Erase. get_this.
  lstep ltac:(apply ptr_diff_run; simpl; [done|lia]).
  lstep ltac:(unfold end_; apply RawMemory_plus_run; lia).
  rewrite Hsz.
  unfold lift, std_move, ptr_diff, begin_, cbegin, GetAddress, ptr_add, mbind, ST_bind.
  cbn [fst snd mem objs Nat.add].
  rewrite bool_decide_eq_true_2 by done. cbn [andb].
  replace (length l - 0) with (length l) by lia.
  destruct (Nat.leb_spec (length l + 1) (length l)) as [|_]; [lia|]. done.
Qed.

End EdgeProperties.

(** ** Sizes that overflow; the static helpers; [noexcept] *)

Section Overflow.
Context {T : Type} `{!Element T} `{!Allocator}.
Implicit Types (h : heap T) (w : world T) (a b : addr) (x y : T).
Implicit Types (l xs ys : list T) (v o r : Vector) (this other rhs : var).

(** [Allocate(n)] when [n * sizeof(T)] wraps around to a byte count that
    the allocator grants: the block is shorter than [n] slots. *)
Lemma RawMemory_ctor_wraps n h :
  (2 ^ 64 ≤ N.of_nat n * N.of_nat sizeof_T)%N →
  size_mul n sizeof_T ≤ max_bytes →
  RawMemory_ctor n h
  = (Ret {| buffer_ := Some (fresh (dom h)); capacity_ := n |},
     <[fresh (dom h) := replicate (size_mul n sizeof_T / sizeof_T) None]> h)
  ∧ size_mul n sizeof_T / sizeof_T < n.
Proof.
  intros Hover Hgrant. split.
  - unfold RawMemory_ctor, Allocate.
    rewrite bool_decide_eq_true_2 by (intros ->; lia).
    unfold operator_new, mbind, ST_bind.
    by destruct (Nat.leb_spec (size_mul n sizeof_T) max_bytes); [|lia].
  - pose proof max_bytes_ptrdiff as Hmax. pose proof sizeof_T_pos as Hpos.
    pose proof (Nat.Div0.mul_div_le (size_mul n sizeof_T) sizeof_T) as Hk.
    set (k := size_mul n sizeof_T / sizeof_T) in *.
    destruct (Nat.lt_ge_cases k n) as [|Hge]; [done|exfalso].
    assert (n * sizeof_T ≤ k * sizeof_T) by (by apply Nat.mul_le_mono_r).
    assert (N.of_nat (n * sizeof_T) < 2 ^ 63)%N by lia.
    rewrite Nat2N.inj_mul in *. lia.
Qed.

(** Value construction of more elements than the block has slots runs off
    the end of the block. *)
Lemma uninitialized_value_loop_overrun k : ∀ h b (pre : list (option T)) x i n,
  (∀ j, j < i + n → value_init j = Some x) →
  h !! b = Some (pre ++ replicate k None) → length pre = i → k < n →
  ∃ h', uninitialized_loop (λ j, value_construct_at ((Some b, 0) +ₚ j) j) (Some b, 0) i n h
        = (Undef, h').
Proof.
  induction k as [|k IH]; intros h b pre x i n Hx Hb Hi Hn.
  - destruct n as [|n]; [lia|]. exists h.
    cbn [uninitialized_loop replicate] in *. rewrite app_nil_r in Hb.
    unfold mbind, ST_bind, on_unwind, value_construct_at, emplace_at, set_slot, ptr_add.
    rewrite Hx by lia. cbn [fst snd Nat.add]. rewrite Hb.
    by destruct (Nat.ltb_spec i (length pre)); [lia|].
  - destruct n as [|n]; [lia|].
    erewrite uninitialized_loop_step; last first.
    { unfold value_construct_at. rewrite Hx by lia. unfold ptr_add; simpl.
      eapply emplace_at_run; [done|]. apply length_middle. lia. }
    cbn [replicate]. rewrite insert_middle by lia.
    apply (IH _ b (pre ++ [Some x]) x (S i) n); [intros j Hj; apply Hx; lia| | |lia].
    + rewrite lookup_insert_eq. by rewrite <- app_assoc.
    + rewrite length_app. simpl. lia.
Qed.

End Overflow.

Section OverflowProperties.
Context {T : Type} `{!Element T} `{!Allocator}.
Implicit Types (h : heap T) (w : world T) (a b : addr) (x y : T).

(** X23: [RawMemory(size_t n)] multiplies [n] by [sizeof(T)] in [size_t]
    without a check: when the product wraps around and the allocator grants
    the wrapped byte count, the constructor returns an object that records
    the capacity [n] over a new block of fewer than [n] slots. *)
Theorem RawMemory_ctor_overflow n h :
  is_size_t n →
  (2 ^ 64 ≤ N.of_nat n * N.of_nat sizeof_T)%N →
  size_mul n sizeof_T ≤ max_bytes →
  ∃ a k,
    RawMemory_ctor n h
    = (Ret {| buffer_ := Some a; capacity_ := n |}, <[a := replicate k None]> h) ∧
    h !! a = None ∧ k < n.
Proof.
  intros _ Hover Hgrant.
  destruct (RawMemory_ctor_wraps n h Hover Hgrant) as [Hrun Hk].
  eexists _, _. split; [exact Hrun|]. split; [apply fresh_None|done].
Qed.

(** X24: in that case [Vector(size_t n)] with a default constructor that
    returns goes wrong: it constructs elements past the end of the block
    it obtained. *)
Theorem Vector_sized_overflow n h x :
  is_size_t n →
  (∀ i, i < n → value_init i = Some x) →
  (2 ^ 64 ≤ N.of_nat n * N.of_nat sizeof_T)%N →
  size_mul n sizeof_T ≤ max_bytes →
  ∃ h', Vector_sized n h = (Undef, h').
Proof.
  intros _ Hx Hover Hgrant.
  destruct (RawMemory_ctor_wraps n h Hover Hgrant) as [Hrun Hk].
  unfold Vector_sized. erewrite bind_run by exact Hrun.
  destruct (uninitialized_value_loop_overrun
              (size_mul n sizeof_T / sizeof_T)
              (<[fresh (dom h) := replicate (size_mul n sizeof_T / sizeof_T) None]> h)
              (fresh (dom h)) [] x 0 n)
    as [h' Hloop]; [done|apply lookup_insert_eq|done|done|].
  exists h'. unfold mbind, ST_bind, on_unwind, uninitialized_value_construct_n, GetAddress.
  cbn [buffer_]. by rewrite Hloop.
Qed.

End OverflowProperties.

Section Helpers.
Context {T : Type} `{!Element T} `{!Allocator}.
Implicit Types (h : heap T) (w : world T) (a b : addr) (x y : T).
Implicit Types (l xs ys : list T) (v o r : Vector) (this other rhs : var).

Lemma DestroyN_from_destroy_n k : ∀ (buf : ptr) i h,
  DestroyN_from buf i k h = destroy_n (buf +ₚ i) k h.
Proof.
  induction k as [|k IH]; intros buf i h; [done|].
  cbn [DestroyN_from destroy_n]. unfold Destroy, mbind, ST_bind.
  destruct (destroy_at (buf +ₚ i) h) as [[[]|e|] h1]; [|done|done].
  rewrite IH. f_equal. unfold ptr_add. cbn [fst snd]. f_equal. lia.
Qed.

Lemma never_throws_ptr_diff (p q : ptr) : never_throws (ptr_diff (T:=T) p q).
Proof. intros h. unfold wp, ptr_diff. by destruct (_ && _). Qed.

Lemma never_throws_move_assign (p q : ptr) :
  (∀ x, move_assign_throws x = false) → never_throws (move_assign p q).
Proof.
  intros Hnt. apply never_throws_bind; [apply never_throws_load|]. intros x.
  rewrite Hnt. apply never_throws_bind; [apply never_throws_store|]. intros _.
  apply never_throws_store.
Qed.

Lemma never_throws_move_loop n : ∀ (p q : ptr),
  (∀ x, move_assign_throws x = false) → never_throws (move_loop p q n).
Proof.
  induction n as [|n IH]; intros p q Hnt; [done|].
  apply never_throws_bind; [by apply never_throws_move_assign|]. intros _.
  by apply IH.
Qed.

Lemma never_throws_Erase this (pos : ptr) :
  (∀ x, move_assign_throws x = false) → never_throws (Erase this pos).
Proof.
  intros Hnt. unfold Erase.
  apply never_throws_bind; [apply never_throws_get_vec|]. intros v.
  apply never_throws_bind; [apply never_throws_lift, never_throws_ptr_diff|]. intros dist.
  apply never_throws_bind; [apply never_throws_lift, never_throws_RawMemory_plus|]. intros e.
  apply never_throws_bind.
  { apply never_throws_lift.
    apply never_throws_bind; [apply never_throws_ptr_diff|]. intros n.
    by apply never_throws_move_loop. }
  intros _.
  apply never_throws_bind; [apply never_throws_lift, never_throws_RawMemory_index|]. intros back.
  apply never_throws_bind; [apply never_throws_lift, never_throws_destroy_at|]. intros _.
  apply never_throws_bind; [apply never_throws_put_vec|]. intros _.
  apply never_throws_bind; [apply never_throws_get_vec|]. intros v'.
  done.
Qed.

End Helpers.

Section HelperProperties.
Context {T : Type} `{!Element T} `{!Allocator}.
Implicit Types (h : heap T) (w : world T) (a b : addr) (x y : T).
Implicit Types (l xs ys : list T) (v o r : Vector) (this other rhs : var).

(** X25: [DestroyN(buf, n)] over [n] live objects destroys exactly these:
    their slots become raw memory, the slots before and behind them and the
    other blocks stay as they are. *)
Theorem DestroyN_destroys h a (pre post : list (option T)) xs :
  h !! a = Some (pre ++ (Some <$> xs) ++ post) →
  DestroyN (Some a, length pre) (length xs) h
  = (Ret (), <[a := pre ++ replicate (length xs) None ++ post]> h).
Proof.
  intros Ha. unfold DestroyN. rewrite DestroyN_from_destroy_n.
  unfold ptr_add. cbn [fst snd]. rewrite Nat.add_0_r.
  by apply destroy_n_run.
Qed.

(** X26: [CopyConstruct] into a raw slot followed by [Destroy] of that slot
    leaves the heap as it was; a [CopyConstruct] whose copy constructor
    throws changes nothing. *)
Theorem CopyConstruct_then_Destroy h a (blk : list (option T)) i elem :
  h !! a = Some blk → blk !! i = Some None →
  (copy_ctor_throws elem = false →
   (_ ← CopyConstruct (Some a, i) elem; Destroy (Some a, i)) h = (Ret (), h)) ∧
  (copy_ctor_throws elem = true →
   CopyConstruct (Some a, i) elem h = (Throw element_exn, h)).
Proof.
  intros Ha Hi. pose proof (lookup_lt_Some _ _ _ Hi) as Hlt. split; intros Hc.
  - unfold CopyConstruct, construct_at, Destroy. cbn [construct]. rewrite Hc.
    erewrite bind_run by (by eapply emplace_at_run).
    erewrite destroy_at_run;
      [|apply lookup_insert_eq|by apply list_lookup_insert_eq].
    rewrite insert_insert_eq, list_insert_insert_eq.
    by rewrite (list_insert_id _ _ _ Hi), insert_id.
  - unfold CopyConstruct, construct_at. cbn [construct]. by rewrite Hc.
Qed.

(** X27: for an element type whose move assignment does not throw, [Erase]
    never throws, whatever the position and the state (its [noexcept]
    specification). *)
Theorem Erase_noexcept this (pos : ptr) w e w' :
  (∀ x, move_assign_throws x = false) → Erase this pos w ≠ (Throw e, w').
Proof.
  intros Hnt Hrun.
  exact (wp_run _ _ _ _ _ _ (never_throws_Erase this pos Hnt w) Hrun).
Qed.

End HelperProperties.

(** ** Reallocation: the old block is released, the rest of the heap stays *)

Section Relocation.
Context {T : Type} `{!Element T} `{!Allocator}.
Implicit Types (h : heap T) (w : world T) (a b : addr) (x y : T).
Implicit Types (l xs ys : list T) (v o r : Vector) (this other rhs : var).

(** What remains of the four writes of a relocation once the old block is
    released. *)
Lemma relocated_heap h a b (A1 A2 B1 B2 : list (option T)) :
  a ≠ b →
  delete a (<[a := A2]> (<[b := B2]> (<[a := A1]> (<[b := B1]> h))))
  = <[b := B2]> (delete a h).
Proof.
  intros Hab. apply map_eq. intros c.
  destruct (decide (c = a)) as [->|Hca].
  - rewrite lookup_delete_eq, lookup_insert_ne by done. by rewrite lookup_delete_eq.
  - rewrite lookup_delete_ne by done. rewrite lookup_insert_ne by done.
    destruct (decide (c = b)) as [->|Hcb].
    + by rewrite !lookup_insert_eq.
    + rewrite !lookup_insert_ne by done. by rewrite lookup_delete_ne.
Qed.

(** [EmplaceBack] on a full vector. *)
Lemma EmplaceBack_relocates h (ob : gmap var Vector) this buf l args x :
  ob !! this = Some {| size_ := length l;
                       data_ := {| buffer_ := buf; capacity_ := length l |} |} →
  represents h {| size_ := length l;
                  data_ := {| buffer_ := buf; capacity_ := length l |} |} l →
  construct args = Some x → transfer_ok l →
  grown (length l) * sizeof_T ≤ max_bytes →
  EmplaceBack this args {| mem := h; objs := ob |}
  = (Ret (Some (fresh (dom h)), length l),
     {| mem := <[fresh (dom h) := (Some <$> l ++ [x])
                                  ++ replicate (grown (length l) - S (length l)) None]>
                 (match buf with Some a => delete a h | None => h end);
        objs := <[this := {| size_ := S (length l);
                             data_ := {| buffer_ := Some (fresh (dom h));
                                         capacity_ := grown (length l) |} |}]> ob |}).
Proof.
  intros Hv (_ & _ & Hbytes & Hblk) Hx Hok Hgrown.
  cbn [size_ data_ capacity_ buffer_] in *.
  unfold EmplaceBack. get_this. cbn [size_ data_ capacity_ buffer_ Capacity].
  destruct (Nat.ltb_spec (length l) (length l)) as [|_]; [lia|].
  assert (Hnew : (if length l =? 0 then 1 else size_mul (length l) 2)
                 = grown (length l)).
  { unfold grown. destruct (Nat.eqb_spec (length l) 0) as [->|]; [done|].
    rewrite size_mul_id; [lia|]. by apply double_size_t. }
  rewrite Hnew.
  assert (Hpos : 0 < grown (length l)) by (unfold grown; lia).
  assert (Hlt : length l < grown (length l)) by (unfold grown; lia).
  lstep ltac:(by apply RawMemory_ctor_run).
  set (b := fresh (dom h)).
  set (k := grown (length l) - S (length l)).
  assert (Hrep : replicate (grown (length l)) (@None T)
                 = replicate (length l) None ++ None :: replicate k None).
  { replace (grown (length l)) with (length l + S k) by (subst k; lia).
    by rewrite replicate_add. }
  assert (Hst : is_size_t (length l + 1)).
  { eapply is_size_t_le; [|by apply (slots_size_t (grown (length l)))]. lia. }
  assert (Hend : ∀ h',
    (v ← get_vec this;
     _ ← put_vec this {| size_ := size_add (size_ v) 1; data_ := data_ v |};
     v ← get_vec this;
     lift (RawMemory_index (data_ v) (size_sub (size_ v) 1)))
      {| mem := h';
         objs := <[this := {| size_ := length l;
                              data_ := {| buffer_ := Some b;
                                          capacity_ := grown (length l) |} |}]> ob |}
    = (Ret (Some b, length l),
       {| mem := h';
          objs := <[this := {| size_ := S (length l);
                               data_ := {| buffer_ := Some b;
                                           capacity_ := grown (length l) |} |}]> ob |})).
  { intros h'. get_this. put_this. get_this. cbn [size_ data_].
    rewrite size_add_id by done. rewrite size_sub_le by (done || lia).
    lift_last ltac:(apply RawMemory_index_run; simpl; lia).
    cbn [buffer_]. replace (length l + 1 - 1) with (length l) by lia.
    replace (length l + 1) with (S (length l)) by lia.
    by rewrite insert_insert_eq. }
  assert (Hnewblk : ∀ h',
    <[b := replicate (length l) None ++ Some x :: replicate k None]> h' !! b
    = Some ([] ++ replicate (length l) None ++ Some x :: replicate k None)).
  { intros h'. by rewrite lookup_insert_eq. }
  destruct buf as [a|].
  - destruct Hblk as [_ Ha]. rewrite Nat.sub_diag in Ha. cbn [replicate] in Ha.
    assert (Hab : a ≠ b) by (by eapply fresh_ne).
    destruct (transfer_run
                (<[b := replicate (length l) None ++ Some x :: replicate k None]> h)
                a b l [] [] [] (replicate (length l) None)
                (Some x :: replicate k None) 0 0) as (ys & Hys & Hrun);
      try done.
    { by rewrite lookup_insert_ne. }
    { by rewrite length_replicate. }
    rewrite ?bind_assoc. erewrite bind_run; last first.
    { apply on_unwind_run.
      lstep ltac:(apply RawMemory_plus_run; simpl; lia). cbn [buffer_].
      erewrite bind_run; last first.
      { apply lift_run_at. unfold construct_at. rewrite Hx.
        eapply emplace_at_run; [apply lookup_insert_eq|].
        rewrite length_replicate. lia. }
      cbn [mem objs]. rewrite insert_insert_eq, Hrep.
      rewrite insert_middle by (by rewrite length_replicate).
      apply lift_run_at. exact Hrun. }
    cbn [RawMemory_Swap buffer_ capacity_ data_ size_].
    put_this.
    lstep ltac:(unfold GetAddress; cbn [buffer_];
                eapply (destroy_n_live ys _ a [] []);
                [rewrite lookup_insert_ne by done; apply lookup_insert_eq|done|done]).
    lstep ltac:(eapply RawMemory_dtor_run; apply lookup_insert_eq).
    rewrite Hend. f_equal. f_equal.
    rewrite (relocated_heap h a b) by done.
    cbn [app]. by rewrite fmap_app, <- app_assoc.
  - assert (l = []) as -> by (apply length_zero_iff_nil; lia).
    cbn [length] in *.
    rewrite ?bind_assoc. erewrite bind_run; last first.
    { apply on_unwind_run.
      lstep ltac:(apply RawMemory_plus_run; simpl; lia). cbn [buffer_].
      erewrite bind_run; last first.
      { apply lift_run_at. unfold construct_at. rewrite Hx.
        eapply emplace_at_run; [apply lookup_insert_eq|].
        rewrite length_replicate. lia. }
      cbn [mem objs]. rewrite insert_insert_eq, Hrep.
      rewrite insert_middle by (by rewrite length_replicate).
      apply lift_run_at. apply transfer_nothing. }
    cbn [RawMemory_Swap buffer_ capacity_ data_ size_].
    put_this.
    lstep ltac:(reflexivity). lstep ltac:(reflexivity).
    by rewrite Hend.
Qed.

(** [Reserve] beyond the capacity. *)
Lemma Reserve_relocates h (ob : gmap var Vector) this buf cap l n :
  ob !! this = Some {| size_ := length l;
                       data_ := {| buffer_ := buf; capacity_ := cap |} |} →
  represents h {| size_ := length l;
                  data_ := {| buffer_ := buf; capacity_ := cap |} |} l →
  cap < n → n * sizeof_T ≤ max_bytes → transfer_ok l →
  Reserve this n {| mem := h; objs := ob |}
  = (Ret (),
     {| mem := <[fresh (dom h) := (Some <$> l) ++ replicate (n - length l) None]>
                 (match buf with Some a => delete a h | None => h end);
        objs := <[this := {| size_ := length l;
                             data_ := {| buffer_ := Some (fresh (dom h));
                                         capacity_ := n |} |}]> ob |}).
Proof.
  intros Hv (_ & Hle & Hbytes & Hblk) Hn Hnb Hok.
  cbn [size_ data_ capacity_ buffer_] in *.
  unfold Reserve. get_this.
  cbn [size_ data_ capacity_ buffer_ Capacity].
  destruct (Nat.leb_spec n cap); [lia|].
  lstep ltac:(apply RawMemory_ctor_run; (done || lia)).
  set (b := fresh (dom h)).
  unfold GetAddress. cbn [buffer_].
  assert (Hraw : replicate n (@None T)
                 = replicate (length l) None ++ replicate (n - length l) None).
  { rewrite <- replicate_add. f_equal. lia. }
  rewrite Hraw.
  destruct buf as [a|].
  - destruct Hblk as [_ Ha].
    assert (Hab : a ≠ b) by (by eapply fresh_ne).
    destruct (transfer_run
                (<[b := replicate (length l) None ++ replicate (n - length l) None]> h)
                a b l [] (replicate (cap - length l) None)
                [] (replicate (length l) None) (replicate (n - length l) None) 0 0)
      as (ys & Hys & Hrun); try done.
    { by rewrite lookup_insert_ne. }
    { apply lookup_insert_eq. }
    { by rewrite length_replicate. }
    step ltac:(apply on_unwind_run; apply lift_run_at; exact Hrun).
    lstep ltac:(eapply (destroy_n_live ys _ a []);
                [rewrite lookup_insert_ne by done; apply lookup_insert_eq|done|done]).
    cbn [RawMemory_Swap buffer_ capacity_]. put_this.
    lift_last ltac:(eapply RawMemory_dtor_run; apply lookup_insert_eq).
    f_equal. f_equal.
    by rewrite (relocated_heap h a b) by done.
  - assert (l = []) as -> by (apply length_zero_iff_nil; lia).
    cbn [length replicate app fmap list_fmap].
    step ltac:(apply on_unwind_run; apply lift_run_at; apply transfer_nothing).
    lstep ltac:(reflexivity).
    cbn [RawMemory_Swap buffer_ capacity_]. put_this.
    lift_last ltac:(reflexivity).
    reflexivity.
Qed.

(** [EmplaceBack] leaves the memory the vector does not own as it is. *)
Lemma EmplaceBack_others w this v l args x :
  objs w !! this = Some v → represents (mem w) v l →
  construct args = Some x →
  (length l = capacity_ (data_ v) →
   transfer_ok l ∧ grown (capacity_ (data_ v)) * sizeof_T ≤ max_bytes) →
  ∃ w' v',
    EmplaceBack this args w = (Ret (begin_ v' +ₚ length l), w') ∧
    objs w' = <[this := v']> (objs w) ∧
    represents (mem w') v' (l ++ [x]) ∧
    others (mem w') v' = others (mem w) v ∧
    is_Some (buffer_ (data_ v')) ∧
    (length l < capacity_ (data_ v) → data_ v' = data_ v) ∧
    (length l = capacity_ (data_ v) →
     capacity_ (data_ v') = grown (capacity_ (data_ v)) ∧
     (∀ a, buffer_ (data_ v) = Some a → mem w' !! a = None) ∧
     (∀ b, buffer_ (data_ v') = Some b → mem w !! b = None)).
Proof.
  intros Hv Hrep Hx Hfull. pose proof Hrep as (Hsz & Hle & Hbytes & Hblk).
  destruct v as [sz [buf cap]], w as [h o].
  cbn [size_ data_ capacity_ buffer_ mem objs] in *. subst sz.
  destruct (decide (length l < cap)) as [Hlt|Hge].
  - destruct buf as [a|]; [|lia]. destruct Hblk as [Hcap Ha].
    eexists _, {| size_ := S (length l);
                  data_ := {| buffer_ := Some a; capacity_ := cap |} |}. split.
    { unfold begin_, GetAddress, ptr_add. cbn [fst snd Nat.add data_ buffer_].
      by apply (EmplaceBack_in_place h o this a cap l args x). }
    cbn [mem objs data_ size_ buffer_ capacity_].
    split; [done|]. split; [|split; [|split; [by eexists|split; [done|lia]]]].
    + unfold represents. cbn [size_ data_ capacity_ buffer_].
      rewrite length_app. cbn [length].
      split; [lia|]. split; [lia|]. split; [done|]. split; [done|].
      rewrite lookup_insert_eq. do 3 f_equal. lia.
    + unfold others. cbn [data_ buffer_]. apply delete_insert_eq.
  - assert (cap = length l) as -> by lia.
    destruct (Hfull eq_refl) as [Hok Hgrown].
    eexists _, {| size_ := S (length l);
                  data_ := {| buffer_ := Some (fresh (dom h));
                              capacity_ := grown (length l) |} |}. split.
    { unfold begin_, GetAddress, ptr_add. cbn [fst snd Nat.add data_ buffer_].
      by apply (EmplaceBack_relocates h o this buf l args x). }
    cbn [mem objs data_ size_ buffer_ capacity_].
    assert (Hfresh : h !! fresh (dom h) = None) by apply fresh_None.
    split; [done|].
    split; [|split; [|split; [by eexists|split; [lia|intros _; split; [done|split]]]]].
    + unfold represents. cbn [size_ data_ capacity_ buffer_].
      rewrite length_app. cbn [length]. unfold grown in *.
      split; [lia|]. split; [lia|]. split; [done|]. split; [lia|].
      rewrite lookup_insert_eq. do 3 f_equal. lia.
    + unfold others. cbn [data_ buffer_]. rewrite delete_insert_eq.
      destruct buf as [a|].
      * rewrite delete_id; [done|]. rewrite lookup_delete_ne; [done|].
        intros ->. destruct Hblk as [_ Ha]. congruence.
      * by rewrite delete_id.
    + intros a [= ->]. destruct Hblk as [_ Ha].
      rewrite lookup_insert_ne by (intros <-; congruence).
      apply lookup_delete_eq.
    + by intros b [= <-].
Qed.

(** A row of appends leaves the memory the vector does not own as it is. *)
Lemma append_all_others argss : ∀ w this v l xs,
  objs w !! this = Some v → represents (mem w) v l →
  Forall2 (λ args x, construct args = Some x) argss xs →
  transfer_ok (l ++ xs) →
  capacity_from (length l) (capacity_ (data_ v)) (length xs) * sizeof_T ≤ max_bytes →
  ∃ w' v',
    append_all this argss w = (Ret (), w') ∧
    objs w' = <[this := v']> (objs w) ∧
    represents (mem w') v' (l ++ xs) ∧
    others (mem w') v' = others (mem w) v.
Proof.
  induction argss as [|args argss IH]; intros w this v l xs Hv Hrep Hargs Hok Hmem.
  - apply Forall2_nil_inv_l in Hargs as ->. exists w, v.
    rewrite app_nil_r. split; [done|]. split; [by rewrite insert_id|done].
  - apply Forall2_cons_inv_l in Hargs as (x & xs' & Hx & Hargs & ->).
    cbn [length capacity_from] in Hmem.
    set (c' := if length l <? capacity_ (data_ v) then capacity_ (data_ v)
               else grown (capacity_ (data_ v))) in *.
    destruct (EmplaceBack_others w this v l args x)
      as (w1 & v1 & Hrun & Ho1 & Hrep1 & Hoth1 & _ & Hstay & Hgrow); try done.
    { intros Hfull. split.
      - unfold transfer_ok in *. by apply Forall_app in Hok as [Hok _].
      - pose proof (capacity_from_le (S (length l)) c' (length xs')) as Hle.
        subst c'. destruct (Nat.ltb_spec (length l) (capacity_ (data_ v))); [lia|].
        pose proof sizeof_T_pos. nia. }
    assert (Hcap1 : capacity_ (data_ v1) = c').
    { subst c'. destruct (Nat.ltb_spec (length l) (capacity_ (data_ v))) as [Hlt|Hge].
      - by rewrite (Hstay Hlt).
      - destruct Hrep as (_ & Hle & _). by destruct Hgrow as [-> _]; [lia|]. }
    destruct (IH w1 this v1 (l ++ [x]) xs') as (w2 & v2 & Hrun2 & Ho2 & Hrep2 & Hoth2).
    + rewrite Ho1. apply lookup_insert_eq.
    + done.
    + done.
    + by rewrite <- app_assoc.
    + rewrite length_app, Hcap1. cbn [length]. by rewrite Nat.add_1_r.
    + exists w2, v2. cbn [append_all].
      erewrite bind_run by exact Hrun. split; [done|].
      split; [by rewrite Ho2, Ho1, insert_insert_eq|].
      split; [by rewrite <- app_assoc in Hrep2|].
      by rewrite Hoth2.
Qed.

End Relocation.

Section RelocationProperties.
Context {T : Type} `{!Element T} `{!Allocator}.
Implicit Types (h : heap T) (w : world T) (a b : addr) (x y : T).
Implicit Types (l xs ys : list T) (v o r : Vector) (this other rhs : var).

(** X28: [EmplaceBack] on a full vector moves the elements to a new block
    of [max(1, 2 * capacity)] slots and releases the block the vector had:
    the heap afterwards is the heap before without the old block and with
    the new one; no other block is touched. *)
Theorem EmplaceBack_full_releases w this v l args x :
  objs w !! this = Some v → represents (mem w) v l →
  length l = capacity_ (data_ v) → construct args = Some x →
  transfer_ok l → grown (capacity_ (data_ v)) * sizeof_T ≤ max_bytes →
  ∃ b w',
    mem w !! b = None ∧
    EmplaceBack this args w = (Ret (Some b, length l), w') ∧
    objs w' = <[this := {| size_ := S (length l);
                           data_ := {| buffer_ := Some b;
                                       capacity_ := grown (capacity_ (data_ v)) |} |}]>
                (objs w) ∧
    mem w' = <[b := (Some <$> l ++ [x])
                    ++ replicate (grown (capacity_ (data_ v)) - S (length l)) None]>
               (others (mem w) v) ∧
    (∀ a, buffer_ (data_ v) = Some a → mem w' !! a = None).
Proof.
  intros Hv Hrep Hfull Hx Hok Hgrown. pose proof Hrep as (Hsz & Hle & Hbytes & Hblk).
  destruct v as [sz [buf cap]], w as [h o].
  cbn [size_ data_ capacity_ buffer_ mem objs] in *. subst sz cap.
  exists (fresh (dom h)). eexists.
  assert (Hfresh : h !! fresh (dom h) = None) by apply fresh_None.
  split; [done|]. split.
  { by apply (EmplaceBack_relocates h o this buf l args x). }
  cbn [mem objs]. split; [done|]. split; [done|].
  intros a [= ->]. destruct Hblk as [_ Ha].
  rewrite lookup_insert_ne by (intros <-; congruence).
  apply lookup_delete_eq.
Qed.

(** X29: [Reserve] beyond the capacity moves the elements to a new block of
    exactly [n] slots and releases the block the vector had: the heap
    afterwards is the heap before without the old block and with the new
    one; no other block is touched. *)
Theorem Reserve_keeps_others w this v l n :
  objs w !! this = Some v → represents (mem w) v l →
  capacity_ (data_ v) < n → n * sizeof_T ≤ max_bytes → transfer_ok l →
  ∃ b w',
    mem w !! b = None ∧
    Reserve this n w = (Ret (), w') ∧
    objs w' = <[this := {| size_ := length l;
                           data_ := {| buffer_ := Some b; capacity_ := n |} |}]>
                (objs w) ∧
    mem w' = <[b := (Some <$> l) ++ replicate (n - length l) None]>
               (others (mem w) v) ∧
    (∀ a, buffer_ (data_ v) = Some a → mem w' !! a = None).
Proof.
  intros Hv Hrep Hn Hnb Hok. pose proof Hrep as (Hsz & Hle & Hbytes & Hblk).
  destruct v as [sz [buf cap]], w as [h o].
  cbn [size_ data_ capacity_ buffer_ mem objs] in *. subst sz.
  exists (fresh (dom h)). eexists.
  assert (Hfresh : h !! fresh (dom h) = None) by apply fresh_None.
  split; [done|]. split.
  { by apply (Reserve_relocates h o this buf cap l n). }
  cbn [mem objs]. split; [done|]. split; [done|].
  intros a [= ->]. destruct Hblk as [_ Ha].
  rewrite lookup_insert_ne by (intros <-; congruence).
  apply lookup_delete_eq.
Qed.

(** X30: a vector that is default-constructed, filled by any number of
    appends ([PushBack] or [EmplaceBack]) and then destroyed leaves the heap
    exactly as it was: every block obtained on the way has been released. *)
Theorem fill_then_destroy w this (apps : list (append T)) xs :
  objs w !! this = Some Vector_default →
  Forall2 (λ app x, construct (append_args app) = Some x) apps xs →
  transfer_ok xs →
  capacity_after (length xs) * sizeof_T ≤ max_bytes →
  (_ ← appends this apps; Vector_delete this) w
  = (Ret (), {| mem := mem w; objs := delete this (objs w) |}).
Proof.
  intros Hv Hargs Hok Hmem.
  destruct (append_all_others (append_args <$> apps) w this Vector_default [] xs)
    as (w' & v' & Hrun & Ho & Hrep & Hoth); try done.
  { apply represents_default. }
  { by apply Forall2_fmap_l. }
  erewrite bind_run by (rewrite appends_append_all; exact Hrun).
  destruct w as [h o], w' as [h' o']. cbn [mem objs] in *. subst o'.
  unfold Vector_delete. get_this.
  lstep ltac:(by eapply Vector_dtor_run).
  unfold del_vec. cbn [mem objs]. f_equal. f_equal.
  - exact Hoth.
  - by rewrite delete_insert_eq.
Qed.

End RelocationProperties.

(** ** The further properties at work on [Vector<int>] *)

Section IntExamples.
#[local] Existing Instance int_element.
#[local] Existing Instance small_heap.

Lemma roomy_represents :
  represents (mem roomy_1_2_4_5) (vec 4 1%positive 8) [1; 2; 4; 5].
Proof. repeat split; cbn; lia. Defined.

Lemma full_1_2_represents :
  represents (mem full_1_2) (vec 2 1%positive 2) [1; 2].
Proof. repeat split; cbn; lia. Defined.

Lemma Vector_sized_value_initializes_witness :
  (∀ i, i < 3 → value_init i = Some 0) ∧ 3 * sizeof_T ≤ max_bytes ∧
  ∃ v h',
    Vector_sized 3 (∅ : heap nat) = (Ret v, h') ∧
    represents h' v (replicate 3 0) ∧
    capacity_ (data_ v) = 3 ∧
    (3 = 0 → buffer_ (data_ v) = None ∧ h' = ∅) ∧
    (∀ c blk, (∅ : heap nat) !! c = Some blk → h' !! c = Some blk).
Proof.
  split; [intros i _; reflexivity|]. split; [vm_compute; lia|].
  apply (Vector_sized_value_initializes ∅ 3 0);
    [intros i _; reflexivity|vm_compute; lia].
Defined.

Lemma Vector_copy_ctor_copies_witness :
  represents (mem roomy_1_2_4_5) (vec 4 1%positive 8) [1; 2; 4; 5] ∧
  ∃ v h',
    Vector_copy_ctor (vec 4 1%positive 8) (mem roomy_1_2_4_5) = (Ret v, h') ∧
    represents h' v [1; 2; 4; 5] ∧
    capacity_ (data_ v) = 4 ∧
    (∀ b, buffer_ (data_ v) = Some b → mem roomy_1_2_4_5 !! b = None) ∧
    represents h' (vec 4 1%positive 8) [1; 2; 4; 5] ∧
    (∀ c blk, mem roomy_1_2_4_5 !! c = Some blk → h' !! c = Some blk).
Proof.
  split; [exact roomy_represents|].
  apply (Vector_copy_ctor_copies (mem roomy_1_2_4_5) (vec 4 1%positive 8) [1; 2; 4; 5]);
    [exact roomy_represents|repeat constructor].
Defined.

Lemma Vector_new_move_transfers_witness :
  objs full_1_2 !! 1 = None ∧ objs full_1_2 !! 0 = Some (vec 2 1%positive 2) ∧
  represents (mem full_1_2) (vec 2 1%positive 2) [1; 2] ∧
  ∃ w1,
    Vector_new_move 1 0 full_1_2 = (Ret (), w1) ∧
    mem w1 = mem full_1_2 ∧
    objs w1 = <[0 := Vector_default]> (<[1 := vec 2 1%positive 2]> (objs full_1_2)) ∧
    (_ ← Vector_delete 0; Vector_delete 1) w1
    = (Ret (), {| mem := others (mem full_1_2) (vec 2 1%positive 2);
                  objs := delete 1 (delete 0 (objs full_1_2)) |}).
Proof.
  split; [reflexivity|]. split; [reflexivity|]. split; [exact full_1_2_represents|].
  apply (Vector_new_move_transfers full_1_2 1 0 (vec 2 1%positive 2) [1; 2]);
    [reflexivity|reflexivity|exact full_1_2_represents].
Defined.

Lemma moves_and_swap_keep_heap_witness :
  Vector_move_assign 0 1 two_vectors = (Ret (), after_move_assign) ∧
  mem after_move_assign = mem two_vectors ∧
  ∀ e, Ret () ≠ @Throw unit e.
Proof.
  assert (Hrun : Vector_move_assign 0 1 two_vectors = (Ret (), after_move_assign)).
  { vm_compute. reflexivity. }
  split; [exact Hrun|].
  apply (moves_and_swap_keep_heap two_vectors 0 1 (Ret ()) after_move_assign).
  right. left. exact Hrun.
Defined.

Lemma Swap_exchanges_witness :
  objs two_vectors !! 0 = Some (vec 2 1%positive 2) ∧
  objs two_vectors !! 1 = Some (vec 1 2%positive 1) ∧
  ∃ w',
    Swap 0 1 two_vectors = (Ret (), w') ∧
    mem w' = mem two_vectors ∧
    objs w' = <[1 := vec 2 1%positive 2]> (<[0 := vec 1 2%positive 1]> (objs two_vectors)) ∧
    Swap 0 1 w' = (Ret (), two_vectors).
Proof.
  split; [reflexivity|]. split; [reflexivity|].
  apply (Swap_exchanges two_vectors 0 1 (vec 2 1%positive 2) (vec 1 2%positive 1));
    reflexivity.
Defined.

Lemma Vector_delete_releases_witness :
  objs full_1_2 !! 0 = Some (vec 2 1%positive 2) ∧
  represents (mem full_1_2) (vec 2 1%positive 2) [1; 2] ∧
  Vector_dtor_body (vec 2 1%positive 2) (mem full_1_2)
  = (Ret (), match buffer_ (data_ (vec 2 1%positive 2)) with
             | Some a => <[a := replicate (capacity_ (data_ (vec 2 1%positive 2))) None]>
                           (mem full_1_2)
             | None => mem full_1_2
             end) ∧
  Vector_delete 0 full_1_2
  = (Ret (), {| mem := others (mem full_1_2) (vec 2 1%positive 2);
                objs := delete 0 (objs full_1_2) |}).
Proof.
  split; [reflexivity|]. split; [exact full_1_2_represents|].
  apply (Vector_delete_releases full_1_2 0 (vec 2 1%positive 2) [1; 2]);
    [reflexivity|exact full_1_2_represents].
Defined.

Lemma construct_then_destroy_witness :
  objs full_1_2 !! 1 = None ∧ (∀ i, i < 3 → value_init i = Some 0) ∧
  3 * sizeof_T ≤ max_bytes ∧
  (_ ← Vector_new_sized 1 3; Vector_delete 1) full_1_2 = (Ret (), full_1_2).
Proof.
  split; [reflexivity|]. split; [intros i _; reflexivity|]. split; [vm_compute; lia|].
  apply (construct_then_destroy full_1_2 1 3 0);
    [reflexivity|intros i _; reflexivity|vm_compute; lia].
Defined.

Lemma two_vectors_represent :
  represents (mem two_vectors) (vec 2 1%positive 2) [1; 2] ∧
  represents (mem two_vectors) (vec 1 2%positive 1) [3].
Proof. split; repeat split; cbn; lia. Defined.

Lemma copy_assign_copies_witness :
  0 ≠ 1 ∧
  objs two_vectors !! 0 = Some (vec 2 1%positive 2) ∧
  objs two_vectors !! 1 = Some (vec 1 2%positive 1) ∧
  ∃ w' v',
    Vector_copy_assign 0 1 two_vectors = (Ret (), w') ∧
    objs w' = <[0 := v']> (objs two_vectors) ∧
    represents (mem w') v' [3] ∧
    represents (mem w') (vec 1 2%positive 1) [3] ∧
    capacity_ (data_ v') = Nat.max 2 1 ∧
    (1 ≤ 2 → data_ v' = data_ (vec 2 1%positive 2)) ∧
    (2 < 1 → ∀ a, Some 1%positive = Some a → mem w' !! a = None).
Proof.
  split; [lia|]. split; [reflexivity|]. split; [reflexivity|].
  apply (copy_assign_copies two_vectors 0 1 (vec 2 1%positive 2) (vec 1 2%positive 1)
           [1; 2] [3]).
  - lia.
  - reflexivity.
  - reflexivity.
  - exact (proj1 two_vectors_represent).
  - exact (proj2 two_vectors_represent).
  - intros a [= <-]. discriminate.
  - repeat constructor.
Defined.

Lemma Resize_sets_size_witness :
  objs roomy_1_2_4_5 !! 0 = Some (vec 4 1%positive 8) ∧
  represents (mem roomy_1_2_4_5) (vec 4 1%positive 8) [1; 2; 4; 5] ∧
  ∃ w' v',
    Resize 0 6 roomy_1_2_4_5 = (Ret (), w') ∧
    objs w' = <[0 := v']> (objs roomy_1_2_4_5) ∧
    represents (mem w') v' (take 6 [1; 2; 4; 5] ++ replicate (6 - 4) 0) ∧
    size_ v' = 6 ∧
    capacity_ (data_ v') = Nat.max 8 6 ∧
    (6 ≤ 8 → data_ v' = data_ (vec 4 1%positive 8)).
Proof.
  split; [reflexivity|]. split; [exact roomy_represents|].
  apply (Resize_sets_size roomy_1_2_4_5 0 (vec 4 1%positive 8) [1; 2; 4; 5] 6 0).
  - reflexivity.
  - exact roomy_represents.
  - intros i _. reflexivity.
  - simpl. lia.
Defined.

Lemma Vector_index_checks_size_witness :
  represents (mem roomy_1_2_4_5) (vec 4 1%positive 8) [1; 2; 4; 5] ∧
  (∀ x, [1; 2; 4; 5] !! 2 = Some x →
        Vector_index (vec 4 1%positive 8) 2 (mem roomy_1_2_4_5)
        = (Ret (begin_ (vec 4 1%positive 8) +ₚ 2), mem roomy_1_2_4_5) ∧
        load (begin_ (vec 4 1%positive 8) +ₚ 2) (mem roomy_1_2_4_5)
        = (Ret x, mem roomy_1_2_4_5)) ∧
  (4 ≤ 2 → Vector_index (vec 4 1%positive 8) 2 (mem roomy_1_2_4_5)
           = (Undef, mem roomy_1_2_4_5)).
Proof.
  split; [exact roomy_represents|].
  apply (Vector_index_checks_size (mem roomy_1_2_4_5) (vec 4 1%positive 8) [1; 2; 4; 5] 2).
  exact roomy_represents.
Defined.

Lemma end_minus_begin_witness :
  represents (mem roomy_1_2_4_5) (vec 4 1%positive 8) [1; 2; 4; 5] ∧
  end_ (vec 4 1%positive 8) (mem roomy_1_2_4_5)
  = (Ret (begin_ (vec 4 1%positive 8) +ₚ 4), mem roomy_1_2_4_5) ∧
  ptr_diff (begin_ (vec 4 1%positive 8) +ₚ 4) (begin_ (vec 4 1%positive 8))
    (mem roomy_1_2_4_5) = (Ret 4, mem roomy_1_2_4_5) ∧
  cend (vec 4 1%positive 8) (mem roomy_1_2_4_5)
  = (Ret (cbegin (vec 4 1%positive 8) +ₚ 4), mem roomy_1_2_4_5) ∧
  cbegin (vec 4 1%positive 8) = begin_ (vec 4 1%positive 8).
Proof.
  split; [exact roomy_represents|].
  apply (end_minus_begin (mem roomy_1_2_4_5) (vec 4 1%positive 8) [1; 2; 4; 5]).
  exact roomy_represents.
Defined.

Lemma EmplaceBack_with_room_witness :
  objs roomy_1_2_4_5 !! 0 = Some (vec 4 1%positive 8) ∧
  represents (mem roomy_1_2_4_5) (vec 4 1%positive 8) [1; 2; 4; 5] ∧
  ∃ a blk w',
    buffer_ (data_ (vec 4 1%positive 8)) = Some a ∧
    mem roomy_1_2_4_5 !! a = Some blk ∧
    EmplaceBack 0 (CopyOf 7) roomy_1_2_4_5 = (Ret (Some a, 4), w') ∧
    objs w' = <[0 := {| size_ := 5; data_ := data_ (vec 4 1%positive 8) |}]>
                (objs roomy_1_2_4_5) ∧
    mem w' = <[a := <[4 := Some 7]> blk]> (mem roomy_1_2_4_5) ∧
    represents (mem w') {| size_ := 5; data_ := data_ (vec 4 1%positive 8) |}
      ([1; 2; 4; 5] ++ [7]).
Proof.
  split; [reflexivity|]. split; [exact roomy_represents|].
  apply (EmplaceBack_with_room roomy_1_2_4_5 0 (vec 4 1%positive 8) [1; 2; 4; 5]
           (CopyOf 7) 7).
  - reflexivity.
  - exact roomy_represents.
  - simpl. lia.
  - reflexivity.
Defined.

Lemma appends_within_capacity_witness :
  objs roomy_1_2_4_5 !! 0 = Some (vec 4 1%positive 8) ∧
  represents (mem roomy_1_2_4_5) (vec 4 1%positive 8) [1; 2; 4; 5] ∧
  ∃ w',
    appends 0 [ByPushBack 7; ByPushBackMove 8] roomy_1_2_4_5 = (Ret (), w') ∧
    objs w' = <[0 := {| size_ := 4 + 2; data_ := data_ (vec 4 1%positive 8) |}]>
                (objs roomy_1_2_4_5) ∧
    represents (mem w') {| size_ := 4 + 2; data_ := data_ (vec 4 1%positive 8) |}
      ([1; 2; 4; 5] ++ [7; 8]) ∧
    only_at (Some 1%positive) (mem roomy_1_2_4_5) (mem w').
Proof.
  split; [reflexivity|]. split; [exact roomy_represents|].
  apply (appends_within_capacity roomy_1_2_4_5 0 (vec 4 1%positive 8) [1; 2; 4; 5]
           [ByPushBack 7; ByPushBackMove 8] [7; 8]).
  - reflexivity.
  - exact roomy_represents.
  - repeat constructor.
  - simpl. lia.
Defined.

Lemma append_then_PopBack_witness :
  objs roomy_1_2_4_5 !! 0 = Some (vec 4 1%positive 8) ∧
  represents (mem roomy_1_2_4_5) (vec 4 1%positive 8) [1; 2; 4; 5] ∧
  ∃ w' v',
    (_ ← EmplaceBack 0 (CopyOf 7); PopBack 0) roomy_1_2_4_5 = (Ret (), w') ∧
    objs w' = <[0 := v']> (objs roomy_1_2_4_5) ∧
    represents (mem w') v' [1; 2; 4; 5] ∧
    (4 < 8 → w' = roomy_1_2_4_5).
Proof.
  split; [reflexivity|]. split; [exact roomy_represents|].
  apply (append_then_PopBack roomy_1_2_4_5 0 (vec 4 1%positive 8) [1; 2; 4; 5]
           (CopyOf 7) 7).
  - reflexivity.
  - exact roomy_represents.
  - reflexivity.
  - simpl. lia.
Defined.

Lemma PopBack_empty_undefined_witness :
  objs fresh_vector !! 0 = Some Vector_default ∧
  size_ Vector_default = 0 ∧
  goes_wrong (PopBack 0) fresh_vector.
Proof.
  split; [reflexivity|]. split; [reflexivity|].
  apply (PopBack_empty_undefined fresh_vector 0 Vector_default); reflexivity.
Defined.

Lemma Erase_end_undefined_witness :
  objs full_1_2 !! 0 = Some (vec 2 1%positive 2) ∧
  represents (mem full_1_2) (vec 2 1%positive 2) [1; 2] ∧
  goes_wrong (Erase 0 (begin_ (vec 2 1%positive 2) +ₚ 2)) full_1_2.
Proof.
  split; [reflexivity|]. split; [exact full_1_2_represents|].
  apply (Erase_end_undefined full_1_2 0 (vec 2 1%positive 2) [1; 2]);
    [reflexivity|exact full_1_2_represents].
Defined.

Lemma too_many_overflows :
  is_size_t too_many ∧
  (2 ^ 64 ≤ N.of_nat too_many * N.of_nat sizeof_T)%N ∧
  size_mul too_many sizeof_T ≤ max_bytes.
Proof.
  unfold is_size_t, size_mul, wrap, too_many.
  change (@sizeof_T nat int_element) with 4. change (@max_bytes small_heap) with 4096.
  rewrite Nat2N.inj_mul, !N2Nat.id. change (N.of_nat 4) with 4%N.
  split; [lia|]. split; [lia|].
  replace (2 ^ 62 * 4)%N with (2 ^ 64)%N by lia.
  rewrite N.Div0.mod_same. cbn. lia.
Defined.

Lemma RawMemory_ctor_overflow_witness :
  is_size_t too_many ∧
  (2 ^ 64 ≤ N.of_nat too_many * N.of_nat sizeof_T)%N ∧
  size_mul too_many sizeof_T ≤ max_bytes ∧
  ∃ a k,
    RawMemory_ctor too_many (∅ : heap nat)
    = (Ret {| buffer_ := Some a; capacity_ := too_many |}, <[a := replicate k None]> ∅) ∧
    (∅ : heap nat) !! a = None ∧ k < too_many.
Proof.
  destruct too_many_overflows as (H1 & H2 & H3).
  split; [exact H1|]. split; [exact H2|]. split; [exact H3|].
  exact (RawMemory_ctor_overflow too_many ∅ H1 H2 H3).
Defined.

Lemma Vector_sized_overflow_witness :
  is_size_t too_many ∧ (∀ i, i < too_many → value_init i = Some 0) ∧
  (2 ^ 64 ≤ N.of_nat too_many * N.of_nat sizeof_T)%N ∧
  size_mul too_many sizeof_T ≤ max_bytes ∧
  ∃ h', Vector_sized too_many (∅ : heap nat) = (Undef, h').
Proof.
  destruct too_many_overflows as (H1 & H2 & H3).
  split; [exact H1|]. split; [intros i _; reflexivity|]. split; [exact H2|].
  split; [exact H3|].
  exact (Vector_sized_overflow too_many ∅ 0 H1 (λ i _, eq_refl) H2 H3).
Defined.

Lemma DestroyN_destroys_witness :
  mem roomy_1_2_4_5 !! 1%positive
  = Some ([Some 1] ++ (Some <$> [2; 4]) ++ [Some 5; None; None; None; None]) ∧
  DestroyN (Some 1%positive, length [Some 1]) (length [2; 4]) (mem roomy_1_2_4_5)
  = (Ret (), <[1%positive := [Some 1] ++ replicate (length [2; 4]) None
                             ++ [Some 5; None; None; None; None]]> (mem roomy_1_2_4_5)).
Proof.
  split; [reflexivity|].
  apply (DestroyN_destroys (mem roomy_1_2_4_5) 1%positive [Some 1]
           [Some 5; None; None; None; None] [2; 4]).
  reflexivity.
Defined.

Lemma CopyConstruct_then_Destroy_witness :
  mem roomy_1_2_4_5 !! 1%positive
  = Some [Some 1; Some 2; Some 4; Some 5; None; None; None; None] ∧
  [Some 1; Some 2; Some 4; Some 5; None; None; None; None] !! 5 = Some None ∧
  (copy_ctor_throws 9 = false →
   (_ ← CopyConstruct (Some 1%positive, 5) 9; Destroy (Some 1%positive, 5))
     (mem roomy_1_2_4_5) = (Ret (), mem roomy_1_2_4_5)) ∧
  (copy_ctor_throws 9 = true →
   CopyConstruct (Some 1%positive, 5) 9 (mem roomy_1_2_4_5)
   = (Throw element_exn, mem roomy_1_2_4_5)).
Proof.
  split; [reflexivity|]. split; [reflexivity|].
  apply (CopyConstruct_then_Destroy (mem roomy_1_2_4_5) 1%positive
           [Some 1; Some 2; Some 4; Some 5; None; None; None; None] 5 9);
    reflexivity.
Defined.

Lemma Erase_noexcept_witness :
  (∀ x : nat, move_assign_throws x = false) ∧
  Erase 0 (Some 1%positive, 1) roomy_1_2_4_5 ≠ (Throw element_exn, roomy_1_2_4_5).
Proof.
  split; [reflexivity|].
  apply (Erase_noexcept 0 (Some 1%positive, 1) roomy_1_2_4_5 element_exn roomy_1_2_4_5).
  reflexivity.
Defined.

Lemma EmplaceBack_full_releases_witness :
  objs full_1_2 !! 0 = Some (vec 2 1%positive 2) ∧
  represents (mem full_1_2) (vec 2 1%positive 2) [1; 2] ∧
  ∃ b w',
    mem full_1_2 !! b = None ∧
    EmplaceBack 0 (CopyOf 3) full_1_2 = (Ret (Some b, 2), w') ∧
    objs w' = <[0 := {| size_ := 3;
                        data_ := {| buffer_ := Some b; capacity_ := grown 2 |} |}]>
                (objs full_1_2) ∧
    mem w' = <[b := (Some <$> [1; 2] ++ [3]) ++ replicate (grown 2 - 3) None]>
               (others (mem full_1_2) (vec 2 1%positive 2)) ∧
    (∀ a, Some 1%positive = Some a → mem w' !! a = None).
Proof.
  split; [reflexivity|]. split; [exact full_1_2_represents|].
  apply (EmplaceBack_full_releases full_1_2 0 (vec 2 1%positive 2) [1; 2] (CopyOf 3) 3).
  - reflexivity.
  - exact full_1_2_represents.
  - reflexivity.
  - reflexivity.
  - repeat constructor.
  - vm_compute. lia.
Defined.

Lemma Reserve_keeps_others_witness :
  objs roomy_1_2_4_5 !! 0 = Some (vec 4 1%positive 8) ∧
  represents (mem roomy_1_2_4_5) (vec 4 1%positive 8) [1; 2; 4; 5] ∧
  ∃ b w',
    mem roomy_1_2_4_5 !! b = None ∧
    Reserve 0 16 roomy_1_2_4_5 = (Ret (), w') ∧
    objs w' = <[0 := {| size_ := 4;
                        data_ := {| buffer_ := Some b; capacity_ := 16 |} |}]>
                (objs roomy_1_2_4_5) ∧
    mem w' = <[b := (Some <$> [1; 2; 4; 5]) ++ replicate (16 - 4) None]>
               (others (mem roomy_1_2_4_5) (vec 4 1%positive 8)) ∧
    (∀ a, Some 1%positive = Some a → mem w' !! a = None).
Proof.
  split; [reflexivity|]. split; [exact roomy_represents|].
  apply (Reserve_keeps_others roomy_1_2_4_5 0 (vec 4 1%positive 8) [1; 2; 4; 5] 16).
  - reflexivity.
  - exact roomy_represents.
  - simpl. lia.
  - vm_compute. lia.
  - repeat constructor.
Defined.

Lemma fill_then_destroy_witness :
  objs fresh_vector !! 0 = Some Vector_default ∧
  (_ ← appends 0 [ByPushBack 1; ByPushBackMove 2;
                  ByEmplaceBack (@FromArgs nat int_element 3)];
   Vector_delete 0) fresh_vector
  = (Ret (), {| mem := mem fresh_vector; objs := delete 0 (objs fresh_vector) |}).
Proof.
  split; [reflexivity|].
  apply (fill_then_destroy fresh_vector 0
           [ByPushBack 1; ByPushBackMove 2;
            ByEmplaceBack (@FromArgs nat int_element 3)] [1; 2; 3]).
  - reflexivity.
  - repeat constructor.
  - repeat constructor.
  - vm_compute. lia.
Defined.

End IntExamples.

(** ** The further properties where a copy constructor throws *)

Section CopyThrowExamples.
#[local] Existing Instance throwing_copy_element.
#[local] Existing Instance small_heap.

Lemma full_7_13_represents :
  represents (mem full_7_13) (vec 2 1%positive 2) [7; 13].
Proof. repeat split; cbn; lia. Defined.

Lemma Vector_copy_ctor_throw_releases_witness :
  Vector_copy_ctor (vec 2 1%positive 2) (mem full_7_13)
  = (Throw element_exn, mem full_7_13) ∧
  mem full_7_13 = mem full_7_13 ∧
  ∀ data h1, RawMemory_ctor (Size (vec 2 1%positive 2)) (mem full_7_13) = (Ret data, h1) →
    (if use_move
     then uninitialized_move_n_const (GetAddress (data_ (vec 2 1%positive 2)))
            (size_ (vec 2 1%positive 2)) (GetAddress data)
     else uninitialized_copy_n (GetAddress (data_ (vec 2 1%positive 2)))
            (size_ (vec 2 1%positive 2)) (GetAddress data)) h1
    = (Throw element_exn, h1) ∧
    RawMemory_dtor data h1 = (Ret (), mem full_7_13).
Proof.
  assert (Hrun : Vector_copy_ctor (vec 2 1%positive 2) (mem full_7_13)
                 = (Throw element_exn, mem full_7_13)).
  { vm_compute. reflexivity. }
  split; [exact Hrun|].
  exact (Vector_copy_ctor_throw_releases (vec 2 1%positive 2) (mem full_7_13)
           element_exn (mem full_7_13) Hrun).
Defined.

Lemma copy_assign_grow_strong_witness :
  0 ≠ 1 ∧
  objs empty_and_7_13 !! 0 = Some Vector_default ∧
  objs empty_and_7_13 !! 1 = Some (vec 2 1%positive 2) ∧
  capacity_ (data_ Vector_default) < size_ (vec 2 1%positive 2) ∧
  Vector_copy_assign 0 1 empty_and_7_13 = (Throw element_exn, empty_and_7_13) ∧
  empty_and_7_13 = empty_and_7_13.
Proof.
  assert (Hrun : Vector_copy_assign 0 1 empty_and_7_13
                 = (Throw element_exn, empty_and_7_13)).
  { vm_compute. reflexivity. }
  split; [lia|]. split; [reflexivity|]. split; [reflexivity|].
  split; [simpl; lia|]. split; [exact Hrun|].
  apply (copy_assign_grow_strong empty_and_7_13 0 1 Vector_default (vec 2 1%positive 2)
           element_exn empty_and_7_13);
    [lia|reflexivity|reflexivity|simpl; lia|exact Hrun].
Defined.

Lemma EmplaceBack_room_strong_witness :
  objs roomy_1_2_4_5 !! 0 = Some (vec 4 1%positive 8) ∧
  represents (mem roomy_1_2_4_5) (vec 4 1%positive 8) [1; 2; 4; 5] ∧
  construct (CopyOf 13) = None ∧
  (construct (CopyOf 13) = None →
   EmplaceBack 0 (CopyOf 13) roomy_1_2_4_5 = (Throw element_exn, roomy_1_2_4_5)) ∧
  (∀ e w', EmplaceBack 0 (CopyOf 13) roomy_1_2_4_5 = (Throw e, w') →
           w' = roomy_1_2_4_5 ∧ construct (CopyOf 13) = None).
Proof.
  assert (Hrep : represents (mem roomy_1_2_4_5) (vec 4 1%positive 8) [1; 2; 4; 5]).
  { repeat split; cbn; lia. }
  split; [reflexivity|]. split; [exact Hrep|]. split; [reflexivity|].
  apply (EmplaceBack_room_strong roomy_1_2_4_5 0 (vec 4 1%positive 8) [1; 2; 4; 5]
           (CopyOf 13)).
  - reflexivity.
  - exact Hrep.
  - simpl. lia.
Defined.

Lemma Emplace_construct_fails_witness :
  objs full_7_13 !! 0 = Some (vec 2 1%positive 2) ∧
  represents (mem full_7_13) (vec 2 1%positive 2) [7; 13] ∧
  construct (CopyOf 13) = None ∧
  ∃ e, run_insertion 0 (begin_ (vec 2 1%positive 2) +ₚ 1) (ByInsert 13) full_7_13
       = (Throw e, full_7_13).
Proof.
  split; [reflexivity|]. split; [exact full_7_13_represents|]. split; [reflexivity|].
  apply (Emplace_construct_fails full_7_13 0 (vec 2 1%positive 2) [7; 13] 1 (ByInsert 13)).
  - reflexivity.
  - exact full_7_13_represents.
  - simpl. lia.
  - reflexivity.
Defined.

Lemma Reserve_strong_guarantee_witness :
  (is_nothrow_move_constructible = true ∨ is_copy_constructible = true) ∧
  Reserve 0 4 full_7_13 = (Throw element_exn, full_7_13) ∧
  full_7_13 = full_7_13.
Proof.
  assert (Hrun : Reserve 0 4 full_7_13 = (Throw element_exn, full_7_13)).
  { vm_compute. reflexivity. }
  split; [by right|]. split; [exact Hrun|].
  exact (Reserve_strong_guarantee full_7_13 0 4 element_exn full_7_13
           (or_intror eq_refl) Hrun).
Defined.

End CopyThrowExamples.

(** ** A default constructor that throws *)

Section DefaultThrowExamples.
#[local] Existing Instance throwing_default_element.
#[local] Existing Instance small_heap.

Lemma Vector_sized_throw_releases_witness :
  Vector_sized 3 (mem full_1_2) = (Throw element_exn, mem full_1_2) ∧
  mem full_1_2 = mem full_1_2 ∧
  ∀ data h1, RawMemory_ctor 3 (mem full_1_2) = (Ret data, h1) →
    uninitialized_value_construct_n (GetAddress data) 3 h1 = (Throw element_exn, h1) ∧
    RawMemory_dtor data h1 = (Ret (), mem full_1_2).
Proof.
  assert (Hrun : Vector_sized 3 (mem full_1_2) = (Throw element_exn, mem full_1_2)).
  { vm_compute. reflexivity. }
  split; [exact Hrun|].
  exact (Vector_sized_throw_releases 3 (mem full_1_2) element_exn (mem full_1_2) Hrun).
Defined.

End DefaultThrowExamples.
